(** * rwsort: the external-memory sorter of SiLK flow records

    A shallow embedding of [src/rwsort/rwsort.c]: the record comparator
    [rwrecCompare], the run buffer of [sortRandom], the k-way merger
    [mergeFiles] with its cascade, the presorted driver [sortPresorted]
    and [main].  Stateful code is written as explicit state passing over
    a small result monad; what the operating system and the libraries
    decide (allocation, opening a file, whether a read fails, the output
    writer's status) is an oracle of the environment. *)

From stdpp Require Import base numbers list gmap sorting strings pretty.
From Stdlib Require Import ZArith Lia.

Local Open Scope Z_scope.

(** ** Machine integers *)

(** [int]: 32 bits, two's complement. *)
Definition INT_MIN : Z := - 2 ^ 31.
Definition INT_MAX : Z := 2 ^ 31 - 1.
Definition wrap_int (z : Z) : Z := (z + 2 ^ 31) mod 2 ^ 32 - 2 ^ 31.

(** [uint32_t] arithmetic wraps at [2^32]. *)
Definition UINT32_MAX : Z := 2 ^ 32 - 1.
Definition wrap_u32 (z : Z) : Z := z mod 2 ^ 32.

(** [int64_t]: 64 bits, two's complement. *)
Definition wrap_int64 (z : Z) : Z := (z + 2 ^ 63) mod 2 ^ 64 - 2 ^ 63.

(** Unary minus on an [int].  [- INT_MIN] is not representable; on the
    two's-complement targets the program runs on it wraps to [INT_MIN]. *)
Definition neg_int (v : Z) : Z := wrap_int (- v).

Definition in_int (z : Z) : Prop := INT_MIN <= z <= INT_MAX.

(** ** Outcomes of a computation *)

(** Points at which the C code leaves defined behaviour, those the
    sorter records.  The two signed overflows of the comparator, the
    negation of INT_MIN in RETURN_SORT_ORDER and the end time past
    INT64_MAX, are not among them: they are computed with the
    wrap-around of the target. *)
Inductive fault :=
| DrainEmptyHeap      (* mergeFiles drains recs[lowest] and fps[lowest] although
                         skHeapExtractTop found the heap empty and left
                         lowest as it was *)
| BufferOverrun       (* sortRandom stores a record past record_buffer *)
| DivisionByZero
| BadIndex.           (* an array read at a slot that was never filled *)

Inductive result (A : Type) :=
| Done (a : A)                  (* the code went on with value [a] *)
| Exit                          (* appExit(EXIT_FAILURE) / exit / abort *)
| Fault (u : fault)
| Timeout.                      (* the model's fuel ran out *)
Arguments Done {A} a.
Arguments Exit {A}.
Arguments Fault {A} u.
Arguments Timeout {A}.

Definition bind {A B} (m : result A) (f : A -> result B) : result B :=
  match m with
  | Done a => f a
  | Exit => Exit
  | Fault u => Fault u
  | Timeout => Timeout
  end.

#[global] Instance result_bind : MBind result := fun A B f m => bind m f.
#[global] Instance result_ret : MRet result := fun A a => Done a.

(** ** Records, nodes and sort fields *)

(** [rwRec] and its accessor macros are declared in rwrec.h; a record is
    the tuple of values the accessors used by rwsort.c return. *)
Record rwRec := {
  rwRecGetSIP : Z;          (* rwRecGetSIPv4 / rwRecMemGetSIP *)
  rwRecGetDIP : Z;
  rwRecGetNhIP : Z;
  rwRecGetSPort : Z;
  rwRecGetDPort : Z;
  rwRecGetProto : Z;
  rwRecGetPkts : Z;
  rwRecGetBytes : Z;
  rwRecGetFlags : Z;
  rwRecGetStartTime : Z;
  rwRecGetElapsed : Z;
  rwRecGetSensor : Z;
  rwRecGetInput : Z;
  rwRecGetOutput : Z;
  rwRecGetInitFlags : Z;
  rwRecGetRestFlags : Z;
  rwRecGetTcpState : Z;
  rwRecGetApplication : Z;
  rwRecGetFlowType : Z;
  rwRecIsICMP : bool;
  rwRecGetIcmpType : Z;
  rwRecGetIcmpCode : Z
}.

(** Modelled from the spec: rwRecGetEndTime is a macro of rwrec.h; the end
    time is derived as start time plus elapsed time when it is compared.
    The start time is an sktime_t, an int64_t, and so is the sum: past
    INT64_MAX it wraps on the two's-complement targets the program runs
    on. *)
Definition rwRecGetEndTime (r : rwRec) : Z :=
  wrap_int64 (rwRecGetStartTime r + rwRecGetElapsed r).

Definition getIcmpType (r : rwRec) : Z :=
  if rwRecIsICMP r then rwRecGetIcmpType r else 0.

Definition getIcmpCode (r : rwRec) : Z :=
  if rwRecIsICMP r then rwRecGetIcmpCode r else 0.

(** Modelled from the spec: skipaddrCompare belongs to libsilk; addresses
    compare by their full width, giving a negative, zero or positive int.
    The spec leaves the magnitude open; the model answers -1 and 1. *)
Definition skipaddrCompare (ipa ipb : Z) : Z :=
  if ipa <? ipb then -1 else if ipb <? ipa then 1 else 0.

(** The values of sort_fields[]: the ids rwrecCompare's switch names, and
    every other id, which takes the default case (a plug-in field). *)
Inductive field_id :=
| RWREC_FIELD_SIP | RWREC_FIELD_DIP | RWREC_FIELD_NHIP
| RWREC_FIELD_SPORT | RWREC_FIELD_DPORT | RWREC_FIELD_PROTO
| RWREC_FIELD_PKTS | RWREC_FIELD_BYTES | RWREC_FIELD_FLAGS
| RWREC_FIELD_STIME | RWREC_FIELD_STIME_MSEC
| RWREC_FIELD_ELAPSED | RWREC_FIELD_ELAPSED_MSEC
| RWREC_FIELD_ETIME | RWREC_FIELD_ETIME_MSEC
| RWREC_FIELD_SID | RWREC_FIELD_INPUT | RWREC_FIELD_OUTPUT
| RWREC_FIELD_INIT_FLAGS | RWREC_FIELD_REST_FLAGS | RWREC_FIELD_TCP_STATE
| RWREC_FIELD_APPLICATION | RWREC_FIELD_FTYPE_CLASS | RWREC_FIELD_FTYPE_TYPE
| RWREC_FIELD_ICMP_TYPE | RWREC_FIELD_ICMP_CODE
| FIELD_OTHER (id : Z).

Definition SKPLUGIN_OK : Z := 0.

(** A plug-in field handle, as the capability bundle the sorter calls:
    skPluginFieldRunRecToBinFn and skPluginFieldRunBinCompareFn, each
    giving an error code and its result. *)
Record skplugin_field := {
  pf_rec_to_bin : rwRec -> Z * list Z;
  pf_bin_compare : list Z -> list Z -> Z * Z
}.

Record key_field_t := {
  kf_field_handle : skplugin_field;
  kf_offset : Z
}.

(** A node: the complete rwRec, then the bytes of the plug-in keys, which
    start at offset sizeof(rwRec). *)
Record node := {
  n_rec : rwRec;
  n_key : list Z
}.

(** The compile-time constants of rwsort.h and silk.h. *)
Record limits := {
  sizeof_rwRec : Z;
  SK_ENABLE_IPV6 : bool;
  MAX_MERGE_FILES : Z;
  SORT_NUM_CHUNKS : Z;
  MIN_IN_CORE_RECORDS : Z
}.

(** The globals appSetup fills in. *)
Record config := {
  sort_fields : list field_id;      (* num_fields is its length *)
  key_fields : list key_field_t;    (* key_num_fields is its length *)
  reverse : bool;
  presorted_input : bool;
  sort_buffer_size : Z;
  node_size : Z
}.

(** ** The comparator *)

Inductive cmp_res :=
| CRet (v : Z)      (* rwrecCompare returned v *)
| CExit             (* a plug-in failed: exit(EXIT_FAILURE) *)
| CAssert.          (* assert(key - key_fields < key_num_fields) failed *)

Section Comparator.
Variable L : limits.
Variable rev : bool.

Definition RETURN_SORT_ORDER (val : Z) : cmp_res :=
  CRet (if rev then neg_int val else val).

(** The macros return from rwrecCompare or fall through to [next],
    the rest of the loop. *)
Definition RETURN_IF_SORTED (func : rwRec -> Z) (a b : node)
    (next : cmp_res) : cmp_res :=
  if func (n_rec a) <? func (n_rec b) then RETURN_SORT_ORDER (-1)
  else if func (n_rec b) <? func (n_rec a) then RETURN_SORT_ORDER 1
  else next.

Definition RETURN_IF_SORTED_IPS (func : rwRec -> Z) (a b : node)
    (next : cmp_res) : cmp_res :=
  let cmp := skipaddrCompare (func (n_rec a)) (func (n_rec b)) in
  if cmp =? 0 then next else RETURN_SORT_ORDER cmp.

Definition compare_ip (func : rwRec -> Z) (a b : node)
    (next : cmp_res) : cmp_res :=
  if SK_ENABLE_IPV6 L then RETURN_IF_SORTED_IPS func a b next
  else RETURN_IF_SORTED func a b next.

(** &node[kf_offset] *)
Definition key_at (n : node) (off : Z) : list Z :=
  drop (Z.to_nat (off - sizeof_rwRec L)) (n_key n).

(** The loop of rwrecCompare from field [i] on; [key] is the cursor
    into key_fields[], advanced by every plug-in field. *)
Fixpoint rwrecCompare_from (fields : list field_id) (key : list key_field_t)
    (a b : node) : cmp_res :=
  match fields with
  | [] => CRet 0
  | f :: fields' =>
    let next := rwrecCompare_from fields' key a b in
    match f with
    | RWREC_FIELD_SIP => compare_ip rwRecGetSIP a b next
    | RWREC_FIELD_DIP => compare_ip rwRecGetDIP a b next
    | RWREC_FIELD_NHIP => compare_ip rwRecGetNhIP a b next
    | RWREC_FIELD_SPORT => RETURN_IF_SORTED rwRecGetSPort a b next
    | RWREC_FIELD_DPORT => RETURN_IF_SORTED rwRecGetDPort a b next
    | RWREC_FIELD_PROTO => RETURN_IF_SORTED rwRecGetProto a b next
    | RWREC_FIELD_PKTS => RETURN_IF_SORTED rwRecGetPkts a b next
    | RWREC_FIELD_BYTES => RETURN_IF_SORTED rwRecGetBytes a b next
    | RWREC_FIELD_FLAGS => RETURN_IF_SORTED rwRecGetFlags a b next
    | RWREC_FIELD_STIME | RWREC_FIELD_STIME_MSEC =>
        RETURN_IF_SORTED rwRecGetStartTime a b next
    | RWREC_FIELD_ELAPSED | RWREC_FIELD_ELAPSED_MSEC =>
        RETURN_IF_SORTED rwRecGetElapsed a b next
    | RWREC_FIELD_ETIME | RWREC_FIELD_ETIME_MSEC =>
        RETURN_IF_SORTED rwRecGetEndTime a b next
    | RWREC_FIELD_SID => RETURN_IF_SORTED rwRecGetSensor a b next
    | RWREC_FIELD_INPUT => RETURN_IF_SORTED rwRecGetInput a b next
    | RWREC_FIELD_OUTPUT => RETURN_IF_SORTED rwRecGetOutput a b next
    | RWREC_FIELD_INIT_FLAGS => RETURN_IF_SORTED rwRecGetInitFlags a b next
    | RWREC_FIELD_REST_FLAGS => RETURN_IF_SORTED rwRecGetRestFlags a b next
    | RWREC_FIELD_TCP_STATE => RETURN_IF_SORTED rwRecGetTcpState a b next
    | RWREC_FIELD_APPLICATION =>
        RETURN_IF_SORTED rwRecGetApplication a b next
    | RWREC_FIELD_FTYPE_CLASS | RWREC_FIELD_FTYPE_TYPE =>
        RETURN_IF_SORTED rwRecGetFlowType a b next
    | RWREC_FIELD_ICMP_TYPE => RETURN_IF_SORTED getIcmpType a b next
    | RWREC_FIELD_ICMP_CODE => RETURN_IF_SORTED getIcmpCode a b next
    | FIELD_OTHER _ =>
      match key with
      | [] => CAssert
      | k :: key' =>
        let '(err, rv) :=
          pf_bin_compare (kf_field_handle k)
            (key_at a (kf_offset k)) (key_at b (kf_offset k)) in
        let rv := wrap_int rv in     (* stored in the int rv *)
        if negb (err =? SKPLUGIN_OK) then CExit
        else if negb (rv =? 0) then RETURN_SORT_ORDER rv
        else rwrecCompare_from fields' key' a b
      end
    end
  end.
End Comparator.

Definition rwrecCompare (L : limits) (K : config) (a b : node) : cmp_res :=
  rwrecCompare_from L (reverse K) (sort_fields K) (key_fields K) a b.

(** The int [rwrecCompare] returns, for the callers that order nodes with
    it (skQSort and the heap).  A plug-in failure ends the process inside
    rwrecCompare; the sorter below describes the runs in which no
    comparison does. *)
Definition compare_nodes (L : limits) (K : config) (a b : node) : Z :=
  match rwrecCompare L K a b with
  | CRet v => v
  | CExit | CAssert => 0
  end.

(** ** The environment *)

Inductive open_res :=
| OpenOk
| OpenNoResource      (* errno is EMFILE or ENOMEM *)
| OpenError.          (* any other failure *)

Inductive write_status :=
| WriteOk
| WriteNonFatal       (* non-zero, SKSTREAM_ERROR_IS_FATAL is false *)
| WriteFatal.

Record environment := {
  (* the input streams, in the order appNextInput hands them out *)
  env_inputs : list (list rwRec);
  (* what opening input [i] gives during pass [p] of sortPresorted
     (pass 0 for sortRandom) *)
  env_input_open : nat -> nat -> open_res;
  (* calloc of the initial chunk, tried with [num_chunks] chunks *)
  env_calloc : Z -> Z -> bool;
  (* realloc of record_buffer to that many bytes *)
  env_realloc : Z -> bool;
  (* skHeapCreate2 in sortPresorted ([true]) and in mergeFiles ([false]) *)
  env_heap_create : bool -> bool;
  (* creating the temp file of that index *)
  env_temp_create : Z -> bool;
  (* fwrite of one node to the temp file of that index, which holds that
     many nodes already *)
  env_temp_fwrite : Z -> nat -> bool;
  (* fclose of the intermediate temp file of that index *)
  env_temp_fclose : Z -> bool;
  (* what opening temp file [j] gives during pass [p] of mergeFiles *)
  env_temp_open : nat -> Z -> open_res;
  (* whether fread number [k] (from 0) on temp file [j] ends without an
     error: with a node, or at the end of the file *)
  env_temp_fread : Z -> nat -> bool;
  (* whether skStreamReadRecord number [k] (from 0) on input [i] ends
     without an error: with a record, or with SKSTREAM_ERR_EOF *)
  env_input_read : nat -> nat -> bool;
  (* the status of the [k]-th skStreamWriteRecord on out_rwios *)
  env_write : nat -> rwRec -> write_status
}.

(** ** Streams that are read *)

(** What a read gives when the stream is not at its end: the next item,
    or an error. *)
Inductive read_outcome (item : Type) :=
| Got (it : item)
| ReadError.
Arguments Got {item} it.
Arguments ReadError {item}.

(** A stream opened for reading, as the outcomes of the reads to come;
    past them the stream is at its end.  [ok k] tells whether read
    number [k] ends without an error; [k] is the number of the next
    read. *)
Fixpoint open_reader {item : Type} (ok : nat -> bool) (k : nat)
    (content : list item) : list (read_outcome item) :=
  match content with
  | [] => if ok k then [] else [ReadError]
  | it :: content' =>
      (if ok k then Got it else ReadError) :: open_reader ok (S k) content'
  end.

(** ** Temp files and the output stream *)

(** Modelled from the spec: sktempfile is part of libsilk.  Temp files
    store raw nodes back to back; create hands out indices that increase
    from zero; remove deletes the file of an index. *)
Record tempctx := {
  tf_files : gmap Z (list node);
  tf_next : Z
}.

Definition tempctx_empty : tempctx := {| tf_files := ∅; tf_next := 0 |}.

(** Modelled from the spec: the output writer (skStreamWriteRecord of
    libsilk) appends the record when it reports no error; the source goes
    on after a non-fatal error and the record is not counted as
    emitted. *)
Record outstream := {
  out_recs : list rwRec;      (* the records of the output, in order *)
  out_calls : nat             (* calls of skStreamWriteRecord so far *)
}.

Record world := {
  tmpctx : tempctx;
  out_rwios : outstream
}.

Definition world_init : world :=
  {| tmpctx := tempctx_empty;
     out_rwios := {| out_recs := []; out_calls := 0 |} |}.

Section Sorter.
Variable L : limits.
Variable K : config.
Variable env : environment.

Abbreviation cmp := (compare_nodes L K).

(** skTempFileCreate: [Some (ctx', idx)], or [None] when it returns NULL. *)
Definition skTempFileCreate (t : tempctx) : option (tempctx * Z) :=
  let idx := tf_next t in
  if env_temp_create env idx
  then Some ({| tf_files := <[idx := []]> (tf_files t);
                tf_next := idx + 1 |}, idx)
  else None.

(** fwrite of one node to the temp file opened under that index: [None]
    when it fails. *)
Definition temp_fwrite (idx : Z) (n : node) (t : tempctx) : option tempctx :=
  let content := default [] (tf_files t !! idx) in
  if env_temp_fwrite env idx (length content)
  then Some {| tf_files := <[idx := content ++ [n]]> (tf_files t);
               tf_next := tf_next t |}
  else None.

(** skTempFileWriteBuffer: a new temp file holding the buffer. *)
Definition skTempFileWriteBuffer (t : tempctx) (buf : list node)
    : option (tempctx * Z) :=
  let idx := tf_next t in
  if env_temp_create env idx
  then Some ({| tf_files := <[idx := buf]> (tf_files t);
                tf_next := idx + 1 |}, idx)
  else None.

(** skTempFileOpen during pass [pass]: the stream over the nodes of the
    file, or the kind of failure. *)
Definition skTempFileOpen (pass : nat) (t : tempctx) (j : Z)
    : list (read_outcome node) + open_res :=
  match env_temp_open env pass j with
  | OpenOk =>
    match tf_files t !! j with
    | Some content => inl (open_reader (env_temp_fread env j) 0 content)
    | None => inr OpenError
    end
  | e => inr e
  end.

Definition skTempFileRemove (t : tempctx) (j : Z) : tempctx :=
  {| tf_files := delete j (tf_files t); tf_next := tf_next t |}.

(** skStreamWriteRecord(out_rwios, rec), followed by the caller's check:
    a fatal status exits, any other status goes on. *)
Definition write_out (r : rwRec) (o : outstream) : result outstream :=
  match env_write env (out_calls o) r with
  | WriteOk =>
      Done {| out_recs := out_recs o ++ [r]; out_calls := S (out_calls o) |}
  | WriteNonFatal =>
      Done {| out_recs := out_recs o; out_calls := S (out_calls o) |}
  | WriteFatal => Exit
  end.

(** "Close the intermediate temp file", when a pass wrote to one. *)
Definition fclose_intermediate (fp_intermediate : option Z) : bool :=
  match fp_intermediate with
  | Some idx => env_temp_fclose env idx
  | None => true
  end.

(** "write the lowest record": to the intermediate temp file when
    fp_intermediate is not NULL, else to the final destination. *)
Definition write_node (fp_intermediate : option Z) (n : node) (w : world)
    : result world :=
  match fp_intermediate with
  | Some idx =>
      match temp_fwrite idx n (tmpctx w) with
      | Some t => Done {| tmpctx := t; out_rwios := out_rwios w |}
      | None => Exit
      end
  | None =>
      o ← write_out (n_rec n) (out_rwios w);
      Done {| tmpctx := tmpctx w; out_rwios := o |}
  end.

(** ** Reading records and their keys *)

(** Store [bytes] at offset [off] of the key area. *)
Definition poke (off : nat) (bytes buf : list Z) : list Z :=
  resize off 0 buf ++ bytes ++ drop (off + length bytes) buf.

(** The plug-in loop of fillRecordAndKey on a record just read. *)
Fixpoint fill_keys (keys : list key_field_t) (r : rwRec) (buf : list Z)
    : result (list Z) :=
  match keys with
  | [] => Done buf
  | k :: keys' =>
    let '(err, bytes) := pf_rec_to_bin (kf_field_handle k) r in
    if negb (err =? SKPLUGIN_OK) then Exit
    else fill_keys keys' r
           (poke (Z.to_nat (kf_offset k - sizeof_rwRec L)) bytes buf)
  end.

(** Reading one node from a reader whose stored items [decode] turns
    into nodes: [None] when no record was read, at the end of the stream
    or on an error, which the callers below do not tell apart; else the
    node and the rest of the reader. *)
Definition read_next {item : Type} (decode : item -> result node)
    (fp : list (read_outcome item))
    : result (option (node * list (read_outcome item))) :=
  match fp with
  | [] => Done None
  | ReadError :: _ => Done None
  | Got it :: fp' => n ← decode it; Done (Some (n, fp'))
  end.

(** fillRecordAndKey on a stream of records: 0 (here [None]) when
    skStreamReadRecord gives no record, "end of file or error getting
    record"; else the record read is completed with its plug-in keys. *)
Definition fill_record (r : rwRec) : result node :=
  key ← fill_keys (key_fields K) r
          (replicate (Z.to_nat (node_size K - sizeof_rwRec L)) 0);
  Done {| n_rec := r; n_key := key |}.

Definition fillRecordAndKey (rwios : list (read_outcome rwRec))
    : result (option (node * list (read_outcome rwRec))) :=
  read_next fill_record rwios.

(** fread of one node from a temp file, as the merge loop and the drain
    of mergeFiles use it: whatever makes it return 0 ends the reader. *)
Definition fread_node (fp : list (read_outcome node))
    : result (option (node * list (read_outcome node))) :=
  read_next Done fp.

(** ** skQSort and the heap *)

(** Modelled from the spec: skQSort belongs to libsilk; the buffer is
    sorted in place with the comparator.  The model inserts the records
    one by one. *)
Fixpoint qsort_insert (x : node) (l : list node) : list node :=
  match l with
  | [] => [x]
  | y :: l' => if cmp x y <=? 0 then x :: l else y :: qsort_insert x l'
  end.

Definition skQSort (l : list node) : list node := foldr qsort_insert [] l.

(** Modelled from the spec: skheap belongs to libsilk.  The heap holds
    slot indices into the scratch array [recs] and is keyed by the
    comparator over it (compHeapNodes); its top is an entry with the
    lowest key.  The model keeps the entries in a list. *)
Definition compHeapNodes (recs : list node) (b a : nat) : Z :=
  match recs !! a, recs !! b with
  | Some ra, Some rb => cmp ra rb
  | _, _ => 0
  end.

Fixpoint lowest_of (recs : list node) (best : nat) (rest : list nat) : nat :=
  match rest with
  | [] => best
  | i :: rest' =>
      lowest_of recs (if compHeapNodes recs best i <? 0 then i else best) rest'
  end.

Definition skHeapPeekTop (recs : list node) (heap : list nat) : option nat :=
  match heap with
  | [] => None
  | i :: rest => Some (lowest_of recs i rest)
  end.

Fixpoint heap_remove (i : nat) (heap : list nat) : list nat :=
  match heap with
  | [] => []
  | j :: heap' => if decide (i = j) then heap' else j :: heap_remove i heap'
  end.

(** ** The merge of the open readers *)

Section Merge.
(** The readers are temp files of nodes (mergeFiles, read with fread)
    or input streams of records (sortPresorted, read with
    fillRecordAndKey). *)
Context {item : Type}.
Variable decode : item -> result node.
Variable fp_intermediate : option Z.

Record merge_state := {
  recs : list node;           (* the scratch node of every slot *)
  fps : list (list (read_outcome item));
                              (* the reads to come in every slot *)
  heap : list nat;
  wld : world
}.

(** A bound on the turns of the loop below: every turn takes an entry
    off the heap or a record off the reader of an entry. *)
Definition merge_fuel (m : merge_state) : nat :=
  (length (heap m)
   + sum_list (map (fun i => length (default [] (fps m !! i))) (heap m)))%nat.

(** while (skHeapGetNumberEntries(heap) > 1) *)
Fixpoint merge_loop (fuel : nat) (m : merge_state) : result merge_state :=
  if (length (heap m) <=? 1)%nat then Done m
  else
    match fuel with
    | O => Timeout
    | S fuel' =>
      match skHeapPeekTop (recs m) (heap m) with
      | None => Fault BadIndex
      | Some lowest =>
        match recs m !! lowest, fps m !! lowest with
        | Some n, Some fp =>
          w ← write_node fp_intermediate n (wld m);
          nxt ← read_next decode fp;
          match nxt with
          | Some (n', fp') =>
              (* skHeapReplaceTop: the entry stays, its key changed *)
              merge_loop fuel'
                {| recs := <[lowest := n']> (recs m);
                   fps := <[lowest := fp']> (fps m);
                   heap := heap m; wld := w |}
          | None =>
              (* skHeapExtractTop *)
              merge_loop fuel'
                {| recs := recs m; fps := fps m;
                   heap := heap_remove lowest (heap m); wld := w |}
          end
        | _, _ => Fault BadIndex
        end
      end
    end.

(** do { write recs[lowest] } while (read into recs[lowest]) *)
Fixpoint drain_loop (fuel : nat) (n : node) (fp : list (read_outcome item))
    (w : world)
    : result world :=
  match fuel with
  | O => Timeout
  | S fuel' =>
    w' ← write_node fp_intermediate n w;
    nxt ← read_next decode fp;
    match nxt with
    | Some (n', fp') => drain_loop fuel' n' fp' w'
    | None => Done w'
    end
  end.

Definition drain (lowest : nat) (m : merge_state) : result world :=
  match recs m !! lowest, fps m !! lowest with
  | Some n, Some fp => drain_loop (S (length fp)) n fp (wld m)
  | _, _ => Fault BadIndex
  end.
End Merge.

Arguments recs {item} m.
Arguments fps {item} m.
Arguments heap {item} m.
Arguments wld {item} m.

(** ** mergeFiles *)

Record merge_files_state := {
  tmp_idx_a : Z;
  temp_file_idx : Z;
  mf_world : world
}.

(** What the opening loop of a pass leaves: the (possibly truncated)
    tmp_idx_b, and the arrays and heap filled so far; open_count is the
    number of slots. *)
Record opened := {
  tmp_idx_b : Z;
  op_recs : list node;
  op_fps : list (list (read_outcome node));
  op_heap : list nat
}.

Definition open_count (o : opened) : Z := Z.of_nat (length (op_recs o)).

(** "open_count = 0" before the opening loop, with the bound [b] the
    pass schedules. *)
Definition opened_none (b : Z) : opened :=
  {| tmp_idx_b := b; op_recs := []; op_fps := []; op_heap := [] |}.

(** errno == EMFILE || errno == ENOMEM *)
Definition no_resource (e : open_res) : bool :=
  match e with OpenNoResource => true | _ => false end.

(** for (j = tmp_idx_a; j <= tmp_idx_b; ++j), over the indices [js]
    still to visit. *)
Fixpoint open_loop (pass : nat) (t : tempctx) (js : list Z) (o : opened)
    : result opened :=
  match js with
  | [] => Done o
  | j :: js' =>
    match skTempFileOpen pass t j with
    | inr e =>
      if (0 <? open_count o) && no_resource e
      then (* tmp_idx_b = j - 1; break *)
        Done {| tmp_idx_b := j - 1; op_recs := op_recs o;
                op_fps := op_fps o; op_heap := op_heap o |}
      else Exit
    | inl fp =>
      (* read the first record *)
      match fp with
      | [] => (* feof: an empty temp file, continue *)
          open_loop pass t js' o
      | ReadError :: _ => (* "Error reading first record" *)
          Exit
      | Got n :: fp' =>
          open_loop pass t js'
            {| tmp_idx_b := tmp_idx_b o;
               op_recs := op_recs o ++ [n];
               op_fps := op_fps o ++ [fp'];
               op_heap := op_heap o ++ [length (op_recs o)] |}
      end
    end
  end.

Definition remove_range (t : tempctx) (a b : Z) : tempctx :=
  foldl skTempFileRemove t (seqZ a (b - a + 1)).

(** The last index a pass schedules. *)
Definition pass_bound (a idx : Z) : Z :=
  if idx - a <? MAX_MERGE_FILES L - 1 then idx
  else a + MAX_MERGE_FILES L - 1.

(** Everything a pass does after its readers are open. *)
Definition merge_opened (s : merge_files_state) (t : tempctx)
    (tmp_idx_intermediate : Z) (o : opened)
    : result (merge_files_state * bool) :=
  let no_more_temps := tmp_idx_b o =? temp_file_idx s in
  let fp_intermediate :=
    if no_more_temps then None else Some tmp_idx_intermediate in
  let idx' :=
    if no_more_temps then temp_file_idx s else tmp_idx_intermediate in
  let m0 := {| recs := op_recs o; fps := op_fps o; heap := op_heap o;
               wld := {| tmpctx := t;
                         out_rwios := out_rwios (mf_world s) |} |} in
  m ← merge_loop Done fp_intermediate (merge_fuel m0) m0;
  (* skHeapExtractTop(heap, &lowest), its status is not looked at *)
  match skHeapPeekTop (recs m) (heap m) with
  | None => Fault DrainEmptyHeap
  | Some lowest =>
    w ← drain Done fp_intermediate lowest m;
    (* the temp files of the pass are removed, the intermediate closed *)
    if fclose_intermediate fp_intermediate then
      Done ({| tmp_idx_a := tmp_idx_b o + 1;
               temp_file_idx := idx';
               mf_world :=
                 {| tmpctx := remove_range (tmpctx w) (tmp_idx_a s) (tmp_idx_b o);
                    out_rwios := out_rwios w |} |},
            no_more_temps)
    else Exit
  end.

(** One turn of the do-while loop of mergeFiles: the new state and
    no_more_temps. *)
Definition merge_pass (pass : nat) (s : merge_files_state)
    : result (merge_files_state * bool) :=
  let b := pass_bound (tmp_idx_a s) (temp_file_idx s) in
  match skTempFileCreate (tmpctx (mf_world s)) with
  | None => Exit
  | Some (t, tmp_idx_intermediate) =>
    o ← open_loop pass t (seqZ (tmp_idx_a s) (b - tmp_idx_a s + 1))
          (opened_none b);
    merge_opened s t tmp_idx_intermediate o
  end.

Fixpoint mergeFiles_loop (fuel : nat) (pass : nat) (s : merge_files_state)
    : result world :=
  match fuel with
  | O => Timeout
  | S fuel' =>
    '(s', no_more_temps) ← merge_pass pass s;
    if no_more_temps : bool then Done (mf_world s')
    else mergeFiles_loop fuel' (S pass) s'
  end.

Definition mergeFiles (fuel : nat) (temp_file_idx : Z) (w : world)
    : result world :=
  if env_heap_create env false then
    mergeFiles_loop fuel 0
      {| tmp_idx_a := 0; temp_file_idx := temp_file_idx; mf_world := w |}
  else Exit.

(** ** sortRandom *)

(** Modelled from the spec: appNextInput is defined in rwsortsetup.c.
    It opens the next input stream: 0 with the stream, 1 when no input
    is left, -1 on an error, -2 when memory or file handles ran out, in
    which case the same input is handed out again by a later call. *)
Definition appNextInput (pass i : nat) (inputs : list (list rwRec))
    : Z * option (list (read_outcome rwRec)) :=
  match inputs with
  | [] => (1, None)
  | rwios :: _ =>
    match env_input_open env pass i with
    | OpenOk => (0, Some (open_reader (env_input_read env i) 0 rwios))
    | OpenNoResource => (-2, None)
    | OpenError => (-1, None)
    end
  end.

Record random_state := {
  record_buffer : list node;  (* the records stored; record_count is
                                 their number *)
  cur_node : Z;               (* as a byte offset into record_buffer *)
  buffer_bytes : Z;           (* the size of the block allocated *)
  buffer_recs : Z;
  buffer_max_recs : Z;
  rnd_temp_file_idx : Z;
  rnd_tmpctx : tempctx
}.

Definition record_count (s : random_state) : Z :=
  Z.of_nat (length (record_buffer s)).

(** The for (;;) loop that allocates the initial chunk: the chunk size
    and the number of chunks it ends with. *)
Fixpoint alloc_chunk (fuel : nat) (max_recs num_chunks : Z)
    : result (Z * Z) :=
  match fuel with
  | O => Timeout
  | S fuel' =>
    if num_chunks =? 0 then Fault DivisionByZero
    else
      let buffer_chunk_recs := max_recs / num_chunks in
      if env_calloc env num_chunks buffer_chunk_recs
      then Done (buffer_chunk_recs, num_chunks)
      else if buffer_chunk_recs <? MIN_IN_CORE_RECORDS L then Exit
      else alloc_chunk fuel' max_recs (wrap_u32 (num_chunks + 1))
  end.

(** "add a chunk of records.  if we are near the max, set the size to
    the max": the new buffer_recs. *)
Definition grow_target (chunk recs max_recs : Z) : Z :=
  let recs' := wrap_u32 (recs + chunk) in
  if max_recs <? wrap_u32 (recs' + chunk) then max_recs else recs'.

(** The body of "if (buffer_recs < buffer_max_recs)". *)
Definition grow_buffer (chunk : Z) (s : random_state) : random_state :=
  let target := grow_target chunk (buffer_recs s) (buffer_max_recs s) in
  let bytes := wrap_u32 (node_size K * target) in
  if env_realloc env bytes
  then {| record_buffer := record_buffer s;
          cur_node := wrap_u32 (record_count s * node_size K);
          buffer_bytes := bytes;
          buffer_recs := target;
          buffer_max_recs := buffer_max_recs s;
          rnd_temp_file_idx := rnd_temp_file_idx s;
          rnd_tmpctx := rnd_tmpctx s |}
  else {| record_buffer := record_buffer s;
          cur_node := cur_node s;
          buffer_bytes := buffer_bytes s;
          buffer_recs := record_count s;
          buffer_max_recs := record_count s;
          rnd_temp_file_idx := rnd_temp_file_idx s;
          rnd_tmpctx := rnd_tmpctx s |}.

(** Sort the buffer, write it to a new temp file, reset the buffer. *)
Definition spill_buffer (s : random_state) : result random_state :=
  match skTempFileWriteBuffer (rnd_tmpctx s) (skQSort (record_buffer s)) with
  | None => Exit
  | Some (t, idx) =>
      Done {| record_buffer := [];
              cur_node := 0;
              buffer_bytes := buffer_bytes s;
              buffer_recs := buffer_recs s;
              buffer_max_recs := buffer_max_recs s;
              rnd_temp_file_idx := idx;
              rnd_tmpctx := t |}
  end.

(** One record read into cur_node: the rest of the while body. *)
Definition store_record (chunk : Z) (n : node) (s : random_state)
    : result random_state :=
  if negb ((cur_node s =? record_count s * node_size K)
           && (cur_node s + node_size K <=? buffer_bytes s))
  then Fault BufferOverrun
  else
    let s1 := {| record_buffer := record_buffer s ++ [n];
                 cur_node := cur_node s + node_size K;
                 buffer_bytes := buffer_bytes s;
                 buffer_recs := buffer_recs s;
                 buffer_max_recs := buffer_max_recs s;
                 rnd_temp_file_idx := rnd_temp_file_idx s;
                 rnd_tmpctx := rnd_tmpctx s |} in
    if record_count s1 =? buffer_recs s1 then
      let s2 := if buffer_recs s1 <? buffer_max_recs s1
                then grow_buffer chunk s1 else s1 in
      if record_count s2 =? buffer_max_recs s2 then spill_buffer s2
      else Done s2
    else Done s1.

(** The reads of one input, until fillRecordAndKey gives 0. *)
Fixpoint read_stream (chunk : Z) (rwios : list (read_outcome rwRec))
    (s : random_state) : result random_state :=
  match rwios with
  | Got r :: rwios' =>
    n ← fill_record r;
    s' ← store_record chunk n s;
    read_stream chunk rwios' s'
  | _ => Done s
  end.

(** The inputs one after the other; input [i] is the next to open. *)
Fixpoint read_inputs (chunk : Z) (i : nat) (inputs : list (list rwRec))
    (s : random_state) : result random_state :=
  match inputs with
  | [] => Done s
  | rwios :: inputs' =>
    match appNextInput 0 i inputs with
    | (_, Some input_rwios) =>
        s' ← read_stream chunk input_rwios s;
        read_inputs chunk (S i) inputs' s'
    | (_, None) => Exit
    end
  end.

(** The loop that writes the sorted batch to out_rwios. *)
Fixpoint write_batch (l : list node) (o : outstream) : result outstream :=
  match l with
  | [] => Done o
  | n :: l' => o' ← write_out (n_rec n) o; write_batch l' o'
  end.

(** sortRandom: the temp_file_idx it returns, and the world. *)
Definition sortRandom (fuel : nat) (w : world) : result (Z * world) :=
  let max_recs := wrap_u32 (sort_buffer_size K / node_size K) in
  let num_chunks :=
    if wrap_u32 (SORT_NUM_CHUNKS L) <=? 0 then 1
    else wrap_u32 (SORT_NUM_CHUNKS L) in
  '(chunk, _) ← alloc_chunk fuel max_recs num_chunks;
  s ← read_inputs chunk 0 (env_inputs env)
        {| record_buffer := [];
           cur_node := 0;
           buffer_bytes := chunk * node_size K;
           buffer_recs := chunk;
           buffer_max_recs := max_recs;
           rnd_temp_file_idx := -1;
           rnd_tmpctx := tmpctx w |};
  if 0 <? record_count s then
    if 0 <=? rnd_temp_file_idx s then
      (* Write last batch to temp file *)
      s' ← spill_buffer s;
      Done (rnd_temp_file_idx s',
            {| tmpctx := rnd_tmpctx s'; out_rwios := out_rwios w |})
    else
      (* No temp files written, just output batch of records *)
      o ← write_batch (skQSort (record_buffer s)) (out_rwios w);
      Done (rnd_temp_file_idx s,
            {| tmpctx := rnd_tmpctx s; out_rwios := o |})
  else
    Done (rnd_temp_file_idx s,
          {| tmpctx := rnd_tmpctx s; out_rwios := out_rwios w |}).

(** ** sortPresorted *)

Record presorted_state := {
  ps_next : nat;                     (* the index of the next input *)
  ps_inputs : list (list rwRec);     (* the inputs not yet opened *)
  ps_world : world
}.

(** for (open_count = 0; open_count < MAX_MERGE_FILES; ++open_count):
    rv, the streams opened, and the inputs left. *)
Fixpoint open_inputs (pass : nat) (n : nat) (i : nat)
    (inputs : list (list rwRec)) (rwios : list (list (read_outcome rwRec)))
    : Z * list (list (read_outcome rwRec)) * nat * list (list rwRec) :=
  match n with
  | O => (0, rwios, i, inputs)
  | S n' =>
    match appNextInput pass i inputs with
    | (_, Some s) => open_inputs pass n' (S i) (tail inputs) (rwios ++ [s])
    | (rv, None) => (rv, rwios, i, inputs)
    end
  end.

(** memset(recs, 0, sizeof(recs)) *)
Definition zero_rec : rwRec :=
  {| rwRecGetSIP := 0; rwRecGetDIP := 0; rwRecGetNhIP := 0;
     rwRecGetSPort := 0; rwRecGetDPort := 0; rwRecGetProto := 0;
     rwRecGetPkts := 0; rwRecGetBytes := 0; rwRecGetFlags := 0;
     rwRecGetStartTime := 0; rwRecGetElapsed := 0; rwRecGetSensor := 0;
     rwRecGetInput := 0; rwRecGetOutput := 0; rwRecGetInitFlags := 0;
     rwRecGetRestFlags := 0; rwRecGetTcpState := 0;
     rwRecGetApplication := 0; rwRecGetFlowType := 0;
     rwRecIsICMP := false; rwRecGetIcmpType := 0; rwRecGetIcmpCode := 0 |}.

Definition zero_node : node := {| n_rec := zero_rec; n_key := [] |}.

(** "Read the first record from each file into the work buffer": slot
    [i] enters the heap when its stream gave a record. *)
Fixpoint seed_heap (rwios : list (list (read_outcome rwRec)))
    (m : merge_state (item := rwRec)) : result merge_state :=
  match rwios with
  | [] => Done m
  | s :: rwios' =>
    r ← fillRecordAndKey s;
    match r with
    | Some (n, s') =>
        seed_heap rwios'
          {| recs := recs m ++ [n]; fps := fps m ++ [s'];
             heap := heap m ++ [length (recs m)]; wld := wld m |}
    | None =>
        seed_heap rwios'
          {| recs := recs m ++ [zero_node]; fps := fps m ++ [s];
             heap := heap m; wld := wld m |}
    end
  end.

(** One turn of the do-while loop of sortPresorted: the new state,
    temp_file_idx and no_more_inputs. *)
Definition presorted_pass (pass : nat) (s : presorted_state)
    : result (presorted_state * Z * bool) :=
  match skTempFileCreate (tmpctx (ps_world s)) with
  | None => Exit
  | Some (t, idx) =>
    let '(rv, rwios, i', inputs') :=
      open_inputs pass (Z.to_nat (MAX_MERGE_FILES L)) (ps_next s)
        (ps_inputs s) [] in
    let open_count := Z.of_nat (length rwios) in
    '(no_more_inputs, fp_intermediate, temp_file_idx) ←
      (if rv =? 1 then
         (* opened all (remaining) inputs *)
         if idx =? 0 then Done (true, None, -1)
         else Done (true, Some idx, idx)
       else if rv =? -1 then Exit
       else if rv =? -2 then Done (false, Some idx, idx)
       else if rv =? 0 then
         if open_count =? MAX_MERGE_FILES L then Done (false, Some idx, idx)
         else Exit
       else Exit);
    m0 ← seed_heap rwios
           {| recs := []; fps := []; heap := [];
              wld := {| tmpctx := t;
                        out_rwios := out_rwios (ps_world s) |} |};
    m ← merge_loop fill_record fp_intermediate (merge_fuel m0) m0;
    w ← match skHeapPeekTop (recs m) (heap m) with
        | Some lowest => drain fill_record fp_intermediate lowest m
        | None => Done (wld m)
        end;
    if fclose_intermediate fp_intermediate then
      Done ({| ps_next := i'; ps_inputs := inputs'; ps_world := w |},
            temp_file_idx, no_more_inputs)
    else Exit
  end.

Fixpoint sortPresorted_loop (fuel : nat) (pass : nat) (s : presorted_state)
    : result (Z * world) :=
  match fuel with
  | O => Timeout
  | S fuel' =>
    '(s', temp_file_idx, no_more_inputs) ← presorted_pass pass s;
    if no_more_inputs : bool then Done (temp_file_idx, ps_world s')
    else sortPresorted_loop fuel' (S pass) s'
  end.

Definition sortPresorted (fuel : nat) (w : world) : result (Z * world) :=
  if env_heap_create env true then
    sortPresorted_loop fuel 0
      {| ps_next := 0; ps_inputs := env_inputs env; ps_world := w |}
  else Exit.

(** ** main *)

(** The sort proper: what main does between appSetup and the closing of
    the output.  [fuel] bounds the loops whose length the environment
    decides (allocation retries, passes). *)
Definition rwsort_main (fuel : nat) : result world :=
  '(temp_idx, w) ←
    (if presorted_input K then sortPresorted fuel world_init
     else sortRandom fuel world_init);
  if 0 <=? temp_idx then mergeFiles fuel temp_idx w else Done w.

End Sorter.

Arguments recs {item} m.
Arguments fps {item} m.
Arguments heap {item} m.
Arguments wld {item} m.

(** ** Orders and what the theorems speak about *)

(** Nodes in sorted order: every node compares less than or equal to the
    next one. *)
Definition node_le (L : limits) (K : config) (a b : node) : Prop :=
  compare_nodes L K a b <= 0.

Definition sorted_nodes (L : limits) (K : config) (l : list node) : Prop :=
  Sorted (node_le L K) l.

(** The comparator of a configuration behaves as an order: it returns
    (no plug-in fails), the signs of compare(a,b) and compare(b,a) are
    opposite, and "less than or equal" is transitive. *)
Record comparator_ok (L : limits) (K : config) : Prop := {
  cmp_returns : forall a b, exists v, rwrecCompare L K a b = CRet v;
  cmp_antisym : forall a b, 0 <= compare_nodes L K a b ->
                            compare_nodes L K b a <= 0;
  cmp_trans : forall a b c, node_le L K a b -> node_le L K b c ->
                            node_le L K a c
}.

(** No field of the key takes the default case of rwrecCompare. *)
Definition builtin_field (f : field_id) : bool :=
  match f with FIELD_OTHER _ => false | _ => true end.

Definition builtin_only (K : config) : bool :=
  forallb builtin_field (sort_fields K).

(** The value rwrecCompare gives back turned around: what reverse does to
    every return. *)
Definition cmp_res_neg (r : cmp_res) : cmp_res :=
  match r with
  | CRet v => CRet (neg_int v)
  | CExit => CExit
  | CAssert => CAssert
  end.

(** ** Concrete records, configurations and environments *)

(** A record that is zero but for one field, the source port. *)
Definition rec_of (v : Z) : rwRec :=
  {| rwRecGetSIP := 0; rwRecGetDIP := 0; rwRecGetNhIP := 0;
     rwRecGetSPort := v; rwRecGetDPort := 0; rwRecGetProto := 0;
     rwRecGetPkts := 0; rwRecGetBytes := 0; rwRecGetFlags := 0;
     rwRecGetStartTime := 0; rwRecGetElapsed := 0; rwRecGetSensor := 0;
     rwRecGetInput := 0; rwRecGetOutput := 0; rwRecGetInitFlags := 0;
     rwRecGetRestFlags := 0; rwRecGetTcpState := 0;
     rwRecGetApplication := 0; rwRecGetFlowType := 0;
     rwRecIsICMP := false; rwRecGetIcmpType := 0; rwRecGetIcmpCode := 0 |}.

Definition node_of (v : Z) : node := {| n_rec := rec_of v; n_key := [] |}.

(** The end-to-end setting of the specification: nodes of 4 bytes, a
    budget of 32 bytes, at most 3 readers. *)
Definition small_limits : limits :=
  {| sizeof_rwRec := 4; SK_ENABLE_IPV6 := true; MAX_MERGE_FILES := 3;
     SORT_NUM_CHUNKS := 4; MIN_IN_CORE_RECORDS := 1 |}.

Definition sport_config (rev presorted : bool) : config :=
  {| sort_fields := [RWREC_FIELD_SPORT]; key_fields := [];
     reverse := rev; presorted_input := presorted;
     sort_buffer_size := 32; node_size := 4 |}.

(** An environment in which nothing fails. *)
Definition calm_env (inputs : list (list Z)) : environment :=
  {| env_inputs := map (map rec_of) inputs;
     env_input_open := fun _ _ => OpenOk;
     env_calloc := fun _ _ => true;
     env_realloc := fun _ => true;
     env_heap_create := fun _ => true;
     env_temp_create := fun _ => true;
     env_temp_fwrite := fun _ _ => true;
     env_temp_fclose := fun _ => true;
     env_temp_open := fun _ _ => OpenOk;
     env_temp_fread := fun _ _ => true;
     env_input_read := fun _ _ => true;
     env_write := fun _ _ => WriteOk |}.

(** A plug-in field whose comparator answers INT_MIN for every pair. *)
Definition int_min_plugin : skplugin_field :=
  {| pf_rec_to_bin := fun _ => (SKPLUGIN_OK, [0]);
     pf_bin_compare := fun _ _ => (SKPLUGIN_OK, INT_MIN) |}.

Definition int_min_config (rev : bool) : config :=
  {| sort_fields := [FIELD_OTHER 100];
     key_fields := [{| kf_field_handle := int_min_plugin; kf_offset := 4 |}];
     reverse := rev; presorted_input := false;
     sort_buffer_size := 32; node_size := 5 |}.

(** An environment whose first calloc (tried with four chunks) fails. *)
Definition tight_env : environment :=
  {| env_inputs := [];
     env_input_open := fun _ _ => OpenOk;
     env_calloc := fun num_chunks _ => negb (num_chunks =? 4);
     env_realloc := fun _ => false;
     env_heap_create := fun _ => true;
     env_temp_create := fun _ => true;
     env_temp_fwrite := fun _ _ => true;
     env_temp_fclose := fun _ => true;
     env_temp_open := fun _ _ => OpenOk;
     env_temp_fread := fun _ _ => true;
     env_input_read := fun _ _ => true;
     env_write := fun _ _ => WriteOk |}.

(** Limits with a floor of seven records in core. *)
Definition floor7_limits : limits :=
  {| sizeof_rwRec := 4; SK_ENABLE_IPV6 := true; MAX_MERGE_FILES := 3;
     SORT_NUM_CHUNKS := 4; MIN_IN_CORE_RECORDS := 7 |}.

(** A buffer of [n] records of 4 bytes, filled to its capacity, under a
    ceiling of [max_recs] records. *)
Definition full_buffer (n : nat) (max_recs : Z) : random_state :=
  {| record_buffer := replicate n (node_of 0);
     cur_node := 4 * Z.of_nat n;
     buffer_bytes := 4 * Z.of_nat n;
     buffer_recs := Z.of_nat n;
     buffer_max_recs := max_recs;
     rnd_temp_file_idx := -1;
     rnd_tmpctx := tempctx_empty |}.

(** ** What a merge has still to emit *)

(** The nodes written one after the other to the destination of a pass. *)
Fixpoint emit_all (env : environment) (fp_intermediate : option Z)
    (l : list node) (w : world) : result world :=
  match l with
  | [] => Done w
  | n :: l' =>
      w' ← write_node env fp_intermediate n w; emit_all env fp_intermediate l' w'
  end.

(** The items a stream gives before the read that finds its end, or
    fails. *)
Fixpoint delivered {item : Type} (fp : list (read_outcome item)) : list item :=
  match fp with
  | Got it :: fp' => it :: delivered fp'
  | _ => []
  end.

Section MergeSpec.
Context {item : Type}.
(** The node an item of a reader stands for. *)
Variable force : item -> node.

(** The run a slot still holds: its scratch node, then what its reader
    has still to give. *)
Definition slot_run (m : merge_state (item := item)) (i : nat) : list node :=
  match recs m !! i, fps m !! i with
  | Some n, Some fp => n :: map force (delivered fp)
  | _, _ => []
  end.

Definition pending (m : merge_state (item := item)) : list node :=
  concat (map (slot_run m) (heap m)).

(** The heap holds distinct slots, all of them filled. *)
Definition merge_wf (m : merge_state (item := item)) : Prop :=
  NoDup (heap m)
  /\ forall i, i ∈ heap m ->
       (i < length (recs m))%nat /\ (i < length (fps m))%nat.

Definition runs_sorted (L : limits) (K : config)
    (m : merge_state (item := item)) : Prop :=
  forall i, i ∈ heap m -> StronglySorted (node_le L K) (slot_run m i).
End MergeSpec.

(** The node fillRecordAndKey makes of a record (the record alone when a
    plug-in fails, which ends the run). *)
Definition node_of_record (L : limits) (K : config) (r : rwRec) : node :=
  match fill_record L K r with
  | Done n => n
  | _ => {| n_rec := r; n_key := [] |}
  end.

(** The records of the files [a], [a+1], ..., [a+n-1] of a temp file
    context, in this order. *)
Definition range_nodes (t : tempctx) (a : Z) (n : Z) : list node :=
  concat (map (fun j => default [] (tf_files t !! j)) (seqZ a n)).

(** The nodes the freads of temp file [j] give: those of the file up to
    its end, or up to the first fread that fails. *)
Definition file_read (env : environment) (t : tempctx) (j : Z) : list node :=
  delivered (open_reader (env_temp_fread env j) 0
               (default [] (tf_files t !! j))).

(** What is read of the files [a], [a+1], ..., [a+n-1], in this order. *)
Definition range_read (env : environment) (t : tempctx) (a : Z) (n : Z)
    : list node :=
  concat (map (file_read env t) (seqZ a n)).

(** The records the reads of an input give, the input being number [i],
    and those of the inputs that follow each other from number [i] on. *)
Definition input_read (env : environment) (i : nat) (s : list rwRec)
    : list rwRec :=
  delivered (open_reader (env_input_read env i) 0 s).

Fixpoint inputs_read (env : environment) (i : nat)
    (inputs : list (list rwRec)) : list rwRec :=
  match inputs with
  | [] => []
  | s :: inputs' => input_read env i s ++ inputs_read env (S i) inputs'
  end.

(** The streams appNextInput hands out for the inputs that follow each
    other from number [i] on. *)
Fixpoint input_readers (env : environment) (i : nat)
    (inputs : list (list rwRec)) : list (list (read_outcome rwRec)) :=
  match inputs with
  | [] => []
  | s :: inputs' =>
      open_reader (env_input_read env i) 0 s :: input_readers env (S i) inputs'
  end.

(** No fread of a temp file fails; no read of an input fails. *)
Definition temp_reads_ok (env : environment) : Prop :=
  forall j k, env_temp_fread env j k = true.

Definition input_reads_ok (env : environment) : Prop :=
  forall i k, env_input_read env i k = true.

(** The nodes of [l] whose write, the [k]-th and following, the output
    writer accepts, and those it does not. *)
Fixpoint accepted (env : environment) (k : nat) (l : list node) : list node :=
  match l with
  | [] => []
  | n :: l' =>
    match env_write env k (n_rec n) with
    | WriteOk => n :: accepted env (S k) l'
    | _ => accepted env (S k) l'
    end
  end.

Fixpoint rejected (env : environment) (k : nat) (l : list node) : list node :=
  match l with
  | [] => []
  | n :: l' =>
    match env_write env k (n_rec n) with
    | WriteOk => rejected env (S k) l'
    | _ => n :: rejected env (S k) l'
    end
  end.

(** The merge state a pass of mergeFiles starts from. *)
Definition opened_state (o : opened) (w : world) : merge_state :=
  {| recs := op_recs o; fps := op_fps o; heap := op_heap o; wld := w |}.

(** Opening temp file [j] gives a reader with a first record. *)
Definition opens_nonempty (env : environment) (pass : nat) (t : tempctx)
    (j : Z) : bool :=
  match skTempFileOpen env pass t j with
  | inl (Got _ :: _) => true
  | _ => false
  end.

(** The first fread of a reader does not fail: it gives a node or finds
    the end of the file. *)
Definition first_read_ok {item : Type} (fp : list (read_outcome item)) : bool :=
  match fp with
  | ReadError :: _ => false
  | _ => true
  end.

(** Presorted inputs, the first three of them empty, in an environment
    that runs out of file descriptors when mergeFiles opens temp file 1. *)
Definition emfile_env : environment :=
  {| env_inputs := [[]; []; []; [rec_of 1]];
     env_input_open := fun _ _ => OpenOk;
     env_calloc := fun _ _ => true;
     env_realloc := fun _ => true;
     env_heap_create := fun _ => true;
     env_temp_create := fun _ => true;
     env_temp_fwrite := fun _ _ => true;
     env_temp_fclose := fun _ => true;
     env_temp_open := fun _ j => if j =? 1 then OpenNoResource else OpenOk;
     env_temp_fread := fun _ _ => true;
     env_input_read := fun _ _ => true;
     env_write := fun _ _ => WriteOk |}.

(** The temp files sortPresorted leaves in that environment: file 0 is
    empty, file 1 holds one node; and the context once mergeFiles has
    created its intermediate file 2. *)
Definition emfile_tmpctx : tempctx :=
  {| tf_files := <[1 := [node_of 1]]> (<[0 := []]> ∅); tf_next := 2 |}.

Definition emfile_tmpctx_pass : tempctx :=
  {| tf_files := <[2 := []]> (tf_files emfile_tmpctx); tf_next := 3 |}.

(** Two temp files, [1; 3] and [2], as mergeFiles finds them after
    sortRandom spilled twice. *)
Definition two_runs : world :=
  {| tmpctx := {| tf_files := <[1 := [node_of 2]]>
                               (<[0 := [node_of 1; node_of 3]]> ∅);
                  tf_next := 2 |};
     out_rwios := {| out_recs := []; out_calls := 0 |} |}.

Definition two_runs_state : merge_files_state :=
  {| tmp_idx_a := 0; temp_file_idx := 1; mf_world := two_runs |}.

(** An environment that runs out of file descriptors when temp file 1 is
    opened during the first pass of mergeFiles. *)
Definition emfile_once_env : environment :=
  {| env_inputs := [];
     env_input_open := fun _ _ => OpenOk;
     env_calloc := fun _ _ => true;
     env_realloc := fun _ => true;
     env_heap_create := fun _ => true;
     env_temp_create := fun _ => true;
     env_temp_fwrite := fun _ _ => true;
     env_temp_fclose := fun _ => true;
     env_temp_open := fun pass j =>
       if (pass =? 0)%nat && (j =? 1) then OpenNoResource else OpenOk;
     env_temp_fread := fun _ _ => true;
     env_input_read := fun _ _ => true;
     env_write := fun _ _ => WriteOk |}.

(** Two empty temp files, as sortPresorted leaves them after two passes
    over empty inputs. *)
Definition two_empty_runs : world :=
  {| tmpctx := {| tf_files := <[1 := []]> (<[0 := []]> ∅); tf_next := 2 |};
     out_rwios := {| out_recs := []; out_calls := 0 |} |}.

(** The nodes of a stream of records, as fillRecordAndKey reads them. *)
Definition stream_nodes (L : limits) (K : config) (s : list rwRec)
    : list node :=
  map (node_of_record L K) s.

(** All the records rwsort is given. *)
Definition input_records (env : environment) : list rwRec :=
  concat (env_inputs env).

(** The records the reads of the inputs give: those of every input up to
    its end, or up to its first read that fails. *)
Definition records_read (env : environment) : list rwRec :=
  inputs_read env 0 (env_inputs env).

(** The output stream, as the nodes of its records. *)
Definition output_nodes (L : limits) (K : config) (w : world) : list node :=
  stream_nodes L K (out_recs (out_rwios w)).

Definition files_sorted (L : limits) (K : config) (t : tempctx) (a b : Z)
    : Prop :=
  forall j, a <= j <= b ->
    StronglySorted (node_le L K) (default [] (tf_files t !! j)).

(** What sortRandom and sortPresorted hand over to main: either
    temp_file_idx is -1 and the nodes [l] went to the output writer, or
    the temp files 0 .. temp_file_idx hold them and the output is
    untouched.  Under the premise [pre] (the comparator is an order, the
    presorted inputs are sorted) what was written is in order, or every
    temp file is a sorted run. *)
Definition handed_over (L : limits) (K : config) (env : environment)
    (out0 : outstream) (pre : Prop) (l : list node) (idx : Z) (w : world)
    : Prop :=
  (idx = -1
   /\ write_batch env l out0 = Done (out_rwios w)
   /\ (pre -> StronglySorted (node_le L K) l))
  \/ (0 <= idx
      /\ tf_next (tmpctx w) = idx + 1
      /\ range_nodes (tmpctx w) 0 (idx + 1) ≡ₚ l
      /\ out_rwios w = out0
      /\ (pre -> files_sorted L K (tmpctx w) 0 idx)).

(** The value a built-in sort field compares. *)
Definition field_value (f : field_id) (r : rwRec) : Z :=
  match f with
  | RWREC_FIELD_SIP => rwRecGetSIP r
  | RWREC_FIELD_DIP => rwRecGetDIP r
  | RWREC_FIELD_NHIP => rwRecGetNhIP r
  | RWREC_FIELD_SPORT => rwRecGetSPort r
  | RWREC_FIELD_DPORT => rwRecGetDPort r
  | RWREC_FIELD_PROTO => rwRecGetProto r
  | RWREC_FIELD_PKTS => rwRecGetPkts r
  | RWREC_FIELD_BYTES => rwRecGetBytes r
  | RWREC_FIELD_FLAGS => rwRecGetFlags r
  | RWREC_FIELD_STIME | RWREC_FIELD_STIME_MSEC => rwRecGetStartTime r
  | RWREC_FIELD_ELAPSED | RWREC_FIELD_ELAPSED_MSEC => rwRecGetElapsed r
  | RWREC_FIELD_ETIME | RWREC_FIELD_ETIME_MSEC => rwRecGetEndTime r
  | RWREC_FIELD_SID => rwRecGetSensor r
  | RWREC_FIELD_INPUT => rwRecGetInput r
  | RWREC_FIELD_OUTPUT => rwRecGetOutput r
  | RWREC_FIELD_INIT_FLAGS => rwRecGetInitFlags r
  | RWREC_FIELD_REST_FLAGS => rwRecGetRestFlags r
  | RWREC_FIELD_TCP_STATE => rwRecGetTcpState r
  | RWREC_FIELD_APPLICATION => rwRecGetApplication r
  | RWREC_FIELD_FTYPE_CLASS | RWREC_FIELD_FTYPE_TYPE => rwRecGetFlowType r
  | RWREC_FIELD_ICMP_TYPE => getIcmpType r
  | RWREC_FIELD_ICMP_CODE => getIcmpCode r
  | FIELD_OTHER _ => 0
  end.

(** A plug-in field whose comparator answers 1 for every pair. *)
Definition always_greater_plugin : skplugin_field :=
  {| pf_rec_to_bin := fun _ => (SKPLUGIN_OK, [0]);
     pf_bin_compare := fun _ _ => (SKPLUGIN_OK, 1) |}.

Definition always_greater_config : config :=
  {| sort_fields := [FIELD_OTHER 100];
     key_fields := [{| kf_field_handle := always_greater_plugin;
                       kf_offset := 4 |}];
     reverse := false; presorted_input := false;
     sort_buffer_size := 40; node_size := 5 |}.


(** An environment in which read number [k] of the first input fails. *)
Definition read_error_env (k : nat) (inputs : list (list Z)) : environment :=
  {| env_inputs := map (map rec_of) inputs;
     env_input_open := fun _ _ => OpenOk;
     env_calloc := fun _ _ => true;
     env_realloc := fun _ => true;
     env_heap_create := fun _ => true;
     env_temp_create := fun _ => true;
     env_temp_fwrite := fun _ _ => true;
     env_temp_fclose := fun _ => true;
     env_temp_open := fun _ _ => OpenOk;
     env_temp_fread := fun _ _ => true;
     env_input_read := fun i r => negb ((i =? 0)%nat && (r =? k)%nat);
     env_write := fun _ _ => WriteOk |}.

(** An environment in which fread number [k] on temp file 0 fails. *)
Definition fread_error_env (k : nat) : environment :=
  {| env_inputs := [];
     env_input_open := fun _ _ => OpenOk;
     env_calloc := fun _ _ => true;
     env_realloc := fun _ => true;
     env_heap_create := fun _ => true;
     env_temp_create := fun _ => true;
     env_temp_fwrite := fun _ _ => true;
     env_temp_fclose := fun _ => true;
     env_temp_open := fun _ _ => OpenOk;
     env_temp_fread := fun j r => negb ((j =? 0) && (r =? k)%nat);
     env_input_read := fun _ _ => true;
     env_write := fun _ _ => WriteOk |}.

(** ** Invariants *)

(** Slot [i] holds a node that is less than or equal to the node of slot
    [j]. *)
Definition slot_le (L : limits) (K : config) (recs : list node) (i j : nat)
    : Prop :=
  exists a b, recs !! i = Some a /\ recs !! j = Some b /\ node_le L K a b.

(** The heap is well formed and the two arrays have the same slots. *)
Definition slots_wf {item : Type} (m : merge_state (item := item)) : Prop :=
  merge_wf m /\ length (fps m) = length (recs m).

(** What the while loop of a pass started in [m] promises of its result
    [r]: it does not run out of fuel nor read a slot that was not filled;
    it leaves at most one entry in the heap; what it wrote, [l], and
    what is left make up what there was; and what it wrote is in order
    and below what is left when the runs are in order. *)
Definition merge_post (L : limits) (K : config) (env : environment)
    {item : Type} (force : item -> node) (fp_intermediate : option Z)
    (m : merge_state (item := item)) (r : result merge_state) : Prop :=
  match r with
  | Done m' =>
    exists l,
      emit_all env fp_intermediate l (wld m) = Done (wld m')
      /\ l ++ pending force m' ≡ₚ pending force m
      /\ merge_wf m' /\ (length (heap m') <= 1)%nat
      /\ (comparator_ok L K -> runs_sorted force L K m ->
            StronglySorted (node_le L K) l
            /\ (forall x y, x ∈ l -> y ∈ pending force m' -> node_le L K x y)
            /\ runs_sorted force L K m')
  | Exit => True
  | _ => False
  end.

(** sortRandom while it reads: the records read so far, [seen], are in
    the temp files written and in the buffer; the temp files are
    0 .. rnd_temp_file_idx, sorted runs each. *)
Definition random_inv (L : limits) (K : config) (s : random_state)
    (seen : list node) : Prop :=
  tf_next (rnd_tmpctx s) = rnd_temp_file_idx s + 1
  /\ -1 <= rnd_temp_file_idx s
  /\ range_nodes (rnd_tmpctx s) 0 (rnd_temp_file_idx s + 1)
     ++ record_buffer s ≡ₚ seen
  /\ (comparator_ok L K ->
      files_sorted L K (rnd_tmpctx s) 0 (rnd_temp_file_idx s)).

(** The int the loop of rwrecCompare returns. *)
Definition builtin_value (L : limits) (rev : bool) (fields : list field_id)
    (key : list key_field_t) (a b : node) : Z :=
  match rwrecCompare_from L rev fields key a b with
  | CRet v => v
  | _ => 0
  end.

(** ** Sort keys *)

(** The records of two nodes agree on the value a sort field compares. *)
Definition same_field (a b : node) (f : field_id) : Prop :=
  field_value f (n_rec a) = field_value f (n_rec b).

(** The fields rwrecCompare hands to skipaddrCompare when IPv6 is
    enabled: the addresses. *)
Definition address_field (f : field_id) : bool :=
  match f with
  | RWREC_FIELD_SIP | RWREC_FIELD_DIP | RWREC_FIELD_NHIP => true
  | _ => false
  end.

(** The entries of sort_fields[] that take the default case of
    rwrecCompare: each of them advances the cursor into key_fields[]. *)
Fixpoint plugin_field_count (fields : list field_id) : nat :=
  match fields with
  | [] => O
  | f :: fields' =>
      ((if builtin_field f then 0 else 1) + plugin_field_count fields')%nat
  end.

(** The field ids that share a case label of rwrecCompare's switch, each
    sent to the first label of its case. *)
Definition case_label (f : field_id) : field_id :=
  match f with
  | RWREC_FIELD_STIME_MSEC => RWREC_FIELD_STIME
  | RWREC_FIELD_ELAPSED_MSEC => RWREC_FIELD_ELAPSED
  | RWREC_FIELD_ETIME_MSEC => RWREC_FIELD_ETIME
  | RWREC_FIELD_FTYPE_TYPE => RWREC_FIELD_FTYPE_CLASS
  | f => f
  end.

(** A key of two built-in fields, the source port first, then the
    protocol. *)
Definition sport_proto_config (rev : bool) : config :=
  {| sort_fields := [RWREC_FIELD_SPORT; RWREC_FIELD_PROTO]; key_fields := [];
     reverse := rev; presorted_input := false;
     sort_buffer_size := 32; node_size := 4 |}.

(** A plug-in field that fails whenever it is run. *)
Definition failing_plugin : skplugin_field :=
  {| pf_rec_to_bin := fun _ => (1, []);
     pf_bin_compare := fun _ _ => (1, 0) |}.

(** The source port decides, then a plug-in field that always fails. *)
Definition sport_then_failing_config (rev : bool) : config :=
  {| sort_fields := [RWREC_FIELD_SPORT; FIELD_OTHER 100];
     key_fields := [{| kf_field_handle := failing_plugin; kf_offset := 4 |}];
     reverse := rev; presorted_input := false;
     sort_buffer_size := 40; node_size := 5 |}.

(** ** The layout of the plug-in keys *)

(** The bytes a plug-in field makes of a record. *)
Definition key_bytes (k : key_field_t) (r : rwRec) : list Z :=
  snd (pf_rec_to_bin (kf_field_handle k) r).

(** The keys of [r] follow each other in the node without overlap: every
    field starts at or after [from], the end of the field before it. *)
Fixpoint keys_laid_out (r : rwRec) (from : Z) (keys : list key_field_t)
    : Prop :=
  match keys with
  | [] => True
  | k :: keys' =>
      from <= kf_offset k
      /\ keys_laid_out r (kf_offset k + Z.of_nat (length (key_bytes k r)))
           keys'
  end.

(** A plug-in field of two bytes, the source port in network order. *)
Definition sport_plugin : skplugin_field :=
  {| pf_rec_to_bin := fun r =>
       (SKPLUGIN_OK, [rwRecGetSPort r / 256; rwRecGetSPort r mod 256]);
     pf_bin_compare := fun a b =>
       (SKPLUGIN_OK,
        match a, b with
        | a1 :: a2 :: _, b1 :: b2 :: _ => (a1 * 256 + a2) - (b1 * 256 + b2)
        | _, _ => 0
        end) |}.

(** A plug-in field of one byte, the protocol. *)
Definition proto_plugin : skplugin_field :=
  {| pf_rec_to_bin := fun r => (SKPLUGIN_OK, [rwRecGetProto r]);
     pf_bin_compare := fun a b =>
       (SKPLUGIN_OK,
        match a, b with
        | a1 :: _, b1 :: _ => a1 - b1
        | _, _ => 0
        end) |}.

(** Two plug-in keys behind a record of 4 bytes: the port at offset 4,
    the protocol at offset 6; a node has 7 bytes. *)
Definition two_keys_config : config :=
  {| sort_fields := [FIELD_OTHER 100; FIELD_OTHER 101];
     key_fields := [{| kf_field_handle := sport_plugin; kf_offset := 4 |};
                    {| kf_field_handle := proto_plugin; kf_offset := 6 |}];
     reverse := false; presorted_input := false;
     sort_buffer_size := 70; node_size := 7 |}.

(** ** Comparisons that stay within int *)

(** RETURN_SORT_ORDER never negates INT_MIN: reverse is off, or no
    comparison gives INT_MIN before it is reversed (none does over a key
    of built-in fields).  The negation of INT_MIN is a signed overflow,
    which the outcomes of the sorter do not record. *)
Definition negation_defined (L : limits) (K : config) : Prop :=
  reverse K = true ->
  forall a b,
    rwrecCompare_from L false (sort_fields K) (key_fields K) a b
    <> CRet INT_MIN.

(** ** Scheduled temp files *)

(** Every temp file with an index in a .. b holds a record. *)
Definition runs_nonempty (t : tempctx) (a b : Z) : Prop :=
  forall j, a <= j <= b -> exists n fp, tf_files t !! j = Some (n :: fp).

(** No temp file with an index in a .. b is empty (it holds a record or
    it does not exist). *)
Definition no_empty_run (t : tempctx) (a b : Z) : Prop :=
  forall j, a <= j <= b -> tf_files t !! j <> Some [].

(** No temp file lies outside the indices a .. b. *)
Definition files_within (t : tempctx) (a b : Z) : Prop :=
  forall j, j < a \/ b < j -> tf_files t !! j = None.

(** An environment with room for one reader beside the intermediate
    file: in every pass of mergeFiles the first open succeeds and the
    second one fails for lack of file descriptors or memory; creating,
    writing and closing temp files always works, and so does the first
    fread of a temp file. *)
Definition one_reader_env (env : environment) : Prop :=
  (forall p : nat, env_temp_open env p (Z.of_nat p) = OpenOk)
  /\ (forall p : nat, env_temp_open env p (Z.of_nat p + 1) = OpenNoResource)
  /\ (forall i, env_temp_create env i = true)
  /\ (forall i k, env_temp_fwrite env i k = true)
  /\ (forall i, env_temp_fclose env i = true)
  /\ env_heap_create env false = true
  /\ (forall j, env_temp_fread env j 0 = true).

Definition starved_env : environment :=
  {| env_inputs := [];
     env_input_open := fun _ _ => OpenOk;
     env_calloc := fun _ _ => true;
     env_realloc := fun _ => true;
     env_heap_create := fun _ => true;
     env_temp_create := fun _ => true;
     env_temp_fwrite := fun _ _ => true;
     env_temp_fclose := fun _ => true;
     env_temp_open := fun p j =>
       if j =? Z.of_nat p then OpenOk else OpenNoResource;
     env_temp_fread := fun _ _ => true;
     env_input_read := fun _ _ => true;
     env_write := fun _ _ => WriteOk |}.

(** ** Inputs that cannot be opened *)

(** An environment in which the first open of every pass of
    sortPresorted fails for lack of file descriptors or memory, while
    temp files can be created and closed. *)
Definition no_input_handle_env (env : environment) : Prop :=
  (forall p : nat, env_input_open env p 0%nat = OpenNoResource)
  /\ (forall i, env_temp_create env i = true)
  /\ (forall i, env_temp_fclose env i = true)
  /\ env_heap_create env true = true
  /\ env_inputs env <> [].

Definition blocked_env : environment :=
  {| env_inputs := [[rec_of 1]];
     env_input_open := fun _ _ => OpenNoResource;
     env_calloc := fun _ _ => true;
     env_realloc := fun _ => true;
     env_heap_create := fun _ => true;
     env_temp_create := fun _ => true;
     env_temp_fwrite := fun _ _ => true;
     env_temp_fclose := fun _ => true;
     env_temp_open := fun _ _ => OpenOk;
     env_temp_fread := fun _ _ => true;
     env_input_read := fun _ _ => true;
     env_write := fun _ _ => WriteOk |}.

(** ** The run buffer *)

(** sortRandom between two records: the buffer has room for the next
    record at cur_node, its size is buffer_recs nodes, and the sizes are
    such that no uint32_t computation of the growth wraps. *)
Definition buffer_ok (K : config) (chunk : Z) (s : random_state) : Prop :=
  0 < node_size K /\ 1 <= chunk
  /\ 0 <= record_count s < buffer_recs s
  /\ buffer_recs s <= buffer_max_recs s
  /\ (buffer_recs s + chunk <= buffer_max_recs s
      \/ buffer_recs s = buffer_max_recs s)
  /\ cur_node s = record_count s * node_size K
  /\ buffer_bytes s = buffer_recs s * node_size K
  /\ buffer_max_recs s * node_size K < 2 ^ 32
  /\ 2 * buffer_max_recs s < 2 ^ 32.

(** The setting in which the buffer arithmetic of sortRandom is exact: a
    node of at least two bytes, a buffer budget that fits 32 bits, a
    positive floor, and a calloc that gives NULL for a chunk of no
    record. *)
Definition budget_ok (L : limits) (K : config) (env : environment) : Prop :=
  2 <= node_size K
  /\ 0 <= sort_buffer_size K < 2 ^ 32
  /\ 0 < MIN_IN_CORE_RECORDS L
  /\ forall g, env_calloc env g 0 = false.

(** num_chunks as sortRandom starts with it. *)
Definition initial_chunks (L : limits) : Z :=
  if wrap_u32 (SORT_NUM_CHUNKS L) <=? 0 then 1
  else wrap_u32 (SORT_NUM_CHUNKS L).

(** An environment in which nothing fails but the calloc of a chunk of no
    record, which gives NULL. *)
Definition plain_env (inputs : list (list Z)) : environment :=
  {| env_inputs := map (map rec_of) inputs;
     env_input_open := fun _ _ => OpenOk;
     env_calloc := fun _ chunk => negb (chunk =? 0);
     env_realloc := fun _ => true;
     env_heap_create := fun _ => true;
     env_temp_create := fun _ => true;
     env_temp_fwrite := fun _ _ => true;
     env_temp_fclose := fun _ => true;
     env_temp_open := fun _ _ => OpenOk;
     env_temp_fread := fun _ _ => true;
     env_input_read := fun _ _ => true;
     env_write := fun _ _ => WriteOk |}.

(** A budget of 8 bytes for nodes of 4 bytes and four chunks: the chunk
    is of no record. *)
Definition tiny_budget_config : config :=
  {| sort_fields := [RWREC_FIELD_SPORT]; key_fields := [];
     reverse := false; presorted_input := false;
     sort_buffer_size := 8; node_size := 4 |}.

(** * uniq-distproto: the number of distinct protocols per key

    A shallow embedding of [src/plugins/uniq-distproto.c], the plug-in
    that gives rwuniq the aggregate field proto-distinct.  The binary
    value of the field is a bitmap of 256 bits, one per protocol, held in
    32 bytes; a byte is a [Z] below 256. *)

(** Number of uint8_t's for a bitmap of protocols. *)
Definition BITMAP_SIZE : nat := 32.

(** Width of the text field. *)
Definition FIELD_WIDTH : nat := 3.

Definition BitsSetTable256 : list Z :=
  [0; 1; 1; 2; 1; 2; 2; 3; 1; 2; 2; 3; 2; 3; 3; 4;
   1; 2; 2; 3; 2; 3; 3; 4; 2; 3; 3; 4; 3; 4; 4; 5;
   1; 2; 2; 3; 2; 3; 3; 4; 2; 3; 3; 4; 3; 4; 4; 5;
   2; 3; 3; 4; 3; 4; 4; 5; 3; 4; 4; 5; 4; 5; 5; 6;
   1; 2; 2; 3; 2; 3; 3; 4; 2; 3; 3; 4; 3; 4; 4; 5;
   2; 3; 3; 4; 3; 4; 4; 5; 3; 4; 4; 5; 4; 5; 5; 6;
   2; 3; 3; 4; 3; 4; 4; 5; 3; 4; 4; 5; 4; 5; 5; 6;
   3; 4; 4; 5; 4; 5; 5; 6; 4; 5; 5; 6; 5; 6; 6; 7;
   1; 2; 2; 3; 2; 3; 3; 4; 2; 3; 3; 4; 3; 4; 4; 5;
   2; 3; 3; 4; 3; 4; 4; 5; 3; 4; 4; 5; 4; 5; 5; 6;
   2; 3; 3; 4; 3; 4; 4; 5; 3; 4; 4; 5; 4; 5; 5; 6;
   3; 4; 4; 5; 4; 5; 5; 6; 4; 5; 5; 6; 5; 6; 6; 7;
   2; 3; 3; 4; 3; 4; 4; 5; 3; 4; 4; 5; 4; 5; 5; 6;
   3; 4; 4; 5; 4; 5; 5; 6; 4; 5; 5; 6; 5; 6; 6; 7;
   3; 4; 4; 5; 4; 5; 5; 6; 4; 5; 5; 6; 5; 6; 6; 7;
   4; 5; 5; 6; 5; 6; 6; 7; 5; 6; 6; 7; 6; 7; 7; 8].

(** BitsSetTable256[b], for a byte b. *)
Definition bits_set (b : Z) : Z :=
  default 0 (BitsSetTable256 !! Z.to_nat b).

(** bin[i], for an index inside the bitmap. *)
Definition byte_at (bin : list Z) (i : nat) : Z := default 0 (bin !! i).

(** memset(&init_value, 0, sizeof(init_value)): the value a key starts
    with. *)
Definition init_value : list Z := replicate BITMAP_SIZE 0.

(** recAddToMap: map_value[proto >> 3] |= 1 << (proto & 0x7), with proto
    the uint8_t protocol of the record; the status and the bitmap. *)
Definition recAddToMap (rwrec : rwRec) (map_value : list Z) : Z * list Z :=
  let proto := rwRecGetProto rwrec mod 256 in
  let i := Z.to_nat (Z.shiftr proto 3) in
  (SKPLUGIN_OK,
   <[i := (Z.lor (byte_at map_value i) (Z.shiftl 1 (Z.land proto 7)))
          mod 256]> map_value).

(** The loop of mapToText: c, the sum of the table entries of the 32
    bytes. *)
Definition count_bits (bin_value : list Z) : Z :=
  foldl (fun c i => wrap_int (c + bits_set (byte_at bin_value i))) 0
    (seq 0 BITMAP_SIZE).

(** printf's "%3d": the decimal number, padded with spaces on the left
    to a width of three. *)
Fixpoint spaces (n : nat) : string :=
  match n with
  | O => EmptyString
  | S n' => String (Ascii.ascii_of_nat 32) (spaces n')
  end.

Definition format_3d (c : Z) : string :=
  let digits := pretty c in
  (spaces (3 - String.length digits) +:+ digits)%string.

Fixpoint string_take (n : nat) (s : string) : string :=
  match n, s with
  | S n', String a s' => String a (string_take n' s')
  | _, _ => EmptyString
  end.

(** snprintf(text_value, text_size, ...): at most text_size - 1
    characters are stored, and nothing at all when text_size is 0. *)
Definition snprintf (text_size : nat) (s : string) : option string :=
  match text_size with
  | O => None
  | S n => Some (string_take n s)
  end.

(** mapToText: the status and what is stored in text_value. *)
Definition mapToText (bin_value : list Z) (text_size : nat)
    : Z * option string :=
  (SKPLUGIN_OK, snprintf text_size (format_3d (count_bits bin_value))).

(** The loop of mergeMaps: dst_bin[i] |= src_bin[i] for every byte of
    the bitmap. *)
Definition or_bytes (dst_bin src_bin : list Z) : list Z :=
  foldl (fun dst i =>
           <[i := (Z.lor (byte_at dst i) (byte_at src_bin i)) mod 256]> dst)
    dst_bin (seq 0 BITMAP_SIZE).

(** mergeMaps: the status and dst_bin. *)
Definition mergeMaps (dst_bin src_bin : list Z) : Z * list Z :=
  (SKPLUGIN_OK, or_bytes dst_bin src_bin).

(** The loop of compareMaps: *cmp, the sum over the bytes of the
    differences of the table entries. *)
Definition diff_bits (bin_a bin_b : list Z) : Z :=
  foldl (fun cmp i =>
           wrap_int (cmp + (bits_set (byte_at bin_a i)
                            - bits_set (byte_at bin_b i))))
    0 (seq 0 BITMAP_SIZE).

(** compareMaps: the status and *cmp. *)
Definition compareMaps (bin_a bin_b : list Z) : Z * Z :=
  (SKPLUGIN_OK, diff_bits bin_a bin_b).

(** ** What the bitmap stands for *)

(** The number of bits set in a byte. *)
Definition popcount8 (b : Z) : Z :=
  foldr (fun k acc => Z.b2z (Z.testbit b (Z.of_nat k)) + acc) 0 (seq 0 8).

(** A well-formed binary value: 32 bytes. *)
Definition bitmap_wf (bin : list Z) : Prop :=
  length bin = BITMAP_SIZE /\ Forall (fun b => 0 <= b < 256) bin.

(** Protocol [p] is in the bitmap. *)
Definition has_proto (bin : list Z) (p : Z) : bool :=
  Z.testbit (byte_at bin (Z.to_nat (p / 8))) (p mod 8).

(** The protocol of a record, as the uint8_t recAddToMap reads. *)
Definition proto_of (r : rwRec) : Z := rwRecGetProto r mod 256.

(** The sum of [f] over the indices [l]. *)
Definition sum_over (f : nat -> Z) (l : list nat) : Z :=
  foldr (fun i acc => f i + acc) 0 l.

(** The bitmap of a group of records: each added in turn to the initial
    value. *)
Definition bitmap_of (recs : list rwRec) : list Z :=
  foldl (fun m r => snd (recAddToMap r m)) init_value recs.

(** A record that is zero but for its protocol. *)
Definition rec_of_proto (p : Z) : rwRec :=
  {| rwRecGetSIP := 0; rwRecGetDIP := 0; rwRecGetNhIP := 0;
     rwRecGetSPort := 0; rwRecGetDPort := 0; rwRecGetProto := p;
     rwRecGetPkts := 0; rwRecGetBytes := 0; rwRecGetFlags := 0;
     rwRecGetStartTime := 0; rwRecGetElapsed := 0; rwRecGetSensor := 0;
     rwRecGetInput := 0; rwRecGetOutput := 0; rwRecGetInitFlags := 0;
     rwRecGetRestFlags := 0; rwRecGetTcpState := 0;
     rwRecGetApplication := 0; rwRecGetFlowType := 0;
     rwRecIsICMP := false; rwRecGetIcmpType := 0; rwRecGetIcmpCode := 0 |}.

(** * options-parse-test: the handlers of the options test program

    A shallow embedding of [src/libsilk/options-parse-test.c]: the two
    option tables, the usage functions and the option handlers.  What a
    handler prints is the string it returns; [REQUIRED_ARG] and [NO_ARG],
    constants of utils.h, are parameters. *)

Record struct_option := {
  opt_name : option string;     (* None for the NULL name of the last entry *)
  opt_has_arg : Z;
  opt_flag : Z;
  opt_val : Z
}.

(** What a call of a handler does. *)
Inductive handler_result :=
| HInvalid (err : string)       (* "invalid index" on stderr, returns 1 *)
| HUsage (out : string)         (* the usage on stdout, returns 0 *)
| HReport (err : string)        (* the option on stderr, returns 0 *)
| HBadRead.                     (* reads past the table, or prints a NULL
                                   name with %s *)

Definition newline : string := String (Ascii.ascii_of_nat 10) EmptyString.

Section OptionsTest.
Variable REQUIRED_ARG : Z.
Variable NO_ARG : Z.

Definition filter_options : list struct_option :=
  [ {| opt_name := Some "stime"; opt_has_arg := REQUIRED_ARG;
       opt_flag := 0; opt_val := 0 |};
    {| opt_name := Some "etime"; opt_has_arg := REQUIRED_ARG;
       opt_flag := 0; opt_val := 1 |};
    {| opt_name := Some "duration"; opt_has_arg := REQUIRED_ARG;
       opt_flag := 0; opt_val := 2 |};
    {| opt_name := Some "sport"; opt_has_arg := REQUIRED_ARG;
       opt_flag := 0; opt_val := 3 |};
    {| opt_name := Some "dport"; opt_has_arg := REQUIRED_ARG;
       opt_flag := 0; opt_val := 4 |};
    {| opt_name := Some "protocol"; opt_has_arg := REQUIRED_ARG;
       opt_flag := 0; opt_val := 5 |};
    {| opt_name := Some "bytes"; opt_has_arg := REQUIRED_ARG;
       opt_flag := 0; opt_val := 6 |};
    {| opt_name := Some "pkts"; opt_has_arg := REQUIRED_ARG;
       opt_flag := 0; opt_val := 7 |};
    {| opt_name := Some "flows"; opt_has_arg := REQUIRED_ARG;
       opt_flag := 0; opt_val := 8 |};
    {| opt_name := Some "saddress"; opt_has_arg := REQUIRED_ARG;
       opt_flag := 0; opt_val := 9 |};
    {| opt_name := Some "daddress"; opt_has_arg := REQUIRED_ARG;
       opt_flag := 0; opt_val := 10 |};
    {| opt_name := Some "bytes_per_packet"; opt_has_arg := REQUIRED_ARG;
       opt_flag := 0; opt_val := 13 |};
    {| opt_name := Some "pkts_per_flow"; opt_has_arg := REQUIRED_ARG;
       opt_flag := 0; opt_val := 14 |};
    {| opt_name := Some "bytes_per_flow"; opt_has_arg := REQUIRED_ARG;
       opt_flag := 0; opt_val := 15 |};
    {| opt_name := Some "not-saddress"; opt_has_arg := REQUIRED_ARG;
       opt_flag := 0; opt_val := 16 |};
    {| opt_name := Some "not-daddress"; opt_has_arg := REQUIRED_ARG;
       opt_flag := 0; opt_val := 17 |};
    {| opt_name := None; opt_has_arg := 0; opt_flag := 0; opt_val := 0 |} ].

Definition fglob_options : list struct_option :=
  [ {| opt_name := Some "start-date"; opt_has_arg := REQUIRED_ARG;
       opt_flag := 0; opt_val := 1 |};
    {| opt_name := Some "end-date"; opt_has_arg := REQUIRED_ARG;
       opt_flag := 0; opt_val := 2 |};
    {| opt_name := Some "tcpdump"; opt_has_arg := NO_ARG;
       opt_flag := 0; opt_val := 3 |};
    {| opt_name := Some "glob"; opt_has_arg := REQUIRED_ARG;
       opt_flag := 0; opt_val := 4 |};
    {| opt_name := None; opt_has_arg := 0; opt_flag := 0; opt_val := 0 |} ].

(** has_arg == 0 ? "No Arg" : (has_arg == 1 ? "Required Arg"
    : "Optional Arg") *)
Definition arg_kind (has_arg : Z) : string :=
  if has_arg =? 0 then "No Arg"
  else if has_arg =? 1 then "Required Arg" else "Optional Arg".

(** One line of a usage: "--%s %s\n". *)
Definition usage_line (o : struct_option) : string :=
  ("--" +:+ default "(null)" (opt_name o) +:+ " "
   +:+ arg_kind (opt_has_arg o) +:+ newline)%string.

(** The loop of a usage function, over all entries but the last. *)
Definition usage (title : string) (table : list struct_option) : string :=
  foldl (fun out o => (out +:+ usage_line o)%string)
    (title +:+ newline)%string (take (length table - 1) table).

Definition filterUsage : string := usage "Filter Options:" filter_options.
Definition fglobUsage : string := usage "Fglob Options:" fglob_options.

(** table[index], for an int index: [None] outside the table. *)
Definition entry_at (table : list struct_option) (index : Z)
    : option struct_option :=
  if index <? 0 then None else table !! Z.to_nat index.

(** "handler: %s %s %s\n" of the entry read, its kind of argument and
    the argument (NULL is printed as "NULL"). *)
Definition report (who : string) (e : option struct_option)
    (opt_arg : option string) : handler_result :=
  match e with
  | Some {| opt_name := Some name; opt_has_arg := has_arg |} =>
      HReport (who +:+ ": " +:+ name +:+ " " +:+ arg_kind has_arg +:+ " "
               +:+ default "NULL" opt_arg +:+ newline)%string
  | _ => HBadRead
  end.

Definition filterHandler (opt_index : Z) (opt_arg : option string)
    : handler_result :=
  let optionCount := Z.of_nat (length filter_options) - 1 in
  if (opt_index <? 0) || (optionCount <? opt_index) then
    HInvalid ("filterHandler: invalid index " +:+ pretty opt_index
              +:+ newline)%string
  else if opt_index =? 18 then HUsage filterUsage
  else report "filterHandler" (entry_at filter_options opt_index) opt_arg.

Definition fglobHandler (opt_index : Z) (opt_arg : option string)
    : handler_result :=
  let optionCount := Z.of_nat (length fglob_options) - 1 in
  if (opt_index <? 0) || (optionCount <? opt_index) then
    HInvalid ("fglobHandler: invalid index " +:+ pretty opt_index
              +:+ newline)%string
  else if opt_index =? 5 then HUsage fglobUsage
  else report "fglobHandler" (entry_at fglob_options (opt_index - 1))
         opt_arg.
End OptionsTest.

(** The entry a report names. *)
Definition names_option (r : handler_result) (who : string)
    (o : struct_option) (opt_arg : option string) : Prop :=
  r = report who (Some o) opt_arg /\ is_Some (opt_name o).

(** * Properties *)

Lemma bind_Done {A B} (m : result A) (f : A -> result B) (b : B) :
  m ≫= f = Done b -> exists a, m = Done a /\ f a = Done b.
Proof. destruct m; simpl; intros H; try discriminate. eauto. Qed.

Ltac inv_bind H :=
  let x := fresh "x" in
  let Hx := fresh "Hx" in
  apply bind_Done in H; destruct H as (x & Hx & H).

(** ** The comparator *)

Lemma wrap_int_id z : in_int z -> wrap_int z = z.
Proof.
  unfold in_int, INT_MIN, INT_MAX, wrap_int. intros Hz.
  rewrite Z.mod_small; lia.
Qed.

Lemma wrap_int_range z : in_int (wrap_int z).
Proof.
  unfold in_int, INT_MIN, INT_MAX, wrap_int.
  pose proof (Z.mod_pos_bound (z + 2 ^ 31) (2 ^ 32) ltac:(lia)). lia.
Qed.

Lemma neg_int_exact v : in_int v -> v <> INT_MIN -> neg_int v = - v.
Proof.
  unfold neg_int. intros Hv Hne. apply wrap_int_id.
  unfold in_int, INT_MIN, INT_MAX in *. lia.
Qed.

Lemma neg_int_0 : neg_int 0 = 0.
Proof. reflexivity. Qed.

Section ComparatorFacts.
Variable L : limits.

Lemma RETURN_IF_SORTED_reverse func a b next next' :
  next' = cmp_res_neg next ->
  RETURN_IF_SORTED true func a b next'
  = cmp_res_neg (RETURN_IF_SORTED false func a b next).
Proof.
  intros ->. unfold RETURN_IF_SORTED, RETURN_SORT_ORDER.
  repeat case_match; reflexivity.
Qed.

Lemma compare_ip_reverse func a b next next' :
  next' = cmp_res_neg next ->
  compare_ip L true func a b next'
  = cmp_res_neg (compare_ip L false func a b next).
Proof.
  intros Hn. unfold compare_ip. destruct (SK_ENABLE_IPV6 L).
  - subst. unfold RETURN_IF_SORTED_IPS, RETURN_SORT_ORDER.
    repeat case_match; reflexivity.
  - by apply RETURN_IF_SORTED_reverse.
Qed.

(** With reverse set, rwrecCompare gives the C negation of what it gives
    without, field by field and with the same plug-in cursor. *)
Lemma rwrecCompare_from_reverse fields : forall key a b,
  rwrecCompare_from L true fields key a b
  = cmp_res_neg (rwrecCompare_from L false fields key a b).
Proof.
  induction fields as [|f fields IH]; intros key a b; [reflexivity|].
  destruct f; simpl;
    try (apply RETURN_IF_SORTED_reverse; apply IH);
    try (apply compare_ip_reverse; apply IH).
  destruct key as [|k key]; [reflexivity|].
  destruct (pf_bin_compare _ _ _) as [err rv].
  destruct (negb (err =? SKPLUGIN_OK)); [reflexivity|].
  destruct (negb (wrap_int rv =? 0)); [reflexivity|]. apply IH.
Qed.

(** What rwrecCompare returns fits an int. *)
Lemma rwrecCompare_from_in_int rev fields : forall key a b v,
  rwrecCompare_from L rev fields key a b = CRet v -> in_int v.
Proof.
  assert (Hsort : forall func a b next v,
    (next = CRet v -> in_int v) ->
    RETURN_IF_SORTED rev func a b next = CRet v -> in_int v).
  { intros func a b next v Hn. unfold RETURN_IF_SORTED, RETURN_SORT_ORDER.
    repeat case_match; intros Hr; try (by apply Hn);
      inversion Hr; subst; vm_compute; split; discriminate. }
  assert (Hip : forall func a b next v,
    (next = CRet v -> in_int v) ->
    compare_ip L rev func a b next = CRet v -> in_int v).
  { intros func a b next v Hn. unfold compare_ip.
    destruct (SK_ENABLE_IPV6 L); [|by apply Hsort].
    unfold RETURN_IF_SORTED_IPS, RETURN_SORT_ORDER, skipaddrCompare.
    repeat case_match; intros Hr; try (by apply Hn);
      inversion Hr; subst; vm_compute; split; discriminate. }
  induction fields as [|f fields IH]; intros key a b v.
  - simpl. intros [= <-]. vm_compute. split; discriminate.
  - destruct f; simpl;
      try (apply Hsort; apply IH); try (apply Hip; apply IH).
    destruct key as [|k key]; [discriminate|].
    destruct (pf_bin_compare _ _ _) as [err rv].
    destruct (negb (err =? SKPLUGIN_OK)); [discriminate|].
    destruct (negb (wrap_int rv =? 0)); [|apply IH].
    unfold RETURN_SORT_ORDER. intros [= <-].
    destruct rev; [apply wrap_int_range|apply wrap_int_range].
Qed.
End ComparatorFacts.

(** The reversed comparator returns the exact negation whenever the
    forward value is not INT_MIN; equal pairs are the same under both
    flags. *)
Lemma rwrecCompare_reverse_exact L K K' a b v :
  sort_fields K' = sort_fields K -> key_fields K' = key_fields K ->
  reverse K = false -> reverse K' = true ->
  rwrecCompare L K a b = CRet v -> v <> INT_MIN ->
  rwrecCompare L K' a b = CRet (- v).
Proof.
  unfold rwrecCompare. intros -> -> -> -> Hv Hne.
  rewrite rwrecCompare_from_reverse, Hv. simpl.
  rewrite neg_int_exact; eauto using rwrecCompare_from_in_int.
Qed.

(** C9: for a pair of nodes whose plug-in comparison gives INT_MIN, the
    comparator returns INT_MIN with reverse unset and INT_MIN again with
    reverse set: the value with reverse is not the negation of the value
    without, and both are negative. *)
Theorem C9_reverse_at_int_min :
  rwrecCompare small_limits (int_min_config false) (node_of 1) (node_of 2)
    = CRet INT_MIN
  /\ rwrecCompare small_limits (int_min_config true) (node_of 1) (node_of 2)
    = CRet INT_MIN
  /\ INT_MIN <> - INT_MIN.
Proof. repeat split; vm_compute; congruence. Qed.

(** ** The run buffer *)

Lemma wrap_u32_id z : 0 <= z <= UINT32_MAX -> wrap_u32 z = z.
Proof. unfold wrap_u32, UINT32_MAX. intros. apply Z.mod_small. lia. Qed.

(** C4, as the specification states it, fails: with a ceiling of 11
    records in 4 chunks (a chunk of 2), a buffer that fills at 8 records
    is grown to 11 records, not to min(8 + 2, 11) = 10. *)
Lemma C4_next_capacity_is_not_min :
  buffer_recs (grow_buffer (sport_config false false) (calm_env [])
                 (11 / 4) (full_buffer 8 11)) = 11
  /\ Z.min (8 + 11 / 4) 11 = 10.
Proof. split; reflexivity. Qed.

(** C4, amended: a buffer that fills at C records, below the ceiling,
    asks realloc for C + chunk records when C + 2 * chunk is within the
    ceiling and for the ceiling otherwise; when realloc fails, the ceiling
    and the capacity become the record count C and the records stay in
    the old block. *)
Theorem C4_buffer_growth K env chunk (s : random_state) :
  0 <= chunk -> 0 <= buffer_recs s ->
  buffer_recs s + 2 * chunk <= UINT32_MAX ->
  record_count s = buffer_recs s ->
  buffer_recs s < buffer_max_recs s ->
  let C := buffer_recs s in
  let target :=
    if buffer_max_recs s <? C + 2 * chunk then buffer_max_recs s
    else C + chunk in
  let s' := grow_buffer K env chunk s in
  grow_target chunk C (buffer_max_recs s) = target
  /\ record_buffer s' = record_buffer s
  /\ (env_realloc env (wrap_u32 (node_size K * target)) = true ->
        buffer_recs s' = target
        /\ buffer_max_recs s' = buffer_max_recs s
        /\ buffer_bytes s' = wrap_u32 (node_size K * target))
  /\ (env_realloc env (wrap_u32 (node_size K * target)) = false ->
        buffer_max_recs s' = C /\ buffer_recs s' = C
        /\ buffer_bytes s' = buffer_bytes s).
Proof.
  intros Hchunk HC Hwrap Hfull Hlt C target s'.
  assert (Htarget : grow_target chunk C (buffer_max_recs s) = target).
  { unfold grow_target, target, C.
    rewrite (wrap_u32_id (buffer_recs s + chunk)) by (unfold UINT32_MAX in *; lia).
    rewrite wrap_u32_id by (unfold UINT32_MAX in *; lia).
    replace (buffer_recs s + chunk + chunk) with (buffer_recs s + 2 * chunk)
      by lia.
    reflexivity. }
  split; [exact Htarget|].
  subst s'. unfold grow_buffer. fold C. rewrite Htarget.
  destruct (env_realloc env (wrap_u32 (node_size K * target))); simpl.
  - split; [reflexivity|]. split; [auto|]. intros [=].
  - split; [reflexivity|]. split; [intros [=]|]. intros _. rewrite Hfull. auto.
Qed.

Lemma C4_buffer_growth_witness :
  let s := full_buffer 8 11 in
  grow_target (11 / 4) 8 11 = 11
  /\ record_buffer (grow_buffer (sport_config false false) tight_env 2 s)
     = record_buffer s.
Proof.
  intros s.
  pose proof (C4_buffer_growth (sport_config false false) tight_env 2 s
                ltac:(lia) ltac:(simpl; lia) ltac:(vm_compute; discriminate)
                ltac:(reflexivity) ltac:(simpl; lia)) as H.
  simpl in H. destruct H as (H1 & H2 & _). split; [exact H1|exact H2].
Defined.

(** C5, as the specification states it, fails twice over.  After a
    failed calloc with 4 chunks the next attempt uses 5 chunks, not 8;
    and with a floor of 7 records that attempt asks for a chunk of
    32 / 5 = 6 records, below the floor, and goes on with it. *)
Lemma C5_divisor_is_not_doubled :
  alloc_chunk floor7_limits tight_env 2 32 4 = Done (6, 5)
  /\ 5 <> 2 * 4
  /\ 6 < MIN_IN_CORE_RECORDS floor7_limits.
Proof. repeat split; try reflexivity. discriminate. Qed.

(** C5, amended: the initial allocation is tried with G0, G0 + 1,
    G0 + 2, ... chunks, a chunk of max / G records each time.  It stops
    at the first G whose calloc succeeds, or exits at the first failed
    calloc whose chunk is below MIN_IN_CORE_RECORDS; every attempt before
    failed with a chunk at or above the floor. *)
Theorem C5_initial_allocation L env fuel max_recs G0 :
  0 < MIN_IN_CORE_RECORDS L -> 0 < G0 -> 0 <= max_recs < UINT32_MAX ->
  max_recs + 2 <= Z.of_nat fuel ->
  exists k, 0 <= k
    /\ (forall i, 0 <= i < k ->
          env_calloc env (G0 + i) (max_recs / (G0 + i)) = false
          /\ MIN_IN_CORE_RECORDS L <= max_recs / (G0 + i))
    /\ (if env_calloc env (G0 + k) (max_recs / (G0 + k))
        then alloc_chunk L env fuel max_recs G0
             = Done (max_recs / (G0 + k), G0 + k)
        else max_recs / (G0 + k) < MIN_IN_CORE_RECORDS L
             /\ alloc_chunk L env fuel max_recs G0 = Exit).
Proof.
  intros Hmin HG0 Hmax Hfuel.
  assert (Hgen : forall fuel G, 0 < G ->
            max_recs + 2 - G <= Z.of_nat fuel -> (1 <= fuel)%nat ->
            exists k, 0 <= k
              /\ (forall i, 0 <= i < k ->
                    env_calloc env (G + i) (max_recs / (G + i)) = false
                    /\ MIN_IN_CORE_RECORDS L <= max_recs / (G + i))
              /\ (if env_calloc env (G + k) (max_recs / (G + k))
                  then alloc_chunk L env fuel max_recs G
                       = Done (max_recs / (G + k), G + k)
                  else max_recs / (G + k) < MIN_IN_CORE_RECORDS L
                       /\ alloc_chunk L env fuel max_recs G = Exit)).
  { clear fuel Hfuel G0 HG0.
    induction fuel as [|fuel IH]; intros G HG Hf H1; [lia|].
    simpl. destruct (G =? 0) eqn:HG'; [lia|].
    destruct (env_calloc env G (max_recs / G)) eqn:Hc.
    - exists 0. rewrite Z.add_0_r, Hc. split; [lia|]. split; [intros; lia|done].
    - destruct (max_recs / G <? MIN_IN_CORE_RECORDS L) eqn:Hlow.
      + exists 0. rewrite Z.add_0_r, Hc. split; [lia|]. split; [intros; lia|].
        split; [lia|done].
      + assert (HGle : G <= max_recs).
        { destruct (Z_le_gt_dec G max_recs) as [|Hgt]; [done|].
          rewrite Z.div_small in Hlow by lia. lia. }
        rewrite wrap_u32_id by (unfold UINT32_MAX in *; lia).
        destruct (IH (G + 1)) as (k & Hk & Hbefore & Hat); [lia|lia|lia|].
        exists (k + 1). split; [lia|]. split.
        * intros i Hi. destruct (decide (i = 0)) as [->|Hne].
          -- rewrite Z.add_0_r. split; [done|lia].
          -- replace (G + i) with (G + 1 + (i - 1)) by lia.
             apply Hbefore. lia.
        * replace (G + (k + 1)) with (G + 1 + k) by lia. exact Hat. }
  apply Hgen; lia.
Qed.

Lemma C5_initial_allocation_witness :
  exists k, 0 <= k
    /\ (forall i, 0 <= i < k ->
          env_calloc tight_env (4 + i) (32 / (4 + i)) = false
          /\ MIN_IN_CORE_RECORDS floor7_limits <= 32 / (4 + i))
    /\ (if env_calloc tight_env (4 + k) (32 / (4 + k))
        then alloc_chunk floor7_limits tight_env 40 32 4
             = Done (32 / (4 + k), 4 + k)
        else 32 / (4 + k) < MIN_IN_CORE_RECORDS floor7_limits
             /\ alloc_chunk floor7_limits tight_env 40 32 4 = Exit).
Proof.
  apply (C5_initial_allocation floor7_limits tight_env 40 32 4);
    [reflexivity|reflexivity|split; [discriminate|reflexivity]|discriminate].
Defined.

(** ** Streams that are read *)

Section ReaderFacts.
Context {item : Type}.
Implicit Types (ok : nat -> bool) (content : list item).
Implicit Types (fp : list (read_outcome item)).

(** The reads of a stream give its items in their order, the first ones
    of them. *)
Lemma delivered_prefix ok content : forall k,
  delivered (open_reader ok k content) `prefix_of` content.
Proof.
  induction content as [|it content IH]; intros k; simpl.
  - destruct (ok k); apply prefix_nil.
  - destruct (ok k); simpl; [by apply prefix_cons|apply prefix_nil].
Qed.

(** When no read fails they give every item. *)
Lemma delivered_all ok content : forall k,
  (forall j, ok j = true) -> delivered (open_reader ok k content) = content.
Proof.
  induction content as [|it content IH]; intros k Hok; simpl;
    rewrite Hok; [done|]. simpl. f_equal. by apply IH.
Qed.

(** A stream that is at its end when it is opened is over no item. *)
Lemma open_reader_nil ok k content :
  open_reader ok k content = [] -> content = [].
Proof. destruct content; [done|]. simpl. by destruct (ok k). Qed.

Lemma length_delivered fp : (length (delivered fp) <= length fp)%nat.
Proof.
  induction fp as [|[it|] fp IH]; simpl; lia.
Qed.

Lemma prefix_StronglySorted {A} (R : relation A) (l1 l2 : list A) :
  l1 `prefix_of` l2 -> StronglySorted R l2 -> StronglySorted R l1.
Proof. intros [k ->]. apply StronglySorted_app_1_l. Qed.

Lemma delivered_sorted {A} (R : relation A) (f : item -> A) ok content k :
  StronglySorted R (map f content) ->
  StronglySorted R (map f (delivered (open_reader ok k content))).
Proof.
  apply prefix_StronglySorted.
  destruct (delivered_prefix ok content k) as [rest Hrest].
  exists (map f rest). rewrite Hrest at 1. by rewrite map_app.
Qed.

Lemma delivered_submseteq ok content k :
  delivered (open_reader ok k content) ⊆+ content.
Proof.
  destruct (delivered_prefix ok content k) as [rest Hrest].
  rewrite Hrest at 2. apply submseteq_inserts_r. done.
Qed.
End ReaderFacts.

(** ** The heap and the merge loop *)

Section HeapFacts.
Variable L : limits.
Variable K : config.
Hypothesis Hcmp : comparator_ok L K.

#[local] Instance node_le_trans : Transitive (node_le L K).
Proof. intros a b c. apply (cmp_trans L K Hcmp). Qed.

Lemma node_le_total a b : node_le L K a b \/ node_le L K b a.
Proof.
  unfold node_le. destruct (Z_le_gt_dec (compare_nodes L K a b) 0); [by left|].
  right. apply (cmp_antisym L K Hcmp). lia.
Qed.

Lemma node_le_refl a : node_le L K a a.
Proof. destruct (node_le_total a a); done. Qed.

Lemma slot_le_trans recs i j k :
  slot_le L K recs i j -> slot_le L K recs j k -> slot_le L K recs i k.
Proof.
  intros (a & b & Ha & Hb & Hab) (b' & c & Hb' & Hc & Hbc).
  exists a, c. repeat split; try done. rewrite Hb in Hb'. injection Hb' as <-.
  by etrans.
Qed.

Lemma lowest_of_elem recs rest : forall best,
  lowest_of L K recs best rest ∈ best :: rest.
Proof.
  induction rest as [|i rest IH]; intros best; simpl; [set_solver|].
  specialize (IH (if compHeapNodes L K recs best i <? 0 then i else best)).
  destruct (compHeapNodes L K recs best i <? 0); set_solver.
Qed.

Lemma lowest_of_le recs rest : forall best seen,
  (forall i, i ∈ best :: rest -> is_Some (recs !! i)) ->
  (forall s, s ∈ seen -> slot_le L K recs best s) ->
  forall s, s ∈ seen ++ best :: rest ->
    slot_le L K recs (lowest_of L K recs best rest) s.
Proof.
  induction rest as [|i rest IH]; intros best seen Hvalid Hseen s Hs; simpl.
  - apply elem_of_app in Hs as [Hs|Hs]; [by apply Hseen|].
    apply list_elem_of_singleton in Hs as ->.
    destruct (Hvalid best) as [a Ha]; [set_solver|].
    exists a, a. repeat split; try done. apply node_le_refl.
  - destruct (Hvalid best) as [a Ha]; [set_solver|].
    destruct (Hvalid i) as [b Hb]; [set_solver|].
    assert (Hbb : slot_le L K recs best best).
    { exists a, a. repeat split; try done. apply node_le_refl. }
    assert (Hii : slot_le L K recs i i).
    { exists b, b. repeat split; try done. apply node_le_refl. }
    unfold compHeapNodes. rewrite Ha, Hb.
    destruct (compare_nodes L K b a <? 0) eqn:Hlt.
    + apply Z.ltb_lt in Hlt.
      assert (Hib : slot_le L K recs i best).
      { exists b, a. repeat split; try done. unfold node_le. lia. }
      apply (IH i (best :: seen)).
      * intros j Hj. apply Hvalid. set_solver.
      * intros j Hj. apply elem_of_cons in Hj as [->|Hj]; [done|].
        eapply slot_le_trans; [exact Hib|by apply Hseen].
      * set_solver.
    + apply Z.ltb_ge in Hlt.
      assert (Hbi : slot_le L K recs best i).
      { exists a, b. repeat split; try done.
        by apply (cmp_antisym L K Hcmp). }
      apply (IH best (i :: seen)).
      * intros j Hj. apply Hvalid. set_solver.
      * intros j Hj. apply elem_of_cons in Hj as [->|Hj]; [done|].
        by apply Hseen.
      * set_solver.
Qed.

(** The top of the heap has a lowest key. *)
Lemma skHeapPeekTop_lowest recs heap lowest :
  (forall i, i ∈ heap -> is_Some (recs !! i)) ->
  skHeapPeekTop L K recs heap = Some lowest ->
  lowest ∈ heap /\ forall i, i ∈ heap -> slot_le L K recs lowest i.
Proof.
  destruct heap as [|i rest]; [discriminate|]. simpl. intros Hvalid [= <-].
  split; [apply lowest_of_elem|].
  intros j Hj. apply (lowest_of_le recs rest i []); [done|set_solver|done].
Qed.
End HeapFacts.

Lemma skHeapPeekTop_elem L K recs heap lowest :
  skHeapPeekTop L K recs heap = Some lowest -> lowest ∈ heap.
Proof.
  destruct heap as [|i rest]; [discriminate|]. simpl. intros [= <-].
  induction rest as [|j rest IH] in i |- *; simpl; [set_solver|].
  specialize (IH (if compHeapNodes L K recs i j <? 0 then j else i)).
  destruct (compHeapNodes L K recs i j <? 0); set_solver.
Qed.

Lemma skHeapPeekTop_None L K recs heap :
  skHeapPeekTop L K recs heap = None <-> heap = [].
Proof. destruct heap; simpl; split; congruence. Qed.

Lemma heap_remove_split i pre post :
  i ∉ pre -> heap_remove i (pre ++ i :: post) = pre ++ post.
Proof.
  induction pre as [|j pre IH]; intros Hni; simpl.
  - by rewrite decide_True.
  - rewrite decide_False by set_solver. f_equal. apply IH. set_solver.
Qed.

Lemma elem_of_concat_map {A B} (f : A -> list B) (l : list A) (y : B) :
  y ∈ concat (map f l) <-> exists x, x ∈ l /\ y ∈ f x.
Proof.
  rewrite list_elem_of_In, in_concat. split.
  - intros (ys & Hys & Hy). apply in_map_iff in Hys as (x & <- & Hx).
    exists x. by rewrite !list_elem_of_In.
  - intros (x & Hx & Hy). exists (f x). rewrite <- !list_elem_of_In.
    split; [|done]. apply list_elem_of_In, in_map. by apply list_elem_of_In.
Qed.

Section PendingFacts.
Context {item : Type}.
Variable force : item -> node.

Implicit Type m : merge_state (item := item).

Lemma pending_split m pre i post :
  heap m = pre ++ i :: post ->
  pending force m
  = concat (map (slot_run force m) pre) ++ slot_run force m i
    ++ concat (map (slot_run force m) post).
Proof.
  unfold pending. intros ->. by rewrite map_app, concat_app.
Qed.

Lemma slot_runs_agree m m1 (l : list nat) :
  (forall j, j ∈ l -> slot_run force m1 j = slot_run force m j) ->
  concat (map (slot_run force m1) l) = concat (map (slot_run force m) l).
Proof.
  induction l as [|j l IH]; intros Hsame; simpl; [done|].
  rewrite Hsame by set_solver. f_equal. apply IH. set_solver.
Qed.

(** Every entry of the heap has a node to emit, and every node to emit
    is the scratch node of an entry or comes from a read of its reader. *)
Lemma length_pending m :
  merge_wf m ->
  (length (heap m) <= length (pending force m) <= merge_fuel m)%nat.
Proof.
  intros [_ Hvalid]. unfold pending, merge_fuel.
  induction (heap m) as [|i l IH]; simpl; [done|].
  rewrite length_app.
  destruct (Hvalid i) as [Hr Hf]; [set_solver|].
  apply lookup_lt_is_Some in Hr as [n Hn]. apply lookup_lt_is_Some in Hf as [fp Hfp].
  unfold slot_run at 1 3. rewrite Hn, Hfp. simpl. rewrite length_map.
  pose proof (length_delivered fp).
  assert (Hl : (length l <= length (concat (map (slot_run force m) l))
                <= length l
                   + sum_list (map (fun i => length (default [] (fps m !! i)))
                                l))%nat).
  { apply IH. intros j Hj. apply Hvalid. set_solver. }
  lia.
Qed.

End PendingFacts.

Section MergeFacts.
Variable L : limits.
Variable K : config.
Variable env : environment.
Context {item : Type}.
Variable decode : item -> result node.
Variable force : item -> node.
Variable fp_intermediate : option Z.
Hypothesis decode_force : forall it n, decode it = Done n -> force it = n.
Hypothesis decode_total :
  forall it, decode it = Exit \/ exists n, decode it = Done n.

Implicit Type m : merge_state (item := item).

Lemma write_node_cases n w :
  write_node env fp_intermediate n w = Exit
  \/ exists w', write_node env fp_intermediate n w = Done w'.
Proof.
  unfold write_node, write_out. destruct fp_intermediate as [idx|].
  - destruct (temp_fwrite env idx n (tmpctx w)); eauto.
  - destruct (env_write env _ _); simpl; eauto.
Qed.

Lemma read_next_cases (fp : list (read_outcome item)) :
  read_next decode fp = Exit
  \/ (delivered fp = [] /\ read_next decode fp = Done None)
  \/ (exists it fp' n, fp = Got it :: fp' /\ decode it = Done n
        /\ read_next decode fp = Done (Some (n, fp'))).
Proof.
  destruct fp as [|[it|] fp']; simpl; [right; left; done| |right; left; done].
  destruct (decode_total it) as [->|[n Hn]]; [left; done|].
  right; right. exists it, fp', n. rewrite Hn. done.
Qed.

(** One turn of the loop that keeps the entry: its slot moves on to the
    next record of its reader. *)
Lemma pending_replace m lowest n it fp' n' w :
  merge_wf m -> lowest ∈ heap m ->
  recs m !! lowest = Some n -> fps m !! lowest = Some (Got it :: fp') ->
  force it = n' ->
  let m1 := {| recs := <[lowest := n']> (recs m);
               fps := <[lowest := fp']> (fps m);
               heap := heap m; wld := w |} in
  pending force m ≡ₚ n :: pending force m1
  /\ merge_wf m1
  /\ (runs_sorted force L K m -> runs_sorted force L K m1).
Proof.
  intros [Hnd Hvalid] Hin Hn Hfp Hforce m1.
  destruct (Hvalid lowest Hin) as [Hlr Hlf].
  assert (Hrun1 : slot_run force m1 lowest
                  = n' :: map force (delivered fp')).
  { unfold slot_run, m1; simpl.
    by rewrite !list_lookup_insert_eq. }
  assert (Hrun : slot_run force m lowest
                 = n :: n' :: map force (delivered fp')).
  { unfold slot_run. rewrite Hn, Hfp. simpl. by rewrite Hforce. }
  assert (Hother : forall j, j ≠ lowest ->
            slot_run force m1 j = slot_run force m j).
  { intros j Hj. unfold slot_run, m1; simpl.
    by rewrite !list_lookup_insert_ne. }
  split; [|split].
  - destruct (list_elem_of_split _ _ Hin) as (pre & post & Hheap).
    rewrite (pending_split force m pre lowest post Hheap).
    rewrite (pending_split force m1 pre lowest post Hheap).
    rewrite Hheap in Hnd. apply NoDup_app in Hnd as (_ & Hpre & Hpost).
    apply NoDup_cons in Hpost as [Hpost _].
    rewrite !(slot_runs_agree force m m1).
    + rewrite Hrun, Hrun1. simpl.
      by rewrite <- Permutation_middle.
    + intros j Hj. apply Hother. intros ->. done.
    + intros j Hj. apply Hother. intros ->.
      apply (Hpre lowest Hj). set_solver.
  - split; [done|]. intros j Hj. simpl. rewrite !length_insert.
    by apply Hvalid.
  - intros Hsorted j Hj. destruct (decide (j = lowest)) as [->|Hne].
    + rewrite Hrun1. specialize (Hsorted lowest Hin). rewrite Hrun in Hsorted.
      by apply StronglySorted_inv in Hsorted as [? _].
    + rewrite Hother by done. by apply Hsorted.
Qed.

(** One turn of the loop that extracts the entry: its reader has
    nothing more to give. *)
Lemma pending_extract m lowest n fp w :
  merge_wf m -> lowest ∈ heap m ->
  recs m !! lowest = Some n -> fps m !! lowest = Some fp ->
  delivered fp = [] ->
  let m1 := {| recs := recs m; fps := fps m;
               heap := heap_remove lowest (heap m); wld := w |} in
  pending force m ≡ₚ n :: pending force m1
  /\ merge_wf m1
  /\ (runs_sorted force L K m -> runs_sorted force L K m1).
Proof.
  intros [Hnd Hvalid] Hin Hn Hfp Hend m1.
  destruct (list_elem_of_split _ _ Hin) as (pre & post & Hheap).
  assert (Hnd' := Hnd). rewrite Hheap in Hnd'.
  apply NoDup_app in Hnd' as (Hndpre & Hpre & Hpost).
  apply NoDup_cons in Hpost as [Hpost Hndpost].
  assert (Hheap1 : heap m1 = pre ++ post).
  { unfold m1; simpl. rewrite Hheap. apply heap_remove_split.
    intros Hl. apply (Hpre lowest Hl). set_solver. }
  assert (Hsub : forall j, j ∈ heap m1 -> j ∈ heap m).
  { intros j. rewrite Hheap1, Hheap. set_solver. }
  split; [|split].
  - rewrite (pending_split force m pre lowest post Hheap).
    unfold pending. rewrite Hheap1, map_app, concat_app.
    unfold slot_run at 2. rewrite Hn, Hfp, Hend. simpl.
    by rewrite <- Permutation_middle.
  - split.
    + rewrite Hheap1. apply NoDup_app. repeat split; try done.
      intros j Hj Hj'. apply (Hpre j Hj). set_solver.
    + intros j Hj. apply Hvalid. by apply Hsub.
  - intros Hsorted j Hj. apply (Hsorted j). by apply Hsub.
Qed.

(** The scratch node of the top of the heap is below every node the
    merge has still to emit. *)
Lemma top_is_lowest m lowest n :
  comparator_ok L K -> merge_wf m -> runs_sorted force L K m ->
  skHeapPeekTop L K (recs m) (heap m) = Some lowest ->
  recs m !! lowest = Some n ->
  forall y, y ∈ pending force m -> node_le L K n y.
Proof.
  intros Hcmp [Hnd Hvalid] Hsorted Htop Hn y Hy.
  destruct (skHeapPeekTop_lowest L K Hcmp (recs m) (heap m) lowest)
    as [Hin Hlow]; [|done|].
  { intros i Hi. apply lookup_lt_is_Some. by apply Hvalid. }
  unfold pending in Hy. apply elem_of_concat_map in Hy as (i & Hi & Hy).
  destruct (Hlow i Hi) as (a & b & Ha & Hb & Hab).
  rewrite Hn in Ha. injection Ha as <-.
  specialize (Hsorted i Hi).
  destruct (Hvalid i Hi) as [_ Hf]. apply lookup_lt_is_Some in Hf as [fp Hfp].
  unfold slot_run in Hy, Hsorted. rewrite Hb, Hfp in Hy, Hsorted.
  apply elem_of_cons in Hy as [->|Hy]; [done|].
  apply StronglySorted_inv in Hsorted as [_ Hall].
  rewrite Forall_forall in Hall.
  eapply (cmp_trans L K Hcmp); [exact Hab|]. by apply Hall.
Qed.

Lemma emit_all_app l1 l2 w :
  emit_all env fp_intermediate (l1 ++ l2) w
  = w' ← emit_all env fp_intermediate l1 w;
    emit_all env fp_intermediate l2 w'.
Proof.
  induction l1 as [|n l1 IH] in w |- *; simpl; [done|].
  destruct (write_node env fp_intermediate n w); simpl; auto.
Qed.

Lemma merge_post_done m :
  merge_wf m -> (length (heap m) <= 1)%nat -> merge_post L K env force fp_intermediate m (Done m).
Proof.
  intros Hwf Hlen. exists []. simpl.
  split; [done|]. split; [done|]. split; [done|]. split; [done|].
  intros _ Hs. split; [constructor|]. split; [|done].
  intros x y Hx. by apply elem_of_nil in Hx.
Qed.

(** A turn that wrote the top node [n] and went on from [m1]. *)
Lemma merge_post_step m m1 lowest n r :
  merge_wf m ->
  skHeapPeekTop L K (recs m) (heap m) = Some lowest ->
  recs m !! lowest = Some n ->
  write_node env fp_intermediate n (wld m) = Done (wld m1) ->
  pending force m ≡ₚ n :: pending force m1 ->
  (runs_sorted force L K m -> runs_sorted force L K m1) ->
  merge_post L K env force fp_intermediate m1 r -> merge_post L K env force fp_intermediate m r.
Proof.
  intros Hwf Htop Hn Hw Hperm Hs1 Hr. destruct r as [m'| | |]; try done.
  destruct Hr as (l & Hemit & Hp & Hwf' & Hlen' & Hord).
  exists (n :: l). simpl. rewrite Hw. simpl.
  split; [exact Hemit|]. split; [by rewrite Hp, Hperm|].
  split; [done|]. split; [done|].
  intros Hcmp Hsorted.
  destruct (Hord Hcmp (Hs1 Hsorted)) as (Hl & Hbelow & Hsorted').
  assert (Hmin := top_is_lowest m lowest n Hcmp Hwf Hsorted Htop Hn).
  assert (Hsub : forall y, y ∈ l ++ pending force m' -> node_le L K n y).
  { intros y Hy. apply Hmin. rewrite Hperm. rewrite <- Hp. set_solver. }
  split; [|split; [|done]].
  - constructor; [done|]. apply Forall_forall. intros y Hy. apply Hsub.
    set_solver.
  - intros x y Hx Hy. apply elem_of_cons in Hx as [->|Hx].
    + apply Hsub. set_solver.
    + by apply Hbelow.
Qed.

(** The while loop: it ends with at most one entry in the heap, what it
    wrote and what is left make up what there was, and what it wrote is
    in order and below what is left when the runs are in order. *)
Lemma merge_loop_spec fuel : forall m,
  merge_wf m -> (length (pending force m) <= fuel)%nat ->
  merge_post L K env force fp_intermediate m (merge_loop L K env decode fp_intermediate fuel m).
Proof.
  induction fuel as [|fuel IH]; intros m Hwf Hfuel.
  - simpl. destruct (length (heap m) <=? 1)%nat eqn:Hlen.
    + apply merge_post_done; [done|]. by apply Nat.leb_le.
    + apply Nat.leb_gt in Hlen.
      pose proof (length_pending force m Hwf). lia.
  - simpl. destruct (length (heap m) <=? 1)%nat eqn:Hlen.
    { apply merge_post_done; [done|]. by apply Nat.leb_le. }
    apply Nat.leb_gt in Hlen.
    destruct (skHeapPeekTop L K (recs m) (heap m)) as [lowest|] eqn:Htop.
    2: { apply skHeapPeekTop_None in Htop. rewrite Htop in Hlen.
         simpl in Hlen. lia. }
    assert (Hin := skHeapPeekTop_elem _ _ _ _ _ Htop).
    destruct (proj2 Hwf lowest Hin) as [Hlr Hlf].
    apply lookup_lt_is_Some in Hlr as [n Hn].
    apply lookup_lt_is_Some in Hlf as [fp Hfp].
    rewrite Hn, Hfp.
    destruct (write_node_cases n (wld m)) as [Hw|[w Hw]]; rewrite Hw;
      [done|]. simpl.
    destruct (read_next_cases fp)
      as [Hr|[[Hend Hr]|(it & fp' & n' & -> & Hdec & Hr)]];
      rewrite Hr; [done| |]; simpl.
    + (* the read gave nothing: skHeapExtractTop *)
      destruct (pending_extract m lowest n fp w Hwf Hin Hn Hfp Hend)
        as (Hperm & Hwf1 & Hs1).
      set (m1 := {| recs := recs m; fps := fps m;
                    heap := heap_remove lowest (heap m); wld := w |}) in *.
      apply (merge_post_step m m1 lowest n);
        [done|done|done|exact Hw|exact Hperm|exact Hs1|].
      apply IH; [done|].
      apply Permutation_length in Hperm. simpl in Hperm. lia.
    + (* another record: skHeapReplaceTop *)
      destruct (pending_replace m lowest n it fp' n' w Hwf Hin Hn Hfp
                  (decode_force _ _ Hdec)) as (Hperm & Hwf1 & Hs1).
      set (m1 := {| recs := <[lowest := n']> (recs m);
                    fps := <[lowest := fp']> (fps m);
                    heap := heap m; wld := w |}) in *.
      apply (merge_post_step m m1 lowest n);
        [done|done|done|exact Hw|exact Hperm|exact Hs1|].
      apply IH; [done|].
      apply Permutation_length in Hperm. simpl in Hperm. lia.
Qed.

(** The do-while loop that drains the last reader writes its run. *)
Lemma drain_loop_spec (fp : list (read_outcome item)) : forall fuel n w,
  (length fp < fuel)%nat ->
  match drain_loop env decode fp_intermediate fuel n fp w with
  | Done w' =>
      emit_all env fp_intermediate (n :: map force (delivered fp)) w = Done w'
  | Exit => True
  | _ => False
  end.
Proof.
  induction fp as [|[it|] fp IH]; intros fuel n w Hfuel;
    (destruct fuel as [|fuel]; [simpl in Hfuel; lia|]); simpl.
  - destruct (write_node_cases n w) as [Hw|[w' Hw]]; rewrite Hw; done.
  - destruct (write_node_cases n w) as [Hw|[w' Hw]]; rewrite Hw; [done|].
    simpl. destruct (decode_total it) as [Hd|[n' Hd]]; rewrite Hd; [done|].
    simpl. rewrite (decode_force _ _ Hd).
    apply IH. simpl in Hfuel. lia.
  - destruct (write_node_cases n w) as [Hw|[w' Hw]]; rewrite Hw; done.
Qed.

Lemma drain_spec m lowest :
  merge_wf m -> heap m = [lowest] ->
  match drain env decode fp_intermediate lowest m with
  | Done w' => emit_all env fp_intermediate (pending force m) (wld m) = Done w'
  | Exit => True
  | _ => False
  end.
Proof.
  intros [_ Hvalid] Hheap.
  destruct (Hvalid lowest) as [Hr Hf]; [rewrite Hheap; set_solver|].
  apply lookup_lt_is_Some in Hr as [n Hn].
  apply lookup_lt_is_Some in Hf as [fp Hfp].
  unfold drain, pending. rewrite Hheap, Hn, Hfp. cbn [map concat].
  unfold slot_run. rewrite Hn, Hfp, app_nil_r.
  apply (drain_loop_spec fp (S (length fp)) n (wld m)). lia.
Qed.
End MergeFacts.

(** ** Writing to the destination *)

Section WriteFacts.
Variable env : environment.


Lemma accepted_elem l : forall k x, x ∈ accepted env k l -> x ∈ l.
Proof.
  induction l as [|n l IH]; intros k x; simpl; [done|].
  destruct (env_write env k (n_rec n)); intros Hx.
  - apply elem_of_cons in Hx as [->|Hx]; [set_solver|].
    apply elem_of_cons. right. by eapply IH.
  - apply elem_of_cons. right. by eapply IH.
  - apply elem_of_cons. right. by eapply IH.
Qed.

Lemma accepted_sorted (R : relation node) l : forall k,
  StronglySorted R l -> StronglySorted R (accepted env k l).
Proof.
  induction l as [|n l IH]; intros k Hs; simpl; [constructor|].
  apply StronglySorted_inv in Hs as [Hs Hall].
  destruct (env_write env k (n_rec n)); try by apply IH.
  constructor; [by apply IH|]. rewrite Forall_forall in Hall |- *.
  intros x Hx. apply Hall. by eapply accepted_elem.
Qed.

(** What a batch of writes leaves in the output: the records accepted,
    in their order; the others were refused with a non-fatal status. *)
Lemma write_batch_spec l : forall o o',
  write_batch env l o = Done o' ->
  out_recs o' = out_recs o ++ map n_rec (accepted env (out_calls o) l)
  /\ out_calls o' = (out_calls o + length l)%nat
  /\ Forall (fun n => exists k, env_write env k (n_rec n) = WriteNonFatal)
       (rejected env (out_calls o) l).
Proof.
  induction l as [|n l IH]; intros o o'; simpl.
  - intros [= <-]. rewrite app_nil_r. split; [done|]. split; [lia|done].
  - unfold write_out.
    destruct (env_write env (out_calls o) (n_rec n)) eqn:Hw; simpl;
      [| |done]; intros H; apply IH in H as (Hr & Hc & Hrej); simpl in *.
    + rewrite Hr, <- app_assoc. split; [done|]. split; [lia|done].
    + split; [done|]. split; [lia|]. constructor; [eauto|done].
Qed.

Lemma accepted_all l : forall k,
  (forall j r, env_write env j r <> WriteNonFatal) ->
  rejected env k l = [] -> accepted env k l = l.
Proof.
  induction l as [|n l IH]; intros k Hno; simpl; [done|].
  destruct (env_write env k (n_rec n)); try done.
  intros Hrej. f_equal. by apply IH.
Qed.


(** Writing to the final destination leaves the temp files alone. *)
Lemma emit_all_final l : forall w w',
  emit_all env None l w = Done w' ->
  tmpctx w' = tmpctx w
  /\ write_batch env l (out_rwios w) = Done (out_rwios w').
Proof.
  induction l as [|n l IH]; intros w w'; simpl.
  - by intros [= <-].
  - destruct (write_out env (n_rec n) (out_rwios w)) as [o| | |] eqn:Ho;
      simpl; try done.
    intros H. apply IH in H as [Ht Hb]. simpl in *. done.
Qed.

(** Writing to the intermediate file appends to it and to nothing
    else. *)
Lemma emit_all_intermediate idx l : forall w w',
  emit_all env (Some idx) l w = Done w' ->
  out_rwios w' = out_rwios w
  /\ tf_next (tmpctx w') = tf_next (tmpctx w)
  /\ (forall j, j ≠ idx ->
        tf_files (tmpctx w') !! j = tf_files (tmpctx w) !! j)
  /\ (forall c, tf_files (tmpctx w) !! idx = Some c ->
        tf_files (tmpctx w') !! idx = Some (c ++ l)).
Proof.
  induction l as [|n l IH]; intros w w'; simpl.
  - intros [= <-]. repeat split; try done. intros c Hc. by rewrite app_nil_r.
  - unfold temp_fwrite.
    destruct (env_temp_fwrite env idx _); simpl; [|done].
    intros He. apply IH in He as (Ho & Hn & Hother & Hidx). simpl in *.
    split; [done|]. split; [done|]. split.
    + intros j Hj. rewrite Hother by done. by rewrite lookup_insert_ne.
    + intros c Hc. rewrite (Hidx (c ++ [n])).
      * by rewrite <- app_assoc.
      * by rewrite lookup_insert_eq, Hc.
Qed.
End WriteFacts.

(** ** Filling the slots *)

Section SlotFacts.
Variable L : limits.
Variable K : config.
Context {item : Type}.
Variable force : item -> node.

Implicit Type m : merge_state (item := item).

Lemma slot_run_app_l m i n fp hp w :
  (i < length (recs m))%nat -> (i < length (fps m))%nat ->
  slot_run force {| recs := recs m ++ [n]; fps := fps m ++ [fp];
                    heap := hp; wld := w |} i
  = slot_run force m i.
Proof.
  intros Hr Hf. unfold slot_run; simpl. by rewrite !lookup_app_l.
Qed.

(** A slot filled and put on the heap adds its run. *)
Lemma add_slot m n fp w :
  slots_wf m ->
  let m' := {| recs := recs m ++ [n]; fps := fps m ++ [fp];
               heap := heap m ++ [length (recs m)]; wld := w |} in
  slots_wf m'
  /\ pending force m' = pending force m ++ n :: map force (delivered fp)
  /\ (runs_sorted force L K m ->
      StronglySorted (node_le L K) (n :: map force (delivered fp)) ->
      runs_sorted force L K m').
Proof.
  intros [[Hnd Hvalid] Hlen] m'.
  assert (Hnew : slot_run force m' (length (recs m))
                 = n :: map force (delivered fp)).
  { unfold slot_run, m'; simpl.
    rewrite (list_lookup_middle (recs m) [] n) by done.
    rewrite <- Hlen. by rewrite (list_lookup_middle (fps m) [] fp). }
  assert (Hold : forall i, i ∈ heap m ->
            slot_run force m' i = slot_run force m i).
  { intros i Hi. destruct (Hvalid i Hi). by apply slot_run_app_l. }
  split; [|split].
  - split; [split|].
    + simpl. apply NoDup_app. split; [done|]. split; [|apply NoDup_singleton].
      intros i Hi Hi'. apply list_elem_of_singleton in Hi'.
      destruct (Hvalid i Hi). lia.
    + simpl. intros i Hi. rewrite !length_app. simpl.
      apply elem_of_app in Hi as [Hi|Hi].
      * destruct (Hvalid i Hi). lia.
      * apply list_elem_of_singleton in Hi. lia.
    + simpl. rewrite !length_app. simpl. lia.
  - unfold pending. simpl. rewrite map_app, concat_app. simpl.
    rewrite app_nil_r, Hnew. f_equal. by apply slot_runs_agree.
  - intros Hs Hrun i Hi. simpl in Hi. apply elem_of_app in Hi as [Hi|Hi].
    + rewrite Hold by done. by apply Hs.
    + apply list_elem_of_singleton in Hi as ->. by rewrite Hnew.
Qed.

(** A slot filled but kept off the heap adds nothing. *)
Lemma skip_slot m n fp w :
  slots_wf m ->
  let m' := {| recs := recs m ++ [n]; fps := fps m ++ [fp];
               heap := heap m; wld := w |} in
  slots_wf m'
  /\ pending force m' = pending force m
  /\ (runs_sorted force L K m -> runs_sorted force L K m').
Proof.
  intros [[Hnd Hvalid] Hlen] m'.
  assert (Hold : forall i, i ∈ heap m ->
            slot_run force m' i = slot_run force m i).
  { intros i Hi. destruct (Hvalid i Hi). by apply slot_run_app_l. }
  split; [|split].
  - split; [split; [done|]|].
    + simpl. intros i Hi. rewrite !length_app. destruct (Hvalid i Hi). lia.
    + simpl. rewrite !length_app. simpl. lia.
  - unfold pending. simpl. by apply slot_runs_agree.
  - intros Hs i Hi. rewrite Hold by done. by apply Hs.
Qed.
End SlotFacts.

Lemma pending_world {item} (force : item -> node) (m : merge_state) w :
  pending force {| recs := recs m; fps := fps m; heap := heap m; wld := w |}
  = pending force m.
Proof. reflexivity. Qed.

(** ** The opening loop of a pass *)

Lemma seqZ_prefix pre : forall a n suf,
  seqZ a n = pre ++ suf -> pre = seqZ a (Z.of_nat (length pre)).
Proof.
  induction pre as [|x pre IH]; intros a n suf Hs; [done|].
  destruct (Z_lt_le_dec 0 n) as [Hn|Hn].
  - rewrite seqZ_cons in Hs by done. simpl in Hs. injection Hs as <- Hs.
    apply IH in Hs. rewrite (seqZ_cons a) by (simpl; lia). f_equal.
    rewrite Hs at 1. f_equal. simpl length. lia.
  - rewrite seqZ_nil in Hs by lia. done.
Qed.

Lemma seqZ_middle a n pre j suf :
  seqZ a n = pre ++ j :: suf -> j = a + Z.of_nat (length pre).
Proof.
  intros Hs.
  assert (Hl : seqZ a n !! length pre = Some j).
  { rewrite Hs. by apply list_lookup_middle. }
  by apply lookup_seqZ in Hl as [-> _].
Qed.

Section OpenLoop.
Variable L : limits.
Variable K : config.
Variable env : environment.
Variable pass : nat.
Variable t : tempctx.

Lemma skTempFileOpen_content j fp :
  skTempFileOpen env pass t j = inl fp ->
  is_Some (tf_files t !! j) /\ delivered fp = file_read env t j.
Proof.
  unfold skTempFileOpen, file_read.
  destruct (env_temp_open env pass j); try done.
  destruct (tf_files t !! j); [|done]. by intros [= <-].
Qed.

(** The readers a pass has open when its opening loop ends: the files
    of the indices it went through, those whose first fread gave a
    node; the nodes to merge are those the freads of these files
    give. *)
Lemma open_loop_spec w : forall js o o',
  open_loop env pass t js o = Done o' ->
  slots_wf (opened_state o w) ->
  exists went,
    ((went = js /\ tmp_idx_b o' = tmp_idx_b o)
     \/ (exists j rest, js = went ++ j :: rest /\ tmp_idx_b o' = j - 1
                        /\ 0 < open_count o'))
    /\ slots_wf (opened_state o' w)
    /\ pending id (opened_state o' w)
       = pending id (opened_state o w) ++ concat (map (file_read env t) went)
    /\ (runs_sorted id L K (opened_state o w) ->
        Forall (fun j => StronglySorted (node_le L K) (file_read env t j))
          went ->
        runs_sorted id L K (opened_state o' w)).
Proof.
  induction js as [|j js IH]; intros o o' Hopen Hwf; simpl in Hopen.
  - injection Hopen as <-. exists []. simpl. rewrite app_nil_r.
    split; [by left|]. done.
  - destruct (skTempFileOpen env pass t j) as [fp|e] eqn:Hj.
    + apply skTempFileOpen_content in Hj as [_ Hj].
      destruct fp as [|[n|] fp']; [| |done].
      * (* an empty file *)
        destruct (IH o o' Hopen Hwf) as (went & Hb & Hwf' & Hp & Hs).
        exists (j :: went). simpl. rewrite <- Hj. simpl.
        split; [|split; [done|split; [done|]]].
        -- destruct Hb as [[-> Hb]|(j' & rest & -> & Hb & Hc)]; [by left|].
           right. by exists j', rest.
        -- intros Hs0 Hall. apply Hs; [done|].
           by apply Forall_cons in Hall as [_ ?].
      * (* a file with a first record *)
        destruct (add_slot L K id (opened_state o w) n fp' w Hwf)
          as (Hwf1 & Hp1 & Hs1).
        match type of Hopen with
        | open_loop _ _ _ _ ?o1 = _ => set (o1' := o1) in *
        end.
        destruct (IH o1' o' Hopen Hwf1) as (went & Hb & Hwf' & Hp & Hs).
        exists (j :: went). simpl. rewrite <- Hj. simpl.
        split; [|split; [done|split]].
        -- destruct Hb as [[-> Hb]|(j' & rest & -> & Hb & Hc)]; [by left|].
           right. by exists j', rest.
        -- assert (Hp1' : pending id (opened_state o1' w)
                          = pending id (opened_state o w)
                            ++ n :: delivered fp').
           { rewrite map_id in Hp1. exact Hp1. }
           rewrite Hp, Hp1', <- app_assoc. done.
        -- intros Hs0 Hall. apply Forall_cons in Hall as [Hrun Hall].
           rewrite <- Hj in Hrun. simpl in Hrun.
           apply Hs; [|done]. apply Hs1; [done|]. by rewrite map_id.
    + destruct ((0 <? open_count o) && no_resource e) eqn:Hc; [|done].
      injection Hopen as <-. exists []. simpl. rewrite app_nil_r.
      apply andb_true_iff in Hc as [Hc _]. apply Z.ltb_lt in Hc.
      split; [|done]. right. exists j, js. done.
Qed.

(** How the opening loop ends when the open of [j] fails after the
    opens of [pre] succeeded, the first fread of each of these files
    ending without an error. *)
Lemma open_loop_failure pre j post e : forall o,
  Forall (fun i => exists c, skTempFileOpen env pass t i = inl c
                             /\ first_read_ok c = true) pre ->
  skTempFileOpen env pass t j = inr e ->
  if ((0 <? open_count o) || existsb (opens_nonempty env pass t) pre)
     && no_resource e
  then exists o', open_loop env pass t (pre ++ j :: post) o = Done o'
                  /\ tmp_idx_b o' = j - 1 /\ 0 < open_count o'
  else open_loop env pass t (pre ++ j :: post) o = Exit.
Proof.
  induction pre as [|i pre IH]; intros o Hpre Hj; simpl.
  - rewrite Hj, orb_false_r.
    destruct ((0 <? open_count o) && no_resource e) eqn:Hc; [|done].
    eexists. split; [done|]. simpl. split; [done|].
    apply andb_true_iff in Hc as [Hc _]. by apply Z.ltb_lt in Hc.
  - apply Forall_cons in Hpre as [(c & Hi & Hfirst) Hpre].
    unfold opens_nonempty at 1. rewrite Hi. destruct c as [|[n|] c]; [| |done].
    + simpl. by apply IH.
    + match goal with
      | |- context [open_loop _ _ _ _ ?o1] => specialize (IH o1 Hpre Hj)
      end.
      assert (Hcount : forall o1 : opened,
                length (op_recs o1) = S (length (op_recs o)) ->
                (0 <? open_count o1) = true).
      { intros o1 Hl. unfold open_count. rewrite Hl. apply Z.ltb_lt. lia. }
      rewrite Hcount in IH by (simpl; rewrite length_app; simpl; lia).
      rewrite orb_true_r. simpl in *. exact IH.
Qed.
End OpenLoop.

(** C3, as the specification states it, fails: in a pass that opened
    temp file 0, an empty file, the open of temp file 1 fails with
    EMFILE or ENOMEM, and the sort exits; it does not truncate the
    pass.  The run is that of rwsort on presorted inputs of which the
    first three are empty. *)
Lemma C3_exit_after_empty_reader :
  sortPresorted small_limits (sport_config false true) emfile_env 10 world_init
    = Done (1, {| tmpctx := emfile_tmpctx; out_rwios := out_rwios world_init |})
  /\ skTempFileOpen emfile_env 0 emfile_tmpctx_pass 0 = inl []
  /\ skTempFileOpen emfile_env 0 emfile_tmpctx_pass 1 = inr OpenNoResource
  /\ open_loop emfile_env 0 emfile_tmpctx_pass [0; 1] (opened_none 1) = Exit
  /\ rwsort_main small_limits (sport_config false true) emfile_env 10 = Exit.
Proof. repeat split; vm_compute; reflexivity. Qed.

(** C3, amended: when the open of a scheduled temp file [j] fails with
    EMFILE or ENOMEM after the pass has opened a temp file that is not
    empty (open_count > 0), the opening loop ends with tmp_idx_b = j - 1
    and the pass goes on with the readers it has; when no file opened so
    far had a record (the first open of the pass is the plainest case),
    or the failure is of another kind, the sort exits.  The pass gets
    to the open of [j] when the files before it were opened and the
    first fread of each gave a node or found the file empty. *)
Theorem C3_open_failure env pass t b pre j post e :
  Forall (fun i => exists c, skTempFileOpen env pass t i = inl c
                             /\ first_read_ok c = true) pre ->
  skTempFileOpen env pass t j = inr e ->
  if existsb (opens_nonempty env pass t) pre && no_resource e
  then exists o, open_loop env pass t (pre ++ j :: post) (opened_none b) = Done o
                 /\ tmp_idx_b o = j - 1 /\ 0 < open_count o
  else open_loop env pass t (pre ++ j :: post) (opened_none b) = Exit.
Proof.
  intros Hpre Hj.
  exact (open_loop_failure env pass t pre j post e (opened_none b) Hpre Hj).
Qed.

(** ** A pass of mergeFiles *)

Lemma remove_files_lookup (js : list Z) : forall t j,
  tf_files (foldl skTempFileRemove t js) !! j
  = if decide (j ∈ js) then None else tf_files t !! j.
Proof.
  induction js as [|i js IH]; intros t j.
  - cbn [foldl]. rewrite decide_False; [done|]. by intros ?%elem_of_nil.
  - cbn [foldl]. rewrite IH. unfold skTempFileRemove at 1. cbn [tf_files].
    rewrite lookup_delete.
    destruct (decide (j ∈ js)) as [Hin|Hnin].
    + rewrite decide_True; [done|]. by apply elem_of_cons; right.
    + destruct (decide (i = j)) as [->|Hne].
      * rewrite decide_True; [done|]. by apply elem_of_cons; left.
      * rewrite decide_False; [done|].
        intros [->|?]%elem_of_cons; done.
Qed.

Lemma remove_files_next (js : list Z) : forall t,
  tf_next (foldl skTempFileRemove t js) = tf_next t.
Proof. induction js as [|i js IH]; intros t; simpl; [done|]. by rewrite IH. Qed.

Lemma remove_range_lookup t a b j :
  tf_files (remove_range t a b) !! j
  = if decide (a <= j <= b) then None else tf_files t !! j.
Proof.
  unfold remove_range. rewrite remove_files_lookup.
  destruct (decide (j ∈ seqZ a (b - a + 1))) as [Hin|Hnin];
    rewrite elem_of_seqZ in *.
  - rewrite decide_True; [done|lia].
  - rewrite decide_False; [done|lia].
Qed.

Lemma remove_range_next t a b : tf_next (remove_range t a b) = tf_next t.
Proof. apply remove_files_next. Qed.

Lemma range_nodes_ext t t' a n :
  (forall j, a <= j < a + n -> tf_files t' !! j = tf_files t !! j) ->
  range_nodes t' a n = range_nodes t a n.
Proof.
  intros Hsame. unfold range_nodes. f_equal. apply map_ext_in.
  intros j Hj%list_elem_of_In%elem_of_seqZ. by rewrite Hsame.
Qed.

Lemma range_nodes_app t a n1 n2 :
  0 <= n1 -> 0 <= n2 ->
  range_nodes t a (n1 + n2) = range_nodes t a n1 ++ range_nodes t (a + n1) n2.
Proof.
  intros H1 H2. unfold range_nodes.
  by rewrite seqZ_app, map_app, concat_app.
Qed.

Lemma range_nodes_one t a c :
  tf_files t !! a = Some c -> range_nodes t a 1 = c.
Proof.
  intros Hc. unfold range_nodes. rewrite seqZ_cons by lia.
  rewrite seqZ_nil by lia. cbn [map concat]. rewrite Hc. simpl.
  by rewrite app_nil_r.
Qed.

Section RangeRead.
Variable env : environment.

Lemma file_read_ext t t' j :
  tf_files t' !! j = tf_files t !! j -> file_read env t' j = file_read env t j.
Proof. unfold file_read. by intros ->. Qed.

Lemma range_read_ext t t' a n :
  (forall j, a <= j < a + n -> tf_files t' !! j = tf_files t !! j) ->
  range_read env t' a n = range_read env t a n.
Proof.
  intros Hsame. unfold range_read. f_equal. apply map_ext_in.
  intros j Hj%list_elem_of_In%elem_of_seqZ. apply file_read_ext.
  by apply Hsame.
Qed.

(** What is read of a file is the beginning of the file, and the whole
    of it when none of its freads fails. *)
Lemma file_read_prefix t j :
  file_read env t j `prefix_of` default [] (tf_files t !! j).
Proof. apply delivered_prefix. Qed.

Lemma file_read_all t j :
  (forall k, env_temp_fread env j k = true) ->
  file_read env t j = default [] (tf_files t !! j).
Proof. intros Hok. by apply delivered_all. Qed.

Lemma file_read_sorted (R : relation node) t j :
  StronglySorted R (default [] (tf_files t !! j)) ->
  StronglySorted R (file_read env t j).
Proof. apply prefix_StronglySorted, file_read_prefix. Qed.

Lemma range_read_all t a n :
  (forall j k, a <= j < a + n -> env_temp_fread env j k = true) ->
  range_read env t a n = range_nodes t a n.
Proof.
  intros Hok. unfold range_read, range_nodes. f_equal. apply map_ext_in.
  intros j Hj%list_elem_of_In%elem_of_seqZ. apply file_read_all.
  intros k. by apply Hok.
Qed.

Lemma range_read_submseteq t a n : range_read env t a n ⊆+ range_nodes t a n.
Proof.
  unfold range_read, range_nodes.
  induction (seqZ a n) as [|j js IH]; simpl; [done|].
  apply submseteq_app; [|done]. apply delivered_submseteq.
Qed.
End RangeRead.

Lemma pass_bound_le L a idx : pass_bound L a idx <= idx.
Proof.
  unfold pass_bound.
  destruct (idx - a <? MAX_MERGE_FILES L - 1) eqn:Hlt; [lia|].
  apply Z.ltb_ge in Hlt. lia.
Qed.

Section MergePass.
Variable L : limits.
Variable K : config.
Variable env : environment.

Lemma Done_decode_force (it n : node) : Done it = Done n -> id it = n.
Proof. by intros [= ->]. Qed.

Lemma Done_decode_total (it : node) :
  Done it = Exit \/ exists n : node, Done it = Done n.
Proof. right. by exists it. Qed.

(** What the heap loop and the drain of a pass of mergeFiles write:
    the nodes of its readers, every one of them, in order when the
    readers are. *)
Lemma merge_opened_writes fp_intermediate (m0 : merge_state) w' :
  merge_wf m0 ->
  (m ← merge_loop L K env Done fp_intermediate (merge_fuel m0) m0;
   match skHeapPeekTop L K (recs m) (heap m) with
   | None => Fault DrainEmptyHeap
   | Some lowest => drain env Done fp_intermediate lowest m
   end) = Done w' ->
  exists l,
    emit_all env fp_intermediate l (wld m0) = Done w'
    /\ l ≡ₚ pending id m0
    /\ l <> []
    /\ (comparator_ok L K -> runs_sorted id L K m0 ->
        StronglySorted (node_le L K) l).
Proof.
  intros Hwf Hrun.
  pose proof (merge_loop_spec L K env Done id fp_intermediate
                Done_decode_force Done_decode_total (merge_fuel m0) m0 Hwf)
    as Hloop.
  specialize (Hloop (proj2 (length_pending id m0 Hwf))).
  destruct (merge_loop L K env Done fp_intermediate (merge_fuel m0) m0)
    as [m| | |]; try done.
  simpl in Hrun.
  destruct Hloop as (l1 & Hemit & Hperm & Hwf' & Hlen & Hord).
  destruct (skHeapPeekTop L K (recs m) (heap m)) as [lowest|] eqn:Htop;
    [|done].
  assert (Hheap : heap m = [lowest]).
  { apply skHeapPeekTop_elem in Htop. destruct (heap m) as [|i [|??]];
      simpl in Hlen; [by apply elem_of_nil in Htop| |lia].
    by apply list_elem_of_singleton in Htop as ->. }
  pose proof (drain_spec env Done id fp_intermediate
                Done_decode_force Done_decode_total m lowest Hwf' Hheap)
    as Hdrain.
  rewrite Hrun in Hdrain.
  exists (l1 ++ pending id m). split; [|split; [done|split]].
  - rewrite emit_all_app, Hemit. done.
  - assert (Hne : pending id m <> []).
    { unfold pending. rewrite Hheap. simpl.
      destruct (proj2 Hwf' lowest) as [Hr Hf]; [rewrite Hheap; set_solver|].
      apply lookup_lt_is_Some in Hr as [n Hn].
      apply lookup_lt_is_Some in Hf as [fp Hfp].
      unfold slot_run. by rewrite Hn, Hfp. }
    intros Hnil. apply app_eq_nil in Hnil as [_ Hnil]. done.
  - intros Hcmp Hsorted. destruct (Hord Hcmp Hsorted) as (Hl1 & Hbelow & Hs').
    apply StronglySorted_app_2; [done|done|].
    unfold pending. rewrite Hheap. simpl. rewrite app_nil_r.
    apply Hs'. rewrite Hheap. set_solver.
Qed.

Lemma opened_none_wf b w : slots_wf (opened_state (opened_none b) w).
Proof.
  split; [split|done]; simpl; [constructor|].
  intros i Hi. by apply elem_of_nil in Hi.
Qed.

(** What one pass of mergeFiles does, from a state whose next temp
    file index follows temp_file_idx: it merges what it reads of the
    files a .. b for a bound b it settles on, deletes them, and leaves
    what it merged in the output (when b is temp_file_idx) or in the
    intermediate file. *)
Lemma merge_pass_spec pass s s' no_more :
  merge_pass L K env pass s = Done (s', no_more) ->
  tf_next (tmpctx (mf_world s)) = temp_file_idx s + 1 ->
  let a := tmp_idx_a s in
  let T := temp_file_idx s in
  let t := tmpctx (mf_world s) in
  let t' := tmpctx (mf_world s') in
  exists b l,
    a <= b <= T /\ b <= pass_bound L a T
    /\ (exists t1 o,
          skTempFileCreate env t = Some (t1, T + 1)
          /\ open_loop env pass t1
               (seqZ a (pass_bound L a T - a + 1))
               (opened_none (pass_bound L a T)) = Done o
          /\ tmp_idx_b o = b)
    /\ l ≡ₚ range_read env t a (b - a + 1)
    /\ l <> []
    /\ (comparator_ok L K ->
        (forall j, a <= j <= b ->
           StronglySorted (node_le L K) (default [] (tf_files t !! j))) ->
        StronglySorted (node_le L K) l)
    /\ tmp_idx_a s' = b + 1
    /\ tf_next t' = T + 2
    /\ (forall j, tf_files t' !! j
                  = if decide (a <= j <= b) then None
                    else if decide (j = T + 1)
                         then Some (if no_more then [] else l)
                         else tf_files t !! j)
    /\ no_more = (b =? T)
    /\ temp_file_idx s' = (if no_more then T else T + 1)
    /\ (if no_more
        then write_batch env l (out_rwios (mf_world s))
             = Done (out_rwios (mf_world s'))
        else out_rwios (mf_world s') = out_rwios (mf_world s)).
Proof.
  intros Hpass Hnext a T t t'. unfold merge_pass in Hpass.
  fold a T t in Hpass.
  destruct (skTempFileCreate env t) as [[t1 idx]|] eqn:Hcreate; [|done].
  assert (Hcreate0 := Hcreate).
  unfold skTempFileCreate in Hcreate.
  destruct (env_temp_create env (tf_next t)) eqn:Hc; [|done].
  injection Hcreate as <- <-. fold t T in Hnext.
  set (t1 := {| tf_files := <[tf_next t := []]> (tf_files t);
                tf_next := tf_next t + 1 |}) in *.
  set (b0 := pass_bound L a T) in *.
  inv_bind Hpass. rename x into o, Hx into Hopen.
  set (w1 := {| tmpctx := t1; out_rwios := out_rwios (mf_world s) |}).
  destruct (open_loop_spec L K env pass t1 w1 _ _ _ Hopen
              (opened_none_wf b0 w1))
    as (went & Hb & [Hwf Hlen] & Hpend & Hsorted).
  change (pending id (opened_state (opened_none b0) w1)) with (@nil node)
    in Hpend. simpl in Hpend.
  unfold merge_opened in Hpass. fold a T in Hpass.
  set (fpi := if tmp_idx_b o =? T then None else Some (tf_next t)) in *.
  inv_bind Hpass. rename x into m, Hx into Hloop.
  destruct (skHeapPeekTop L K (recs m) (heap m)) as [lowest|] eqn:Htop;
    [|done].
  inv_bind Hpass. rename x into w2, Hx into Hdrain.
  destruct (fclose_intermediate env fpi); [|done].
  injection Hpass as <- <-.
  destruct (merge_opened_writes fpi (opened_state o w1) w2 Hwf)
    as (l & Hemit & Hperm & Hne & Hsort).
  { unfold opened_state, w1. rewrite Hloop. simpl. by rewrite Htop. }
  set (b := tmp_idx_b o) in *.
  assert (Hb0 : b0 <= T) by apply pass_bound_le.
  assert (Hwent : went = seqZ a (b - a + 1) /\ b <= b0).
  { destruct Hb as [[-> Hb]|(j & rest & Hsplit & Hb & _)].
    - simpl in Hb. rewrite Hb. split; [done|lia].
    - assert (Hj := seqZ_middle _ _ _ _ _ Hsplit).
      assert (Hjin : j ∈ seqZ a (b0 - a + 1)).
      { rewrite Hsplit. set_solver. }
      apply elem_of_seqZ in Hjin.
      split; [|lia]. rewrite (seqZ_prefix _ _ _ _ Hsplit) at 1.
      f_equal. lia. }
  destruct Hwent as [-> HbT].
  assert (Hab : a <= b).
  { destruct (Z_le_gt_dec a b) as [|Hgt]; [done|].
    rewrite seqZ_nil in Hpend by lia. simpl in Hpend.
    rewrite Hpend in Hperm. by apply Permutation_nil_r in Hperm. }
  assert (Hfiles1 : forall j, j <> tf_next t ->
            tf_files t1 !! j = tf_files t !! j).
  { intros j Hj. unfold t1. simpl. by rewrite lookup_insert_ne. }
  assert (Hrange : pending id (opened_state o w1)
                   = range_read env t a (b - a + 1)).
  { rewrite Hpend. apply (range_read_ext env t t1).
    intros j Hj. apply Hfiles1. lia. }
  exists b, l.
  split; [lia|]. split; [done|].
  split; [exists t1, o; split; [|done]; by rewrite <- Hnext|].
  split; [by rewrite Hperm, Hrange|]. split; [done|].
  split.
  { intros Hcmp Hall. apply Hsort; [done|]. apply Hsorted.
    - intros i Hi. by apply elem_of_nil in Hi.
    - apply Forall_forall. intros j Hj%elem_of_seqZ.
      apply file_read_sorted. rewrite Hfiles1 by lia. apply Hall. lia. }
  split; [done|].
  assert (Hcases :
    tf_next (tmpctx w2) = tf_next t1
    /\ (forall j, tf_files (tmpctx w2) !! j
                  = if decide (j = tf_next t)
                    then Some (if b =? T then [] else l)
                    else tf_files t !! j)
    /\ (if b =? T
        then write_batch env l (out_rwios (mf_world s)) = Done (out_rwios w2)
        else out_rwios w2 = out_rwios (mf_world s))).
  { unfold fpi in Hemit. fold b.
    change (wld (opened_state o w1)) with w1 in Hemit.
    destruct (b =? T).
    - apply emit_all_final in Hemit as [-> Hout]. simpl in Hout.
      split; [done|]. split; [|done].
      intros j. unfold t1; simpl. rewrite lookup_insert.
      destruct (decide (tf_next t = j)) as [<-|Hnj].
      + by rewrite decide_True.
      + rewrite decide_False by done. done.
    - destruct (emit_all_intermediate env (tf_next t) l w1 w2 Hemit)
        as (Ho & Hn & Hother & Hidx).
      split; [done|]. split; [|done].
      intros j. destruct (decide (j = tf_next t)) as [->|Hnj].
      + rewrite (Hidx []); [done|]. unfold w1, t1; simpl.
        by rewrite lookup_insert_eq.
      + rewrite Hother by done. by apply Hfiles1. }
  destruct Hcases as (Hn2 & Hl2 & Hout2).
  subst t'. simpl.
  split; [rewrite remove_range_next, Hn2; unfold t1; simpl; lia|].
  split.
  { intros j. rewrite remove_range_lookup.
    destruct (decide (a <= j <= b)); [done|]. rewrite Hl2, Hnext.
    destruct (decide (j = T + 1)); done. }
  split; [done|].
  split; [destruct (b =? T); [done|by rewrite Hnext]|].
  destruct (b =? T); done.
Qed.

End MergePass.

(** ** Outcomes of a pass *)

Section PassOutcomes.
Variable L : limits.
Variable K : config.
Variable env : environment.

Lemma length_heap_remove i (h : list nat) :
  (length h <= S (length (heap_remove i h)))%nat.
Proof.
  induction h as [|j h IH]; simpl; [lia|].
  destruct (decide (i = j)); simpl; lia.
Qed.

(** The while loop of a pass does not empty a heap that holds a reader. *)
Lemma merge_loop_keeps_reader {item} (decode : item -> result node) fp fuel :
  forall m m' : merge_state,
    merge_loop L K env decode fp fuel m = Done m' ->
    heap m <> [] -> heap m' <> [].
Proof.
  induction fuel as [|fuel IH]; intros m m' Hloop Hne; simpl in Hloop.
  - destruct (length (heap m) <=? 1)%nat; [|done]. by injection Hloop as <-.
  - destruct (length (heap m) <=? 1)%nat eqn:Hlen;
      [by injection Hloop as <-|].
    apply Nat.leb_gt in Hlen.
    destruct (skHeapPeekTop L K (recs m) (heap m)) as [lowest|]; [|done].
    destruct (recs m !! lowest) as [n|]; [|done].
    destruct (fps m !! lowest) as [fpl|]; [|done].
    inv_bind Hloop. inv_bind Hloop.
    destruct x0 as [[n' fp']|]; apply IH in Hloop; try done; simpl.
    intros Hnil. pose proof (length_heap_remove lowest (heap m)) as Hr.
    rewrite Hnil in Hr. simpl in Hr. lia.
Qed.

Lemma open_loop_outcomes pass t js : forall o,
  match open_loop env pass t js o with
  | Done _ | Exit => True
  | _ => False
  end.
Proof.
  induction js as [|j js IH]; intros o; simpl; [done|].
  destruct (skTempFileOpen env pass t j) as [[|[n|] fp]|e];
    try apply IH; try done.
  by destruct ((0 <? open_count o) && no_resource e).
Qed.

(** A pass of mergeFiles completes, exits, or reaches the drain with an
    empty heap; the latter exactly when none of the temp files it opened
    had a record. *)
Lemma merge_opened_outcomes s t idx o :
  slots_wf (opened_state o {| tmpctx := t;
                              out_rwios := out_rwios (mf_world s) |}) ->
  match merge_opened L K env s t idx o with
  | Done _ | Exit => op_heap o <> []
  | Fault u => u = DrainEmptyHeap /\ op_heap o = []
  | Timeout => False
  end.
Proof.
  intros [Hwf _]. unfold merge_opened.
  set (fpi := if tmp_idx_b o =? temp_file_idx s then None else Some idx).
  set (m0 := {| recs := op_recs o; fps := op_fps o; heap := op_heap o;
                wld := {| tmpctx := t; out_rwios := out_rwios (mf_world s) |} |}).
  change (opened_state o _) with m0 in Hwf.
  pose proof (merge_loop_spec L K env Done id fpi
                (Done_decode_force) (Done_decode_total) (merge_fuel m0) m0 Hwf)
    as Hloop.
  specialize (Hloop (proj2 (length_pending id m0 Hwf))).
  destruct (merge_loop L K env Done fpi (merge_fuel m0) m0) as [m| | |] eqn:Hm;
    simpl; try done.
  2: { intros Hnil. unfold merge_fuel in Hm.
       change (heap m0) with (op_heap o) in Hm. rewrite Hnil in Hm.
       simpl in Hm. change (heap m0) with (op_heap o) in Hm.
       rewrite Hnil in Hm. done. }
  destruct Hloop as (l & _ & _ & Hwf' & Hlen & _).
  destruct (skHeapPeekTop L K (recs m) (heap m)) as [lowest|] eqn:Htop.
  - assert (Hne : op_heap o <> []).
    { intros Hnil. unfold merge_fuel in Hm.
      change (heap m0) with (op_heap o) in Hm. rewrite Hnil in Hm.
      simpl in Hm. change (heap m0) with (op_heap o) in Hm.
      rewrite Hnil in Hm. injection Hm as <-.
      simpl in Htop. by rewrite Hnil in Htop. }
    assert (Hheap : heap m = [lowest]).
    { apply skHeapPeekTop_elem in Htop. destruct (heap m) as [|i [|??]];
        simpl in Hlen; [by apply elem_of_nil in Htop| |lia].
      by apply list_elem_of_singleton in Htop as ->. }
    pose proof (drain_spec env Done id fpi Done_decode_force Done_decode_total
                  m lowest Hwf' Hheap) as Hdrain.
    destruct (drain env Done fpi lowest m); simpl; try done.
    by destruct (fclose_intermediate env fpi).
  - split; [done|]. apply skHeapPeekTop_None in Htop.
    destruct (decide (op_heap o = [])) as [|Hne]; [done|].
    exfalso. by apply (merge_loop_keeps_reader _ _ _ _ _ Hm).
Qed.

Lemma merge_pass_outcomes pass s :
  match merge_pass L K env pass s with
  | Fault u => u = DrainEmptyHeap
  | Timeout => False
  | _ => True
  end.
Proof.
  unfold merge_pass.
  destruct (skTempFileCreate env (tmpctx (mf_world s))) as [[t idx]|]; [|done].
  match goal with
  | |- context [open_loop env pass t ?js ?o0] =>
      pose proof (open_loop_outcomes pass t js o0) as Hopen;
      destruct (open_loop env pass t js o0) as [o| | |] eqn:Ho; try done
  end.
  simpl.
  destruct (open_loop_spec L K env pass t
              {| tmpctx := t; out_rwios := out_rwios (mf_world s) |}
              _ _ _ Ho (opened_none_wf _ _)) as (_ & _ & Hwf & _).
  pose proof (merge_opened_outcomes s t idx o Hwf) as Hout.
  destruct (merge_opened L K env s t idx o); try done. by destruct Hout.
Qed.
End PassOutcomes.

Lemma C3_open_failure_witness :
  exists o,
    open_loop emfile_once_env 0 (tmpctx two_runs) ([0] ++ 1 :: []) (opened_none 1)
      = Done o
    /\ tmp_idx_b o = 1 - 1 /\ 0 < open_count o.
Proof.
  apply (C3_open_failure emfile_once_env 0%nat (tmpctx two_runs) 1 [0] 1 []
           OpenNoResource).
  - constructor; [|constructor]. eexists. split; vm_compute; reflexivity.
  - vm_compute. reflexivity.
Defined.

(** What a failed fread does to a merge.  When the first fread of an
    opened temp file fails, mergeFiles exits.  A later fread that fails
    ends the reader as the end of the file does: on the temp files
    [1; 3] and [2], the second fread of the first file failing, the
    merge completes with the output [1; 2] and deletes both files,
    record 3 with them. *)
Lemma fread_error_ends_reader :
  mergeFiles small_limits (sport_config false false) (fread_error_env 0) 10 1
    two_runs = Exit
  /\ exists w,
       mergeFiles small_limits (sport_config false false) (fread_error_env 1)
         10 1 two_runs = Done w
       /\ out_recs (out_rwios w) = [rec_of 1; rec_of 2]
       /\ tf_files (tmpctx w) !! 0 = None
       /\ tf_files (tmpctx w) !! 1 = None.
Proof.
  split; [vm_compute; reflexivity|].
  eexists. split; [vm_compute; reflexivity|]. repeat split.
Qed.

(** C6: a pass of mergeFiles that completes settles on a bound b, the
    truncated tmp_idx_b of its opening loop.  When b is temp_file_idx,
    the last scheduled index, the pass reports no_more_temps, leaves the
    intermediate file it created empty and out of the schedule, and
    hands every merged record to the output writer; otherwise it writes
    every merged record to the intermediate file, leaves the output as
    it was, and makes the intermediate's index the new temp_file_idx.
    The merged records are those the pass read from the files a .. b: a
    file is read up to its end or up to the first fread that fails,
    which the pass takes for its end; when no fread of these files fails
    the merged records are the records of the files. *)
Theorem C6_pass_destination L K env pass s s' no_more :
  merge_pass L K env pass s = Done (s', no_more) ->
  tf_next (tmpctx (mf_world s)) = temp_file_idx s + 1 ->
  let a := tmp_idx_a s in
  let idx := tf_next (tmpctx (mf_world s)) in
  exists b merged t1 o,
    skTempFileCreate env (tmpctx (mf_world s)) = Some (t1, idx)
    /\ open_loop env pass t1
         (seqZ a (pass_bound L a (temp_file_idx s) - a + 1))
         (opened_none (pass_bound L a (temp_file_idx s))) = Done o
    /\ tmp_idx_b o = b
    /\ merged ≡ₚ range_read env (tmpctx (mf_world s)) a (b - a + 1)
    /\ ((forall j k, a <= j <= b -> env_temp_fread env j k = true) ->
        merged ≡ₚ range_nodes (tmpctx (mf_world s)) a (b - a + 1))
    /\ if b =? temp_file_idx s
       then no_more = true
            /\ temp_file_idx s' = temp_file_idx s
            /\ tf_files (tmpctx (mf_world s')) !! idx = Some []
            /\ write_batch env merged (out_rwios (mf_world s))
               = Done (out_rwios (mf_world s'))
       else no_more = false
            /\ temp_file_idx s' = idx
            /\ tf_files (tmpctx (mf_world s')) !! idx = Some merged
            /\ out_rwios (mf_world s') = out_rwios (mf_world s).
Proof.
  intros Hpass Hnext a idx.
  destruct (merge_pass_spec L K env pass s s' no_more Hpass Hnext)
    as (b & l & Hab & Hb0 & (t1 & o & Hcreate & Hopen & Hb) & Hperm & Hne
        & _ & Ha' & Hnext' & Hfiles & Hnm & Hidx & Hout).
  exists b, l, t1, o. unfold idx. rewrite Hnext.
  split; [done|]. split; [done|]. split; [done|]. split; [done|].
  split.
  { intros Hok. rewrite Hperm. rewrite range_read_all; [done|].
    intros j k Hj. apply Hok. fold a. lia. }
  specialize (Hfiles (temp_file_idx s + 1)).
  rewrite decide_False in Hfiles by (fold a; lia).
  rewrite decide_True in Hfiles by done.
  rewrite Hnm in *. destruct (b =? temp_file_idx s); done.
Qed.

Lemma C6_pass_destination_witness :
  exists s' merged,
    merge_pass small_limits (sport_config false false) (calm_env []) 0
      two_runs_state = Done (s', true)
    /\ tf_files (tmpctx (mf_world s')) !! 2 = Some []
    /\ write_batch (calm_env []) merged (out_rwios two_runs)
       = Done (out_rwios (mf_world s')).
Proof.
  eexists _. 
  assert (Hpass : merge_pass small_limits (sport_config false false)
                    (calm_env []) 0 two_runs_state
                  = Done (_, true)) by (vm_compute; reflexivity).
  destruct (C6_pass_destination small_limits (sport_config false false)
              (calm_env []) 0%nat two_runs_state _ true Hpass eq_refl)
    as (b & merged & t1 & o & Hcreate & Hopen & Hb & _ & _ & Hdest).
  exists merged. split; [exact Hpass|].
  assert (Hbv : b = 1).
  { vm_compute in Hcreate. injection Hcreate as <-.
    vm_compute in Hopen. injection Hopen as <-. by rewrite <- Hb. }
  rewrite Hbv in Hdest.
  change (1 =? temp_file_idx two_runs_state) with true in Hdest.
  cbv iota in Hdest. destruct Hdest as (_ & _ & Hint & Hout).
  split; [exact Hint|exact Hout].
Defined.

(** C7: a pass of mergeFiles that completes over the scheduled range
    a .. b, b its truncated bound, leaves no temp file with an index in
    a .. b -- whether it had records or was found empty -- and sets
    tmp_idx_a to b + 1.  The files scheduled after b, the one whose open
    failed among them, are still there as they were and stay scheduled.
    The files a .. b were consumed: what the pass read of them, each up
    to its end or up to the first fread that fails, went to the output
    when the pass was the last one and else makes up the intermediate
    file, whose index becomes the end of the schedule; when no fread of
    these files fails, that is every record they held. *)
Theorem C7_pass_cleanup L K env pass s s' no_more :
  merge_pass L K env pass s = Done (s', no_more) ->
  tf_next (tmpctx (mf_world s)) = temp_file_idx s + 1 ->
  let a := tmp_idx_a s in
  let T := temp_file_idx s in
  let files := tf_files (tmpctx (mf_world s)) in
  let files' := tf_files (tmpctx (mf_world s')) in
  exists b merged t1 o,
    skTempFileCreate env (tmpctx (mf_world s)) = Some (t1, T + 1)
    /\ open_loop env pass t1 (seqZ a (pass_bound L a T - a + 1))
         (opened_none (pass_bound L a T)) = Done o
    /\ tmp_idx_b o = b
    /\ a <= b <= T
    /\ (forall j, a <= j <= b -> files' !! j = None)
    /\ tmp_idx_a s' = b + 1
    /\ (forall j, b < j <= T -> files' !! j = files !! j)
    /\ merged ≡ₚ range_read env (tmpctx (mf_world s)) a (b - a + 1)
    /\ ((forall j k, a <= j <= b -> env_temp_fread env j k = true) ->
        merged ≡ₚ range_nodes (tmpctx (mf_world s)) a (b - a + 1))
    /\ (if no_more
        then b = T
             /\ write_batch env merged (out_rwios (mf_world s))
                = Done (out_rwios (mf_world s'))
        else temp_file_idx s' = T + 1
             /\ files' !! (T + 1) = Some merged
             /\ tmp_idx_a s' <= temp_file_idx s').
Proof.
  intros Hpass Hnext a T files files'.
  destruct (merge_pass_spec L K env pass s s' no_more Hpass Hnext)
    as (b & l & Hab & Hb0 & (t1 & o & Hcreate & Hopen & Hb) & Hperm & Hne
        & _ & Ha' & Hnext' & Hfiles & Hnm & Hidx & Hout).
  fold a T in Hab, Hcreate, Hopen, Hperm, Hfiles, Hnm, Hidx.
  exists b, l, t1, o.
  split; [done|]. split; [done|]. split; [done|]. split; [done|].
  split.
  { intros j Hj. unfold files'. rewrite Hfiles. by rewrite decide_True. }
  split; [done|]. split.
  { intros j Hj. unfold files', files. rewrite Hfiles.
    rewrite decide_False by lia. by rewrite decide_False by lia. }
  split; [done|].
  split.
  { intros Hok. rewrite Hperm. rewrite range_read_all; [done|].
    intros j k Hj. apply Hok. lia. }
  destruct no_more.
  - split; [|done]. symmetry in Hnm. apply Z.eqb_eq in Hnm. done.
  - split; [done|]. split; [|lia].
    unfold files'. rewrite Hfiles. rewrite decide_False by lia.
    by rewrite decide_True.
Qed.

Lemma C7_pass_cleanup_witness :
  exists s',
    merge_pass small_limits (sport_config false false) emfile_once_env 0
      two_runs_state = Done (s', false)
    /\ tf_files (tmpctx (mf_world s')) !! 0 = None
    /\ tmp_idx_a s' = 1
    /\ tf_files (tmpctx (mf_world s')) !! 1 = Some [node_of 2].
Proof.
  eexists _.
  assert (Hpass : merge_pass small_limits (sport_config false false)
                    emfile_once_env 0 two_runs_state
                  = Done (_, false)) by (vm_compute; reflexivity).
  destruct (C7_pass_cleanup small_limits (sport_config false false)
              emfile_once_env 0%nat two_runs_state _ false Hpass eq_refl)
    as (b & merged & t1 & o & Hcreate & Hopen & Hb & Hab & Hdel & Ha & Hkeep & _).
  assert (Hbv : b = 0).
  { vm_compute in Hcreate. injection Hcreate as <-.
    vm_compute in Hopen. injection Hopen as <-. by rewrite <- Hb. }
  rewrite Hbv in Hdel, Ha, Hkeep. split; [exact Hpass|].
  split; [apply Hdel; simpl; lia|]. split; [exact Ha|].
  rewrite Hkeep by (simpl; lia). reflexivity.
Defined.

(** C10: the claim fails on the code.  Started on two temp files that
    are both empty, the first pass of mergeFiles opens both, seeds no
    reader, and reaches the extraction of the remaining reader with an
    empty heap: the drain that follows runs on an index the heap never
    held.  rwsort gets there from four empty presorted inputs when at
    most three readers may be open. *)
Theorem C10_drain_on_empty_heap :
  (exists o,
     open_loop (calm_env []) 0 (tmpctx two_empty_runs) [0; 1] (opened_none 1)
       = Done o
     /\ op_heap o = [] /\ open_count o = 0)
  /\ mergeFiles small_limits (sport_config false true) (calm_env []) 10 1
       two_empty_runs = Fault DrainEmptyHeap
  /\ rwsort_main small_limits (sport_config false true)
       (calm_env [[]; []; []; []]) 10 = Fault DrainEmptyHeap.
Proof.
  split; [eexists; split; [vm_compute; reflexivity|split; reflexivity]|].
  split; vm_compute; reflexivity.
Qed.

(** ** skQSort *)

Section QSortFacts.
Variable L : limits.
Variable K : config.

Lemma qsort_insert_perm x l : qsort_insert L K x l ≡ₚ x :: l.
Proof.
  induction l as [|y l IH]; simpl; [done|].
  destruct (compare_nodes L K x y <=? 0); [done|].
  rewrite IH. apply Permutation_swap.
Qed.

Lemma skQSort_perm l : skQSort L K l ≡ₚ l.
Proof.
  induction l as [|x l IH]; simpl; [done|].
  by rewrite qsort_insert_perm, IH.
Qed.

Hypothesis Hcmp : comparator_ok L K.

Lemma qsort_insert_sorted x l :
  StronglySorted (node_le L K) l ->
  StronglySorted (node_le L K) (qsort_insert L K x l).
Proof.
  induction l as [|y l IH]; intros Hs; simpl.
  - repeat constructor.
  - apply StronglySorted_inv in Hs as [Hs Hall].
    destruct (compare_nodes L K x y <=? 0) eqn:Hle.
    + apply Z.leb_le in Hle. constructor; [by constructor|].
      constructor; [done|]. rewrite Forall_forall in Hall |- *.
      intros z Hz. eapply (cmp_trans L K Hcmp); [exact Hle|by apply Hall].
    + apply Z.leb_gt in Hle. constructor; [by apply IH|].
      rewrite Forall_forall in Hall |- *. intros z Hz.
      rewrite qsort_insert_perm in Hz. apply elem_of_cons in Hz as [->|Hz].
      * apply (cmp_antisym L K Hcmp). lia.
      * by apply Hall.
Qed.

Lemma skQSort_sorted l : StronglySorted (node_le L K) (skQSort L K l).
Proof.
  induction l as [|x l IH]; simpl; [constructor|].
  by apply qsort_insert_sorted.
Qed.
End QSortFacts.

(** ** Reading records *)

Section FillFacts.
Variable L : limits.
Variable K : config.

Lemma fill_keys_cases keys r : forall buf,
  fill_keys L keys r buf = Exit \/ exists b, fill_keys L keys r buf = Done b.
Proof.
  induction keys as [|k keys IH]; intros buf; simpl; [eauto|].
  destruct (pf_rec_to_bin (kf_field_handle k) r) as [err bytes].
  destruct (negb (err =? SKPLUGIN_OK)); [by left|]. apply IH.
Qed.

Lemma fill_record_total r :
  fill_record L K r = Exit \/ exists n, fill_record L K r = Done n.
Proof.
  unfold fill_record.
  destruct (fill_keys_cases (key_fields K) r
              (replicate (Z.to_nat (node_size K - sizeof_rwRec L)) 0))
    as [->|[b ->]]; simpl; eauto.
Qed.

Lemma fill_record_force r n :
  fill_record L K r = Done n -> node_of_record L K r = n.
Proof. unfold node_of_record. by intros ->. Qed.

Lemma n_rec_node_of_record r : n_rec (node_of_record L K r) = r.
Proof.
  unfold node_of_record. destruct (fill_record L K r) as [n| | |] eqn:Hf;
    try done.
  unfold fill_record in Hf. inv_bind Hf. by injection Hf as <-.
Qed.


(** A node that came out of fillRecordAndKey is the node of its
    record. *)
Lemma node_of_record_stream l s x :
  l ≡ₚ stream_nodes L K s -> x ∈ l -> node_of_record L K (n_rec x) = x.
Proof.
  intros Hp Hx. rewrite Hp in Hx. unfold stream_nodes in Hx.
  apply list_elem_of_In, in_map_iff in Hx as (r & <- & _).
  by rewrite n_rec_node_of_record.
Qed.
End FillFacts.

(** ** mergeFiles *)

Section MergeFilesFacts.
Variable L : limits.
Variable K : config.
Variable env : environment.

(** Whatever the passes mergeFiles needs, when it returns it has handed
    to the output writer nodes of the temp files it was given, each at
    most once and in order when these files are sorted runs; it has
    handed over every node when no fread of a temp file fails. *)
Lemma mergeFiles_loop_spec fuel : forall pass s w all,
  mergeFiles_loop L K env fuel pass s = Done w ->
  tf_next (tmpctx (mf_world s)) = temp_file_idx s + 1 ->
  range_nodes (tmpctx (mf_world s)) (tmp_idx_a s)
    (temp_file_idx s - tmp_idx_a s + 1) ≡ₚ all ->
  exists l,
    l ⊆+ all
    /\ (temp_reads_ok env -> l ≡ₚ all)
    /\ (comparator_ok L K ->
        files_sorted L K (tmpctx (mf_world s)) (tmp_idx_a s) (temp_file_idx s) ->
        StronglySorted (node_le L K) l)
    /\ write_batch env l (out_rwios (mf_world s)) = Done (out_rwios w).
Proof.
  induction fuel as [|fuel IH]; intros pass s w all Hrun Hnext Hall;
    [done|].
  simpl in Hrun. inv_bind Hrun. destruct x as [s' no_more].
  destruct (merge_pass_spec L K env pass s s' no_more Hx Hnext)
    as (b & l & Hab & Hb0 & _ & Hperm & Hne & Hsort & Ha' & Hnext' & Hfiles
        & Hnm & Hidx & Hout).
  set (a := tmp_idx_a s) in *. set (T := temp_file_idx s) in *.
  set (t := tmpctx (mf_world s)) in *.
  destruct no_more.
  - (* the last pass *)
    injection Hrun as <-. symmetry in Hnm. apply Z.eqb_eq in Hnm.
    exists l. rewrite Hnm in Hperm.
    split; [rewrite Hperm, <- Hall; apply range_read_submseteq|].
    split.
    { intros Hok. rewrite Hperm, <- Hall. rewrite range_read_all; [done|].
      intros j k _. apply Hok. }
    split; [|done]. intros Hcmp Hfs. apply Hsort; [done|].
    intros j Hj. apply Hfs. lia.
  - (* a pass into the intermediate file *)
    symmetry in Hnm. apply Z.eqb_neq in Hnm.
    assert (Hsame : forall j, b < j <= T ->
              tf_files (tmpctx (mf_world s')) !! j = tf_files t !! j).
    { intros j Hj. rewrite Hfiles. rewrite decide_False by lia.
      by rewrite decide_False by lia. }
    assert (Hint : tf_files (tmpctx (mf_world s')) !! (T + 1) = Some l).
    { rewrite Hfiles. rewrite decide_False by lia. by rewrite decide_True. }
    assert (Hnew : range_nodes (tmpctx (mf_world s')) (tmp_idx_a s')
                     (temp_file_idx s' - tmp_idx_a s' + 1)
                   = range_nodes t (b + 1) (T - b) ++ l).
    { rewrite Hidx, Ha'.
      replace (T + 1 - (b + 1) + 1) with ((T - b) + 1) by lia.
      rewrite range_nodes_app by lia.
      replace (b + 1 + (T - b)) with (T + 1) by lia.
      rewrite (range_nodes_one _ _ _ Hint).
      by rewrite (range_nodes_ext t) by (intros j Hj; apply Hsame; lia). }
    assert (Hold : all ≡ₚ range_nodes t (b + 1) (T - b)
                          ++ range_nodes t a (b - a + 1)).
    { rewrite <- Hall.
      replace (T - a + 1) with ((b - a + 1) + (T - b)) by lia.
      rewrite range_nodes_app by lia.
      replace (a + (b - a + 1)) with (b + 1) by lia.
      apply Permutation_app_comm. }
    destruct (IH (S pass) s' w (range_nodes t (b + 1) (T - b) ++ l) Hrun)
      as (l' & Hsub' & Hl' & Hsort' & Hout');
      [rewrite Hidx, Hnext'; lia|by rewrite Hnew|].
    exists l'. split; [|split; [|split]].
    + etrans; [exact Hsub'|]. rewrite Hold, Hperm.
      apply submseteq_skips_l, range_read_submseteq.
    + intros Hok. rewrite (Hl' Hok), Hold, Hperm.
      rewrite range_read_all; [done|]. intros j k _. apply Hok.
    + intros Hcmp Hfs. apply Hsort'; [done|].
      intros j Hj. rewrite Hidx, Ha' in Hj.
      destruct (decide (j = T + 1)) as [->|Hj'].
      * rewrite Hint. simpl. apply Hsort; [done|].
        intros i Hi. apply Hfs. lia.
      * rewrite Hsame by lia. apply Hfs. lia.
    + by rewrite <- Hout.
Qed.
End MergeFilesFacts.

(** ** sortRandom *)

Section RandomFacts.
Variable L : limits.
Variable K : config.
Variable env : environment.

Lemma skTempFileWriteBuffer_spec t buf t' idx :
  skTempFileWriteBuffer env t buf = Some (t', idx) ->
  idx = tf_next t
  /\ t' = {| tf_files := <[tf_next t := buf]> (tf_files t);
             tf_next := tf_next t + 1 |}.
Proof.
  unfold skTempFileWriteBuffer.
  destruct (env_temp_create env (tf_next t)); [|done].
  by intros [= <- <-].
Qed.

Lemma spill_buffer_inv s s' seen :
  spill_buffer L K env s = Done s' ->
  random_inv L K s seen ->
  random_inv L K s' seen /\ record_buffer s' = [].
Proof.
  unfold spill_buffer. intros Hspill (Hnext & Hidx & Hperm & Hsorted).
  destruct (skTempFileWriteBuffer env (rnd_tmpctx s)
              (skQSort L K (record_buffer s))) as [[t' idx]|] eqn:Hw;
    [|done].
  injection Hspill as <-. simpl.
  apply skTempFileWriteBuffer_spec in Hw as [-> ->].
  set (t := rnd_tmpctx s) in *. set (i := rnd_temp_file_idx s) in *.
  rewrite Hnext.
  assert (Hold : forall j, j <= i ->
            <[i + 1 := skQSort L K (record_buffer s)]> (tf_files t) !! j
            = tf_files t !! j).
  { intros j Hj. rewrite lookup_insert_ne; [done|lia]. }
  split; [|done]. unfold random_inv; simpl.
  split; [done|]. split; [lia|]. split.
  - rewrite app_nil_r.
    rewrite range_nodes_app by lia. rewrite Z.add_0_l.
    rewrite (range_nodes_one _ (i + 1) (skQSort L K (record_buffer s)))
      by (simpl; apply lookup_insert_eq).
    rewrite (range_nodes_ext t) by (intros j Hj; simpl; apply Hold; lia).
    by rewrite skQSort_perm.
  - intros Hcmp j Hj. simpl.
    destruct (decide (j = i + 1)) as [->|Hne].
    + rewrite lookup_insert_eq. simpl. by apply skQSort_sorted.
    + rewrite lookup_insert_ne by done. apply Hsorted; [done|lia].
Qed.

Lemma grow_buffer_same chunk s :
  record_buffer (grow_buffer K env chunk s) = record_buffer s
  /\ rnd_tmpctx (grow_buffer K env chunk s) = rnd_tmpctx s
  /\ rnd_temp_file_idx (grow_buffer K env chunk s) = rnd_temp_file_idx s.
Proof. unfold grow_buffer. by destruct (env_realloc env _). Qed.

Lemma random_inv_ext s s' seen :
  record_buffer s' = record_buffer s -> rnd_tmpctx s' = rnd_tmpctx s ->
  rnd_temp_file_idx s' = rnd_temp_file_idx s ->
  random_inv L K s seen -> random_inv L K s' seen.
Proof. unfold random_inv. by intros -> -> ->. Qed.

Lemma store_record_inv chunk n s s' seen :
  store_record L K env chunk n s = Done s' ->
  random_inv L K s seen -> random_inv L K s' (seen ++ [n]).
Proof.
  unfold store_record. intros Hstore Hinv.
  destruct (negb _); [done|].
  match type of Hstore with
  | context [record_count ?x =? buffer_recs ?x] => set (s1 := x) in *
  end.
  assert (Hinv1 : random_inv L K s1 (seen ++ [n])).
  { destruct Hinv as (Hnext & Hidx & Hperm & Hsorted).
    unfold random_inv, s1; simpl. split; [done|]. split; [done|].
    split; [|done]. by rewrite app_assoc, Hperm. }
  destruct (record_count s1 =? buffer_recs s1); [|by injection Hstore as <-].
  match type of Hstore with
  | context [record_count ?x =? buffer_max_recs ?x] => set (s2 := x) in *
  end.
  assert (Hinv2 : random_inv L K s2 (seen ++ [n])).
  { unfold s2. destruct (buffer_recs s1 <? buffer_max_recs s1); [|done].
    destruct (grow_buffer_same chunk s1) as (Hb & Ht & Hi).
    by apply (random_inv_ext s1). }
  destruct (record_count s2 =? buffer_max_recs s2);
    [|by injection Hstore as <-].
  by apply (spill_buffer_inv s2).
Qed.

Lemma read_stream_inv chunk rwios : forall s s' seen,
  read_stream L K env chunk rwios s = Done s' ->
  random_inv L K s seen ->
  random_inv L K s' (seen ++ stream_nodes L K (delivered rwios)).
Proof.
  induction rwios as [|[r|] rwios IH]; intros s s' seen Hread Hinv;
    simpl in Hread.
  - injection Hread as <-. simpl. by rewrite app_nil_r.
  - inv_bind Hread. rename x into n, Hx into Hfill.
    inv_bind Hread. rename x into s1, Hx into Hstore.
    apply fill_record_force in Hfill.
    apply (store_record_inv _ _ _ _ seen) in Hstore; [|done].
    apply (IH _ _ _ Hread) in Hstore.
    simpl. rewrite Hfill. by rewrite <- app_assoc in Hstore.
  - injection Hread as <-. simpl. by rewrite app_nil_r.
Qed.

Lemma read_inputs_inv chunk inputs : forall i s s' seen,
  read_inputs L K env chunk i inputs s = Done s' ->
  random_inv L K s seen ->
  random_inv L K s' (seen ++ stream_nodes L K (inputs_read env i inputs)).
Proof.
  induction inputs as [|rwios inputs IH]; intros i s s' seen Hread Hinv;
    simpl in Hread.
  - injection Hread as <-. simpl. by rewrite app_nil_r.
  - destruct (env_input_open env 0 i); try done.
    inv_bind Hread. rename x into s1, Hx into Hstream.
    apply (read_stream_inv _ _ _ _ seen) in Hstream; [|done].
    apply (IH _ _ _ _ Hread) in Hstream.
    simpl. unfold stream_nodes, input_read in *. rewrite map_app.
    by rewrite <- app_assoc in Hstream.
Qed.

Lemma write_batch_nil o : write_batch env [] o = Done o.
Proof. reflexivity. Qed.

(** sortRandom hands over every record it read. *)
Lemma sortRandom_spec fuel w idx w' :
  sortRandom L K env fuel w = Done (idx, w') ->
  tf_next (tmpctx w) = 0 ->
  exists l,
    l ≡ₚ stream_nodes L K (records_read env)
    /\ handed_over L K env (out_rwios w) (comparator_ok L K) l idx w'.
Proof.
  unfold sortRandom. intros Hsort Hnext.
  inv_bind Hsort. destruct x as [chunk nchunks]. clear Hx.
  inv_bind Hsort. rename x into s, Hx into Hread.
  apply (read_inputs_inv _ _ _ _ _ []) in Hread.
  2: { unfold random_inv; simpl. rewrite Hnext.
       split; [done|]. split; [done|]. split; [done|].
       intros _ j Hj. lia. }
  simpl in Hread. fold (records_read env) in Hread.
  destruct (0 <? record_count s) eqn:Hcount.
  - destruct (0 <=? rnd_temp_file_idx s) eqn:Hidx.
    + (* the last batch goes to a temp file *)
      inv_bind Hsort. rename x into s', Hx into Hspill.
      injection Hsort as <- <-.
      destruct (spill_buffer_inv _ _ _ Hspill Hread)
        as [(Hn & Hi & Hp & Hs) Hbuf].
      rewrite Hbuf, app_nil_r in Hp.
      exists (range_nodes (rnd_tmpctx s') 0 (rnd_temp_file_idx s' + 1)).
      split; [done|]. right. simpl.
      assert (0 <= rnd_temp_file_idx s'); [|done].
      unfold spill_buffer in Hspill.
      destruct (skTempFileWriteBuffer _ _ _) as [[t' i']|] eqn:Hw; [|done].
      injection Hspill as <-. simpl.
      apply skTempFileWriteBuffer_spec in Hw as [-> _].
      destruct Hread as (Hn0 & _). apply Z.leb_le in Hidx. lia.
    + (* no temp file was written: the batch goes to the output *)
      inv_bind Hsort. rename x into o, Hx into Hbatch.
      injection Hsort as <- <-.
      destruct Hread as (Hn & Hi & Hp & Hs).
      apply Z.leb_gt in Hidx.
      assert (Hm1 : rnd_temp_file_idx s = -1) by lia.
      rewrite Hm1 in Hp. change (range_nodes _ 0 (-1 + 1)) with (@nil node) in Hp.
      simpl in Hp.
      exists (skQSort L K (record_buffer s)).
      split; [by rewrite skQSort_perm|]. left. simpl.
      split; [done|]. split; [done|]. intros Hcmp. by apply skQSort_sorted.
  - (* the buffer is empty *)
    injection Hsort as <- <-.
    destruct Hread as (Hn & Hi & Hp & Hs).
    assert (Hbuf : record_buffer s = []).
    { apply Z.ltb_ge in Hcount. unfold record_count in Hcount.
      destruct (record_buffer s); [done|]. simpl in Hcount. lia. }
    rewrite Hbuf, app_nil_r in Hp.
    exists (range_nodes (rnd_tmpctx s) 0 (rnd_temp_file_idx s + 1)).
    split; [done|].
    destruct (decide (rnd_temp_file_idx s = -1)) as [Hm1|Hne].
    + left. rewrite Hm1. simpl. split; [done|]. split; [done|].
      intros _. constructor.
    + right. simpl. split; [lia|]. done.
Qed.
End RandomFacts.

(** ** sortPresorted *)

Section PresortedFacts.
Variable L : limits.
Variable K : config.
Variable env : environment.

Abbreviation sorted_stream :=
  (fun s : list rwRec => StronglySorted (node_le L K) (stream_nodes L K s)).

Lemma input_readers_read inputs : forall i,
  concat (map delivered (input_readers env i inputs)) = inputs_read env i inputs.
Proof.
  induction inputs as [|s inputs IH]; intros i; simpl; [done|].
  by rewrite IH.
Qed.

Lemma input_readers_app pre rest : forall i,
  input_readers env i (pre ++ rest)
  = input_readers env i pre ++ input_readers env (i + length pre) rest.
Proof.
  induction pre as [|s pre IH]; intros i; simpl.
  - by rewrite Nat.add_0_r.
  - rewrite IH. do 3 f_equal. lia.
Qed.

Lemma inputs_read_app pre rest i :
  inputs_read env i (pre ++ rest)
  = inputs_read env i pre ++ inputs_read env (i + length pre) rest.
Proof.
  rewrite <- !input_readers_read, input_readers_app.
  by rewrite map_app, concat_app.
Qed.

(** When no read of an input fails, the records read are the records of
    the inputs. *)
Lemma inputs_read_all inputs : forall i,
  input_reads_ok env -> inputs_read env i inputs = concat inputs.
Proof.
  induction inputs as [|s inputs IH]; intros i Hok; simpl; [done|].
  rewrite IH by done. f_equal. apply delivered_all. intros k. apply Hok.
Qed.


Lemma input_readers_sorted inputs : forall i,
  Forall sorted_stream inputs ->
  Forall (fun fp => StronglySorted (node_le L K)
                      (stream_nodes L K (delivered fp)))
    (input_readers env i inputs).
Proof.
  induction inputs as [|s inputs IH]; intros i Hall; simpl; [done|].
  apply Forall_cons in Hall as [Hs Hall]. constructor; [|by apply IH].
  by apply delivered_sorted.
Qed.

(** The streams a pass opens are the next inputs, in order; rv is 1
    only when no input is left. *)
Lemma open_inputs_spec pass n : forall i inputs acc rv rwios i' rest,
  open_inputs env pass n i inputs acc = (rv, rwios, i', rest) ->
  exists pre, rwios = acc ++ input_readers env i pre
              /\ inputs = pre ++ rest
              /\ i' = (i + length pre)%nat
              /\ (rv = 1 -> rest = []).
Proof.
  induction n as [|n IH]; intros i inputs acc rv rwios i' rest; simpl.
  - intros [= <- <- <- <-]. exists []. simpl.
    by rewrite app_nil_r, Nat.add_0_r.
  - unfold appNextInput. destruct inputs as [|s inputs].
    + intros [= <- <- <- <-]. exists []. simpl.
      by rewrite app_nil_r, Nat.add_0_r.
    + destruct (env_input_open env pass i).
      * intros Hopen. simpl in Hopen.
        destruct (IH _ _ _ _ _ _ _ Hopen) as (pre & -> & -> & -> & Hrv).
        exists (s :: pre). simpl. rewrite <- app_assoc.
        split; [done|]. split; [done|]. split; [lia|done].
      * intros [= <- <- <- <-]. exists []. simpl.
        by rewrite app_nil_r, Nat.add_0_r.
      * intros [= <- <- <- <-]. exists []. simpl.
        by rewrite app_nil_r, Nat.add_0_r.
Qed.

(** When every open succeeds and fewer inputs are left than readers are
    allowed, a pass opens them all and learns that none is left. *)
Lemma open_inputs_all pass n : forall i inputs acc,
  (forall j, env_input_open env pass j = OpenOk) ->
  (length inputs < n)%nat ->
  open_inputs env pass n i inputs acc
  = (1, acc ++ input_readers env i inputs, (i + length inputs)%nat, []).
Proof.
  induction n as [|n IH]; intros i inputs acc Hok Hlen; [lia|]. simpl.
  unfold appNextInput. destruct inputs as [|s inputs].
  - simpl. by rewrite app_nil_r, Nat.add_0_r.
  - rewrite Hok. simpl. rewrite IH by (simpl in Hlen; done || lia).
    rewrite <- app_assoc. simpl. do 2 f_equal. lia.
Qed.

Lemma seed_heap_spec rwios : forall m m',
  seed_heap L K rwios m = Done m' ->
  slots_wf m ->
  slots_wf m' /\ wld m' = wld m
  /\ pending (node_of_record L K) m'
     = pending (node_of_record L K) m
       ++ stream_nodes L K (concat (map delivered rwios))
  /\ (runs_sorted (node_of_record L K) L K m ->
      Forall (fun fp => StronglySorted (node_le L K)
                          (stream_nodes L K (delivered fp))) rwios ->
      runs_sorted (node_of_record L K) L K m').
Proof.
  induction rwios as [|s rwios IH]; intros m m' Hseed Hwf; simpl in Hseed.
  - injection Hseed as <-. simpl. by rewrite app_nil_r.
  - inv_bind Hseed. rename x into r, Hx into Hfill.
    unfold fillRecordAndKey, read_next in Hfill.
    assert (Hnone : delivered s = [] -> r = None ->
              slots_wf m' /\ wld m' = wld m
              /\ pending (node_of_record L K) m'
                 = pending (node_of_record L K) m
                   ++ stream_nodes L K (concat (map delivered (s :: rwios)))
              /\ (runs_sorted (node_of_record L K) L K m ->
                  Forall (fun fp => StronglySorted (node_le L K)
                                      (stream_nodes L K (delivered fp)))
                    (s :: rwios) ->
                  runs_sorted (node_of_record L K) L K m')).
    { intros Hend ->.
      destruct (skip_slot L K (node_of_record L K) m zero_node s (wld m) Hwf)
        as (Hwf1 & Hp1 & Hs1).
      destruct (IH _ _ Hseed Hwf1) as (Hwf' & Hw & Hp & Hs).
      split; [done|]. split; [done|]. split.
      * rewrite Hp, Hp1. simpl. by rewrite Hend.
      * intros Hs0 Hall. apply Forall_cons in Hall as [_ Hall]. auto. }
    destruct s as [|[rec|] s'].
    + injection Hfill as <-. by apply Hnone.
    + inv_bind Hfill. rename x into n, Hx into Hrec.
      injection Hfill as <-. apply fill_record_force in Hrec.
      destruct (add_slot L K (node_of_record L K) m n s' (wld m) Hwf)
        as (Hwf1 & Hp1 & Hs1).
      destruct (IH _ _ Hseed Hwf1) as (Hwf' & Hw & Hp & Hs).
      split; [done|]. split; [done|]. split.
      * rewrite Hp, Hp1. simpl. unfold stream_nodes. rewrite map_app. simpl.
        rewrite Hrec. by rewrite <- !app_assoc.
      * intros Hs0 Hall. apply Forall_cons in Hall as [Hrun Hall].
        apply Hs; [|done]. apply Hs1; [done|].
        unfold stream_nodes in Hrun. simpl in Hrun. by rewrite Hrec in Hrun.
    + injection Hfill as <-. by apply Hnone.
Qed.

(** What the heap loop and the drain of a pass of sortPresorted write:
    the nodes of its readers, every one of them, in order when the
    readers are. *)
Lemma presorted_merge_writes fp_intermediate (m0 m : merge_state) w' :
  merge_wf m0 ->
  merge_loop L K env (fill_record L K) fp_intermediate (merge_fuel m0) m0
    = Done m ->
  match skHeapPeekTop L K (recs m) (heap m) with
  | Some lowest => drain env (fill_record L K) fp_intermediate lowest m
  | None => Done (wld m)
  end = Done w' ->
  exists l,
    emit_all env fp_intermediate l (wld m0) = Done w'
    /\ l ≡ₚ pending (node_of_record L K) m0
    /\ (comparator_ok L K -> runs_sorted (node_of_record L K) L K m0 ->
        StronglySorted (node_le L K) l).
Proof.
  intros Hwf Hloop Hrun.
  pose proof (merge_loop_spec L K env (fill_record L K) (node_of_record L K)
                fp_intermediate (fill_record_force L K)
                (fill_record_total L K) (merge_fuel m0) m0 Hwf) as Hspec.
  specialize (Hspec (proj2 (length_pending _ m0 Hwf))).
  rewrite Hloop in Hspec.
  destruct Hspec as (l1 & Hemit & Hperm & Hwf' & Hlen & Hord).
  destruct (skHeapPeekTop L K (recs m) (heap m)) as [lowest|] eqn:Htop.
  - assert (Hheap : heap m = [lowest]).
    { apply skHeapPeekTop_elem in Htop. destruct (heap m) as [|i [|??]];
        simpl in Hlen; [by apply elem_of_nil in Htop| |lia].
      by apply list_elem_of_singleton in Htop as ->. }
    pose proof (drain_spec env (fill_record L K) (node_of_record L K)
                  fp_intermediate (fill_record_force L K)
                  (fill_record_total L K) m lowest Hwf' Hheap) as Hdrain.
    rewrite Hrun in Hdrain.
    exists (l1 ++ pending (node_of_record L K) m).
    split; [by rewrite emit_all_app, Hemit|]. split; [done|].
    intros Hcmp Hsorted. destruct (Hord Hcmp Hsorted) as (Hl1 & Hbelow & Hs').
    apply StronglySorted_app_2; [done|done|].
    unfold pending. rewrite Hheap. simpl. rewrite app_nil_r.
    apply Hs'. rewrite Hheap. set_solver.
  - injection Hrun as <-. apply skHeapPeekTop_None in Htop.
    assert (Hnil : pending (node_of_record L K) m = []).
    { unfold pending. by rewrite Htop. }
    rewrite Hnil, app_nil_r in Hperm.
    exists l1. split; [done|]. split; [done|].
    intros Hcmp Hsorted. by destruct (Hord Hcmp Hsorted).
Qed.

(** What one pass of sortPresorted does: it merges what it reads of the
    inputs it could open into the output, when it is the first pass and
    learnt that no input is left, or else into the temp file it
    created. *)
Lemma presorted_pass_spec pass s s' idx' no_more :
  presorted_pass L K env pass s = Done (s', idx', no_more) ->
  let t := tmpctx (ps_world s) in
  let T0 := tf_next t in
  exists opened l,
    ps_inputs s = opened ++ ps_inputs s'
    /\ ps_next s' = (ps_next s + length opened)%nat
    /\ (no_more = true -> ps_inputs s' = [])
    /\ l ≡ₚ stream_nodes L K (inputs_read env (ps_next s) opened)
    /\ (comparator_ok L K -> Forall sorted_stream opened ->
        StronglySorted (node_le L K) l)
    /\ if no_more && (T0 =? 0)
       then idx' = -1
            /\ tmpctx (ps_world s')
               = {| tf_files := <[T0 := []]> (tf_files t); tf_next := T0 + 1 |}
            /\ write_batch env l (out_rwios (ps_world s))
               = Done (out_rwios (ps_world s'))
       else idx' = T0
            /\ tf_next (tmpctx (ps_world s')) = T0 + 1
            /\ (forall j, tf_files (tmpctx (ps_world s')) !! j
                          = if decide (j = T0) then Some l
                            else tf_files t !! j)
            /\ out_rwios (ps_world s') = out_rwios (ps_world s).
Proof.
  intros Hpass t T0. unfold presorted_pass in Hpass. fold t in Hpass.
  unfold skTempFileCreate in Hpass. fold T0 in Hpass.
  destruct (env_temp_create env T0); [|done].
  set (t1 := {| tf_files := <[T0 := []]> (tf_files t); tf_next := T0 + 1 |})
    in *.
  destruct (open_inputs env pass (Z.to_nat (MAX_MERGE_FILES L)) (ps_next s)
              (ps_inputs s) []) as [[[rv rwios] i'] inputs'] eqn:Hopen.
  destruct (open_inputs_spec _ _ _ _ _ _ _ _ _ Hopen)
    as (opened & Hrw & Hin & Hi' & Hrv). simpl in Hrw. subst rwios.
  inv_bind Hpass. destruct x as [[nm fpi] ti]. rename Hx into Hsel.
  assert (Hlen : length (input_readers env (ps_next s) opened)
                 = length opened).
  { clear. generalize (ps_next s).
    induction opened as [|o opened IH]; intros i; simpl; [done|].
    by rewrite IH. }
  assert (Hcases :
    (nm = true /\ rv = 1 /\ T0 = 0 /\ fpi = None /\ ti = -1)
    \/ (nm && (T0 =? 0) = false /\ (nm = true -> rv = 1)
        /\ fpi = Some T0 /\ ti = T0)).
  { destruct (rv =? 1) eqn:H1.
    - apply Z.eqb_eq in H1. destruct (T0 =? 0) eqn:H0.
      + apply Z.eqb_eq in H0. injection Hsel as <- <- <-. by left.
      + injection Hsel as <- <- <-. right. done.
    - destruct (rv =? -1); [done|].
      destruct (rv =? -2); [injection Hsel as <- <- <-; by right|].
      destruct (rv =? 0); [|done].
      destruct (Z.of_nat (length _) =? MAX_MERGE_FILES L); [|done].
      injection Hsel as <- <- <-. by right. }
  clear Hsel.
  inv_bind Hpass. rename x into m0, Hx into Hseed.
  set (w1 := {| tmpctx := t1; out_rwios := out_rwios (ps_world s) |}) in *.
  destruct (seed_heap_spec _ _ _ Hseed) as ([Hwf Hlens] & Hw & Hp & Hs).
  { split; [split|done]; simpl; [constructor|].
    intros i Hi. by apply elem_of_nil in Hi. }
  simpl in Hw, Hp. rewrite input_readers_read in Hp.
  inv_bind Hpass. rename x into m, Hx into Hloop.
  inv_bind Hpass. rename x into w2, Hx into Hdrain.
  destruct (fclose_intermediate env fpi); [|done].
  injection Hpass as <- <- <-. simpl.
  destruct (presorted_merge_writes fpi m0 m w2 Hwf Hloop Hdrain)
    as (l & Hemit & Hperm & Hsort).
  rewrite Hw in Hemit. rewrite Hp in Hperm.
  exists opened, l.
  split; [done|]. split; [done|].
  split; [intros Hnm; destruct Hcases as [(_ & H1 & _)|(_ & H1 & _)]; auto|].
  split; [done|].
  split.
  { intros Hcmp Hall. apply Hsort; [done|]. apply Hs.
    - intros i Hi. by apply elem_of_nil in Hi.
    - by apply input_readers_sorted. }
  destruct Hcases as [(-> & _ & H0 & -> & ->)|(Hnm & _ & -> & ->)].
  - rewrite H0. simpl. apply emit_all_final in Hemit as [Ht Ho].
    split; [done|]. rewrite Ht. done.
  - rewrite Hnm.
    destruct (emit_all_intermediate env T0 l w1 w2 Hemit)
      as (Ho & Hn & Hother & Hidx).
    split; [done|]. split; [by rewrite Hn|]. split; [|done].
    intros j. destruct (decide (j = T0)) as [->|Hne].
    + rewrite (Hidx []); [done|]. unfold w1, t1; simpl.
      by rewrite lookup_insert_eq.
    + rewrite Hother by done. unfold w1, t1; simpl.
      by rewrite lookup_insert_ne.
Qed.

(** sortPresorted hands over every record it read of its inputs,
    whatever the passes it needs. *)
Lemma sortPresorted_loop_spec (P : Prop) fuel : forall pass s consumed idx w,
  (P -> comparator_ok L K) ->
  sortPresorted_loop L K env fuel pass s = Done (idx, w) ->
  tf_next (tmpctx (ps_world s)) = Z.of_nat pass ->
  ps_next s = length consumed ->
  range_nodes (tmpctx (ps_world s)) 0 (Z.of_nat pass)
    ≡ₚ stream_nodes L K (inputs_read env 0 consumed) ->
  (P -> files_sorted L K (tmpctx (ps_world s)) 0 (Z.of_nat pass - 1)) ->
  (P -> Forall sorted_stream (ps_inputs s)) ->
  exists l,
    l ≡ₚ stream_nodes L K (inputs_read env 0 (consumed ++ ps_inputs s))
    /\ handed_over L K env (out_rwios (ps_world s)) P l idx w.
Proof.
  induction fuel as [|fuel IH];
    intros pass s consumed idx w HP Hrun Hnext Hcons Hfiles Hsorted Hin;
    [done|].
  simpl in Hrun. inv_bind Hrun. destruct x as [[s' ti] no_more].
  destruct (presorted_pass_spec pass s s' ti no_more Hx)
    as (opened & l & Hsplit & Hnext' & Hrest & Hperm & Hsort & Hdest).
  set (t := tmpctx (ps_world s)) in *.
  rewrite Hnext in Hdest.
  assert (Hall : stream_nodes L K (inputs_read env 0 (consumed ++ opened))
                 ≡ₚ range_nodes t 0 (Z.of_nat pass) ++ l).
  { rewrite inputs_read_app. unfold stream_nodes in *. rewrite map_app.
    simpl. rewrite <- Hcons. by rewrite Hfiles, Hperm. }
  assert (Hlsorted : P -> StronglySorted (node_le L K) l).
  { intros p. apply Hsort; [by apply HP|].
    specialize (Hin p). rewrite Hsplit in Hin.
    by apply Forall_app in Hin as [? _]. }
  destruct no_more.
  - (* the last pass *)
    injection Hrun as <- <-. rewrite (Hrest eq_refl), app_nil_r in Hsplit.
    rewrite Hsplit. simpl in Hdest.
    destruct (Z.of_nat pass =? 0) eqn:Hp0.
    + apply Z.eqb_eq in Hp0. destruct Hdest as (-> & Ht & Hout).
      exists l. split.
      * rewrite Hall. rewrite Hp0. done.
      * left. done.
    + apply Z.eqb_neq in Hp0. destruct Hdest as (-> & Hn & Hl & Hout).
      exists (range_nodes t 0 (Z.of_nat pass) ++ l).
      split; [by rewrite Hall|]. right.
      split; [lia|]. split; [done|]. split; [|split; [done|]].
      * rewrite range_nodes_app by lia. rewrite Z.add_0_l.
        rewrite (range_nodes_one _ _ l) by (by rewrite Hl, decide_True).
        rewrite (range_nodes_ext t); [done|].
        intros j Hj. rewrite Hl. by rewrite decide_False by lia.
      * intros p j Hj. rewrite Hl.
        destruct (decide (j = Z.of_nat pass)) as [->|Hne]; simpl; [auto|].
        apply Hsorted; [done|lia].
  - (* a pass into a temp file, more inputs to come *)
    simpl in Hdest. destruct Hdest as (-> & Hn & Hl & Hout).
    destruct (IH (S pass) s' (consumed ++ opened) idx w HP Hrun)
      as (l' & Hl' & Hover).
    + rewrite Hn. lia.
    + rewrite Hnext', Hcons, length_app. done.
    + replace (Z.of_nat (S pass)) with (Z.of_nat pass + 1) by lia.
      rewrite range_nodes_app by lia. rewrite Z.add_0_l.
      rewrite (range_nodes_one _ _ l) by (by rewrite Hl, decide_True).
      rewrite (range_nodes_ext t).
      * by rewrite Hall.
      * intros j Hj. rewrite Hl. by rewrite decide_False by lia.
    + intros p j Hj. rewrite Hl.
      destruct (decide (j = Z.of_nat pass)) as [->|Hne]; simpl; [auto|].
      apply Hsorted; [done|lia].
    + intros p. specialize (Hin p). rewrite Hsplit in Hin.
      by apply Forall_app in Hin as [_ ?].
    + exists l'. split.
      * rewrite Hl', Hsplit. by rewrite app_assoc.
      * by rewrite <- Hout.
Qed.

(** A pass of sortPresorted completes or exits: its loops end, and it
    reads no slot that was not filled. *)
Lemma seed_heap_outcomes rwios : forall m,
  match seed_heap L K rwios m with
  | Done _ | Exit => True
  | _ => False
  end.
Proof.
  induction rwios as [|s rwios IH]; intros m; simpl; [done|].
  unfold fillRecordAndKey, read_next. destruct s as [|[rec|] s']; simpl.
  - apply IH.
  - destruct (fill_record_total L K rec) as [->|[n ->]]; simpl; [done|].
    apply IH.
  - apply IH.
Qed.

Lemma presorted_pass_outcomes pass s :
  match presorted_pass L K env pass s with
  | Done _ | Exit => True
  | _ => False
  end.
Proof.
  unfold presorted_pass.
  destruct (skTempFileCreate env (tmpctx (ps_world s))) as [[t idx]|]; [|done].
  destruct (open_inputs env pass (Z.to_nat (MAX_MERGE_FILES L)) (ps_next s)
              (ps_inputs s) []) as [[[rv rwios] i'] inputs'].
  match goal with
  | |- match mbind _ ?sel with _ => _ end =>
      assert (Hsel : sel = Exit \/ exists x, sel = Done x)
        by (repeat case_match; eauto);
      destruct Hsel as [->|[[[nm fpi] ti] ->]]; [done|]
  end.
  simpl.
  match goal with
  | |- context [seed_heap L K rwios ?m] =>
      pose proof (seed_heap_outcomes rwios m) as Hout;
      pose proof (seed_heap_spec rwios m) as Hseed;
      destruct (seed_heap L K rwios m) as [m0| | |]; try done
  end.
  destruct (Hseed m0 eq_refl) as ([Hwf _] & _).
  { split; [split|done]; simpl; [constructor|].
    intros i Hi. by apply elem_of_nil in Hi. }
  simpl.
  pose proof (merge_loop_spec L K env (fill_record L K) (node_of_record L K)
                fpi (fill_record_force L K)
                (fill_record_total L K) (merge_fuel m0) m0 Hwf) as Hspec.
  specialize (Hspec (proj2 (length_pending _ m0 Hwf))).
  destruct (merge_loop L K env (fill_record L K) fpi (merge_fuel m0) m0)
    as [m| | |]; try done.
  destruct Hspec as (l1 & _ & _ & Hwf' & Hlen & _). simpl.
  destruct (skHeapPeekTop L K (recs m) (heap m)) as [lowest|] eqn:Htop.
  - assert (Hheap : heap m = [lowest]).
    { apply skHeapPeekTop_elem in Htop. destruct (heap m) as [|i [|??]];
        simpl in Hlen; [by apply elem_of_nil in Htop| |lia].
      by apply list_elem_of_singleton in Htop as ->. }
    pose proof (drain_spec env (fill_record L K) (node_of_record L K)
                  fpi (fill_record_force L K)
                  (fill_record_total L K) m lowest Hwf' Hheap) as Hdrain.
    destruct (drain env (fill_record L K) fpi lowest m); try done.
    simpl. by destruct (fclose_intermediate env fpi).
  - simpl. by destruct (fclose_intermediate env fpi).
Qed.
End PresortedFacts.

(** ** The comparator over built-in fields *)

Section BuiltinComparator.
Variable L : limits.
Variable rev : bool.

Lemma rwrecCompare_from_builtin f fields key a b :
  builtin_field f = true ->
  rwrecCompare_from L rev (f :: fields) key a b
  = if field_value f (n_rec a) <? field_value f (n_rec b)
    then RETURN_SORT_ORDER rev (-1)
    else if field_value f (n_rec b) <? field_value f (n_rec a)
         then RETURN_SORT_ORDER rev 1
         else rwrecCompare_from L rev fields key a b.
Proof.
  intros Hf. destruct f; try discriminate; simpl; try reflexivity;
    unfold compare_ip, RETURN_IF_SORTED_IPS, RETURN_IF_SORTED, skipaddrCompare;
    destruct (SK_ENABLE_IPV6 L); try reflexivity;
    repeat (destruct (_ <? _)); reflexivity.
Qed.

Lemma builtin_value_cons f fields key a b :
  builtin_field f = true ->
  builtin_value L rev (f :: fields) key a b
  = if field_value f (n_rec a) <? field_value f (n_rec b)
    then (if rev then 1 else -1)
    else if field_value f (n_rec b) <? field_value f (n_rec a)
         then (if rev then -1 else 1)
         else builtin_value L rev fields key a b.
Proof.
  intros Hf. unfold builtin_value. rewrite rwrecCompare_from_builtin by done.
  unfold RETURN_SORT_ORDER.
  repeat (destruct (_ <? _)); try reflexivity; by destruct rev.
Qed.

Lemma builtin_returns fields key a b :
  forallb builtin_field fields = true ->
  exists v, rwrecCompare_from L rev fields key a b = CRet v.
Proof.
  induction fields as [|f fields IH]; intros Hall; [by exists 0|].
  apply andb_true_iff in Hall as [Hf Hall].
  rewrite rwrecCompare_from_builtin by done. unfold RETURN_SORT_ORDER.
  repeat (destruct (_ <? _)); eauto.
Qed.

Lemma builtin_antisym fields key a b :
  forallb builtin_field fields = true ->
  0 <= builtin_value L rev fields key a b -> builtin_value L rev fields key b a <= 0.
Proof.
  induction fields as [|f fields IH]; intros Hall; [done|].
  apply andb_true_iff in Hall as [Hf Hall].
  rewrite !builtin_value_cons by done.
  destruct (field_value f (n_rec a) <? field_value f (n_rec b)) eqn:Hab;
    destruct (field_value f (n_rec b) <? field_value f (n_rec a)) eqn:Hba;
    try apply Z.ltb_lt in Hab; try apply Z.ltb_lt in Hba;
    destruct rev; try lia; by apply IH.
Qed.

Lemma builtin_trans fields key a b c :
  forallb builtin_field fields = true ->
  builtin_value L rev fields key a b <= 0 -> builtin_value L rev fields key b c <= 0 ->
  builtin_value L rev fields key a c <= 0.
Proof.
  induction fields as [|f fields IH]; intros Hall; [done|].
  apply andb_true_iff in Hall as [Hf Hall].
  rewrite !builtin_value_cons by done.
  destruct (field_value f (n_rec a) <? field_value f (n_rec b)) eqn:Hab;
    destruct (field_value f (n_rec b) <? field_value f (n_rec a)) eqn:Hba;
    destruct (field_value f (n_rec b) <? field_value f (n_rec c)) eqn:Hbc;
    destruct (field_value f (n_rec c) <? field_value f (n_rec b)) eqn:Hcb;
    destruct (field_value f (n_rec a) <? field_value f (n_rec c)) eqn:Hac;
    destruct (field_value f (n_rec c) <? field_value f (n_rec a)) eqn:Hca;
    rewrite ?Z.ltb_lt, ?Z.ltb_ge in *;
    destruct rev; try lia; by apply IH.
Qed.
End BuiltinComparator.

(** Over built-in fields the comparator is an order, with and without
    reverse. *)
Lemma builtin_comparator_ok L K : builtin_only K = true -> comparator_ok L K.
Proof.
  intros Hb. unfold builtin_only in Hb. split.
  - intros a b. by apply builtin_returns.
  - intros a b. by apply builtin_antisym.
  - intros a b c. by apply builtin_trans.
Qed.

(** ** The whole sort *)

Section MainFacts.
Variable L : limits.
Variable K : config.
Variable env : environment.

Abbreviation inputs_sorted :=
  (Forall (fun s => StronglySorted (node_le L K) (stream_nodes L K s))
          (env_inputs env)).

(** A run of rwsort that completes has handed to the output writer, as
    their nodes, records of its inputs, each at most once: every record
    it read when no fread of a temp file failed; in order when the
    comparator is an order and, with presorted-input, the inputs are
    sorted. *)
Lemma rwsort_main_spec fuel w :
  rwsort_main L K env fuel = Done w ->
  exists l,
    l ⊆+ stream_nodes L K (records_read env)
    /\ (temp_reads_ok env -> l ≡ₚ stream_nodes L K (records_read env))
    /\ (comparator_ok L K ->
        (presorted_input K = true -> inputs_sorted) ->
        StronglySorted (node_le L K) l)
    /\ write_batch env l (out_rwios world_init) = Done (out_rwios w).
Proof.
  unfold rwsort_main. intros Hmain.
  inv_bind Hmain. destruct x as [idx w1]. rename Hx into Hphase.
  set (P := comparator_ok L K /\ (presorted_input K = true -> inputs_sorted)).
  assert (Hover : exists l,
            l ≡ₚ stream_nodes L K (records_read env)
            /\ handed_over L K env (out_rwios world_init) P l idx w1).
  { destruct (presorted_input K) eqn:Hpre.
    - unfold sortPresorted in Hphase.
      destruct (env_heap_create env true); [|done].
      destruct (sortPresorted_loop_spec L K env P fuel 0
                  {| ps_next := 0; ps_inputs := env_inputs env;
                     ps_world := world_init |} [] idx w1)
        as (l & Hl & Hover); try done.
      + by intros [? _].
      + intros _ j Hj. simpl in Hj. lia.
      + intros [_ Hs]. by apply Hs.
      + by exists l.
    - destruct (sortRandom_spec L K env fuel world_init idx w1 Hphase eq_refl)
        as (l & Hl & Hover).
      exists l. split; [done|].
      destruct Hover as [(? & ? & Hs)|(? & ? & ? & ? & Hs)]; [left|right];
        repeat split; try done; intros [Hc _]; by apply Hs. }
  destruct Hover as (l & Hl & [(-> & Hout & Hs)|(Hidx & Hn & Hr & Hout & Hs)]).
  - simpl in Hmain. injection Hmain as <-.
    exists l. split; [by rewrite Hl|]. split; [done|]. split; [|done].
    intros Hc Hp. by apply Hs.
  - destruct (0 <=? idx) eqn:Hle; [|apply Z.leb_gt in Hle; lia].
    unfold mergeFiles in Hmain.
    destruct (env_heap_create env false); [|done].
    destruct (mergeFiles_loop_spec L K env fuel 0
                {| tmp_idx_a := 0; temp_file_idx := idx; mf_world := w1 |}
                w l Hmain)
      as (l' & Hsub' & Hl' & Hs' & Hout'); simpl.
    + done.
    + by rewrite Z.sub_0_r.
    + exists l'. split; [by rewrite Hsub', Hl|]. split.
      { intros Hok. by rewrite (Hl' Hok). }
      split.
      * intros Hc Hp. apply Hs'; [done|]. simpl. by apply Hs.
      * simpl in Hout'. rewrite Hout in Hout'. exact Hout'.
Qed.

Lemma output_nodes_accepted l w :
  l ⊆+ stream_nodes L K (records_read env) ->
  write_batch env l (out_rwios world_init) = Done (out_rwios w) ->
  output_nodes L K w = accepted env 0 l.
Proof.
  intros Hl Hout. apply write_batch_spec in Hout as (Hrecs & _).
  simpl in Hrecs. unfold output_nodes, stream_nodes. rewrite Hrecs, map_map.
  rewrite <- (map_id (accepted env 0 l)) at 2. apply map_ext_in.
  intros x Hx%list_elem_of_In%accepted_elem.
  apply (node_of_record_stream L K (stream_nodes L K (records_read env))
           (records_read env)); [done|].
  by apply (elem_of_submseteq l).
Qed.


Lemma records_read_all :
  input_reads_ok env -> records_read env = input_records env.
Proof. apply inputs_read_all. Qed.
End MainFacts.

(** C1, as the specification states it, fails on two kinds of input.
    With presorted-input set, an input that is not sorted comes out as
    it went in: from the one input [2; 1] the output is [2; 1].  And a
    plug-in field whose comparator is not an order (here one that answers
    1 for every pair) leaves no way to order two records: the output of
    the random path on [1; 2] has an adjacent pair that compares as
    greater. *)
Lemma C1_output_not_always_sorted :
  (exists w,
     rwsort_main small_limits (sport_config false true) (calm_env [[2; 1]]) 10
       = Done w
     /\ out_recs (out_rwios w) = [rec_of 2; rec_of 1]
     /\ compare_nodes small_limits (sport_config false true)
          (node_of 2) (node_of 1) = 1)
  /\ (exists w x y,
        rwsort_main small_limits always_greater_config (calm_env [[1; 2]]) 10
          = Done w
        /\ output_nodes small_limits always_greater_config w = [x; y]
        /\ compare_nodes small_limits always_greater_config x y = 1).
Proof.
  split.
  - eexists. split; [vm_compute; reflexivity|]. split; reflexivity.
  - eexists _, _, _. split; [vm_compute; reflexivity|].
    split; vm_compute; reflexivity.
Qed.

(** C1, amended: when the comparator of the configuration is an order
    (it is for every key of built-in fields) and, with presorted-input,
    every input stream is sorted under it, a run that completes leaves an
    output in which every record compares less than or equal to the
    next, whether it came from the buffer, from one merge pass or from
    cascaded passes, and whatever the writer refused. *)
Theorem C1_output_sorted L K env fuel w :
  comparator_ok L K ->
  (presorted_input K = true ->
   Forall (fun s => sorted_nodes L K (stream_nodes L K s)) (env_inputs env)) ->
  rwsort_main L K env fuel = Done w ->
  sorted_nodes L K (output_nodes L K w).
Proof.
  intros Hcmp Hin Hmain.
  destruct (rwsort_main_spec L K env fuel w Hmain)
    as (l & Hl & _ & Hs & Hout).
  rewrite (output_nodes_accepted L K env l w Hl Hout).
  apply StronglySorted_Sorted, accepted_sorted, Hs; [done|].
  intros Hp. eapply Forall_impl; [by apply Hin|].
  intros s Hsorted. simpl.
  by apply (@Sorted_StronglySorted _ _ (node_le_trans L K Hcmp)).
Qed.

Lemma C1_output_sorted_witness :
  exists w,
    rwsort_main small_limits (sport_config false false)
      (calm_env [[5; 2; 8; 1; 9; 3; 7; 4; 6]]) 10 = Done w
    /\ sorted_nodes small_limits (sport_config false false)
         (output_nodes small_limits (sport_config false false) w).
Proof.
  eexists. split; [vm_compute; reflexivity|].
  apply (C1_output_sorted small_limits (sport_config false false)
           (calm_env [[5; 2; 8; 1; 9; 3; 7; 4; 6]]) 10).
  - apply builtin_comparator_ok. reflexivity.
  - discriminate.
  - vm_compute. reflexivity.
Defined.


(** What a failed read of an input does to the sort: fillRecordAndKey
    reports no record, the input is closed as if it were at its end, and
    the run completes without the records behind the failed read.  From
    the inputs [1; 2; 3] and [4], the second read of the first input
    failing, the output is [1; 4]. *)
Lemma read_error_ends_input :
  exists w,
    rwsort_main small_limits (sport_config false false)
      (read_error_env 1 [[1; 2; 3]; [4]]) 10 = Done w
    /\ out_recs (out_rwios w) = [rec_of 1; rec_of 4].
Proof. eexists. split; [vm_compute; reflexivity|reflexivity]. Qed.



(** C8, as the specification states it, fails: sortPresorted creates its
    intermediate temp file before it opens any input.  From the two
    presorted inputs [1; 4; 7] and [2; 5; 8] the first pass opens every
    input and writes 1 2 4 5 7 8 straight to the output, and temp file 0
    has been created all the same (it stays empty).  With the three
    inputs of the specification's scenario and at most three readers,
    the first pass opens every input too but cannot tell that none is
    left: it merges into temp file 0, and three temp files are created
    before the run ends. *)
Lemma C8_temp_file_created_anyway :
  (exists w,
     sortPresorted small_limits (sport_config false true)
       (calm_env [[1; 4; 7]; [2; 5; 8]]) 10 world_init = Done (-1, w)
     /\ rwsort_main small_limits (sport_config false true)
          (calm_env [[1; 4; 7]; [2; 5; 8]]) 10 = Done w
     /\ map rwRecGetSPort (out_recs (out_rwios w)) = [1; 2; 4; 5; 7; 8]
     /\ tf_next (tmpctx w) = 1
     /\ tf_files (tmpctx w) !! 0 = Some [])
  /\ (exists w,
        rwsort_main small_limits (sport_config false true)
          (calm_env [[1; 4; 7]; [2; 5; 8]; [3; 6; 9]]) 10 = Done w
        /\ map rwRecGetSPort (out_recs (out_rwios w))
           = [1; 2; 3; 4; 5; 6; 7; 8; 9]
        /\ tf_next (tmpctx w) = 3).
Proof.
  split.
  - eexists. split; [vm_compute; reflexivity|].
    split; [vm_compute; reflexivity|]. repeat split.
  - eexists. split; [vm_compute; reflexivity|]. repeat split.
Qed.

(** C8, amended: in the presorted path, when the first pass opens every
    input and learns that none is left (the inputs are fewer than
    MAX_MERGE_FILES and every open succeeds), the run ends after that
    pass: it either exits on a fatal error or completes, and when it
    completes it has created one temp file, the intermediate file of
    index 0, and has written nothing to it: it is empty when the run
    ends, no other temp file exists, and every record read went to the
    output writer: every record of the inputs when no read of an input
    fails. *)
Theorem C8_presorted_single_pass L K env fuel :
  presorted_input K = true ->
  (length (env_inputs env) < Z.to_nat (MAX_MERGE_FILES L))%nat ->
  (forall i, env_input_open env 0 i = OpenOk) ->
  match rwsort_main L K env (S fuel) with
  | Done w =>
      tmpctx w = {| tf_files := {[0 := []]}; tf_next := 1 |}
      /\ exists l,
           l ≡ₚ stream_nodes L K (records_read env)
           /\ (input_reads_ok env ->
               l ≡ₚ stream_nodes L K (input_records env))
           /\ write_batch env l (out_rwios world_init) = Done (out_rwios w)
  | Exit => True
  | _ => False
  end.
Proof.
  intros Hpre Hfew Hok. unfold rwsort_main. rewrite Hpre.
  unfold sortPresorted.
  destruct (env_heap_create env true); [|done]. simpl.
  set (s0 := {| ps_next := 0; ps_inputs := env_inputs env;
                ps_world := world_init |}).
  pose proof (presorted_pass_outcomes L K env 0 s0) as Hout.
  destruct (presorted_pass L K env 0 s0) as [[[s' idx'] no_more]| | |]
    eqn:Hpass; try done.
  assert (Hlast : no_more = true).
  { unfold presorted_pass in Hpass.
    destruct (skTempFileCreate env _) as [[t i0]|]; [|done].
    simpl in Hpass. rewrite open_inputs_all in Hpass by done.
    simpl in Hpass. destruct (i0 =? 0); simpl in Hpass;
      repeat (inv_bind Hpass);
      try match type of Hpass with
          | context [if ?c then _ else _] => destruct c; [|done]
          end;
      by injection Hpass as <- <- <-. }
  subst no_more. simpl.
  destruct (presorted_pass_spec L K env 0 _ _ _ _ Hpass)
    as (opened & l & Hsplit & _ & Hrest & Hperm & _ & Hdest).
  simpl in Hsplit, Hdest, Hperm. destruct Hdest as (-> & Ht & Hout').
  simpl.
  rewrite (Hrest eq_refl), app_nil_r in Hsplit.
  assert (Hl : l ≡ₚ stream_nodes L K (records_read env)).
  { unfold records_read. by rewrite Hsplit. }
  split; [exact Ht|]. exists l. split; [done|]. split; [|done].
  intros Hi. by rewrite Hl, (records_read_all env Hi).
Qed.

Lemma C8_presorted_single_pass_witness :
  exists w,
    rwsort_main small_limits (sport_config false true)
      (calm_env [[1; 4; 7]; [2; 5; 8]]) 10 = Done w
    /\ tmpctx w = {| tf_files := {[0 := []]}; tf_next := 1 |}.
Proof.
  eexists.
  assert (Hrun : rwsort_main small_limits (sport_config false true)
                   (calm_env [[1; 4; 7]; [2; 5; 8]]) 10 = Done _)
    by (vm_compute; reflexivity).
  split; [exact Hrun|].
  pose proof (C8_presorted_single_pass small_limits (sport_config false true)
                (calm_env [[1; 4; 7]; [2; 5; 8]]) 9) as Hspec.
  rewrite Hrun in Hspec. apply Hspec.
  - reflexivity.
  - simpl. lia.
  - reflexivity.
Defined.

(** * Further properties of the comparator *)

Section CompareMore.
Variable L : limits.
Variable rev : bool.

Lemma RETURN_SORT_ORDER_nonzero v :
  v = 1 \/ v = -1 -> RETURN_SORT_ORDER rev v <> CRet 0.
Proof.
  unfold RETURN_SORT_ORDER. intros [->| ->]; destruct rev; vm_compute;
    discriminate.
Qed.

Lemma rwrecCompare_from_tie fields key a b :
  forallb builtin_field fields = true ->
  rwrecCompare_from L rev fields key a b = CRet 0
  <-> Forall (same_field a b) fields.
Proof.
  induction fields as [|f fields IH]; intros Hall.
  - split; [constructor|reflexivity].
  - apply andb_true_iff in Hall as [Hf Hall].
    rewrite rwrecCompare_from_builtin by done. rewrite Forall_cons.
    unfold same_field at 1.
    destruct (field_value f (n_rec a) <? field_value f (n_rec b)) eqn:Hab;
      [apply Z.ltb_lt in Hab|apply Z.ltb_ge in Hab].
    { split; [intros Hr|intros [? _]; lia].
      by apply RETURN_SORT_ORDER_nonzero in Hr; [|right]. }
    destruct (field_value f (n_rec b) <? field_value f (n_rec a)) eqn:Hba;
      [apply Z.ltb_lt in Hba|apply Z.ltb_ge in Hba].
    { split; [intros Hr|intros [? _]; lia].
      by apply RETURN_SORT_ORDER_nonzero in Hr; [|left]. }
    rewrite (IH Hall). split; [intros ?; split; [lia|done]|by intros [_ ?]].
Qed.

Lemma rwrecCompare_from_skip pre fields key a b :
  forallb builtin_field pre = true ->
  Forall (same_field a b) pre ->
  rwrecCompare_from L rev (pre ++ fields) key a b
  = rwrecCompare_from L rev fields key a b.
Proof.
  induction pre as [|g pre IH]; intros Hall Hsame; [done|].
  apply andb_true_iff in Hall as [Hg Hall].
  apply Forall_cons in Hsame as [Hgs Hsame].
  rewrite <- app_comm_cons, rwrecCompare_from_builtin by done.
  unfold same_field in Hgs. rewrite Hgs, Z.ltb_irrefl. by apply IH.
Qed.


Lemma rwrecCompare_from_no_assert fields : forall key a b,
  (plugin_field_count fields <= length key)%nat ->
  rwrecCompare_from L rev fields key a b <> CAssert.
Proof.
  assert (Hsort : forall func a b next,
    next <> CAssert -> RETURN_IF_SORTED rev func a b next <> CAssert).
  { intros func a b next Hn. unfold RETURN_IF_SORTED, RETURN_SORT_ORDER.
    repeat case_match; done. }
  assert (Hip : forall func a b next,
    next <> CAssert -> compare_ip L rev func a b next <> CAssert).
  { intros func a b next Hn. unfold compare_ip.
    destruct (SK_ENABLE_IPV6 L); [|by apply Hsort].
    unfold RETURN_IF_SORTED_IPS, RETURN_SORT_ORDER. repeat case_match; done. }
  induction fields as [|f fields IH]; intros key a b Hlen; [done|].
  destruct f; simpl in Hlen |- *;
    try (apply Hsort; apply IH; lia); try (apply Hip; apply IH; lia).
  destruct key as [|k key]; [simpl in Hlen; lia|].
  destruct (pf_bin_compare _ _ _) as [err rv].
  destruct (negb (err =? SKPLUGIN_OK)); [done|].
  destruct (negb (wrap_int rv =? 0)); [done|].
  apply IH. simpl in Hlen. lia.
Qed.

Lemma rwrecCompare_from_case_label fields : forall key a b,
  rwrecCompare_from L rev (map case_label fields) key a b
  = rwrecCompare_from L rev fields key a b.
Proof.
  induction fields as [|f fields IH]; intros key a b; [done|].
  destruct f; simpl; rewrite ?IH; try reflexivity.
  destruct key as [|k key]; [done|].
  destruct (pf_bin_compare _ _ _) as [err rv].
  destruct (negb (err =? SKPLUGIN_OK)); [done|].
  destruct (negb (wrap_int rv =? 0)); [done|]. apply IH.
Qed.
Lemma builtin_value_swap fields key a b :
  forallb builtin_field fields = true ->
  builtin_value L rev fields key b a = - builtin_value L rev fields key a b.
Proof.
  induction fields as [|f fields IH]; intros Hall; [done|].
  apply andb_true_iff in Hall as [Hf Hall].
  rewrite !builtin_value_cons by done.
  destruct (field_value f (n_rec a) <? field_value f (n_rec b)) eqn:Hab;
    destruct (field_value f (n_rec b) <? field_value f (n_rec a)) eqn:Hba;
    try apply Z.ltb_lt in Hab; try apply Z.ltb_lt in Hba;
    destruct rev; try lia; by apply IH.
Qed.
Lemma rwrecCompare_from_small fields key a b :
  forallb builtin_field fields = true ->
  exists v, rwrecCompare_from L rev fields key a b = CRet v /\ -1 <= v <= 1.
Proof.
  induction fields as [|f fields IH]; intros Hall; [exists 0; split; [done|lia]|].
  apply andb_true_iff in Hall as [Hf Hall].
  rewrite rwrecCompare_from_builtin by done. unfold RETURN_SORT_ORDER.
  destruct (_ <? _);
    [destruct rev; eexists; (split; [done|]); vm_compute; split; discriminate|].
  destruct (_ <? _);
    [destruct rev; eexists; (split; [done|]); vm_compute; split; discriminate|].
  by apply IH.
Qed.
End CompareMore.

(** Over a key of built-in fields no comparison gives INT_MIN. *)
Lemma builtin_negation_defined L K :
  builtin_only K = true -> negation_defined L K.
Proof.
  intros Hb _ a b Hmin.
  destruct (rwrecCompare_from_small L false (sort_fields K) (key_fields K) a b
              Hb) as (v & Hv & Hrange).
  rewrite Hv in Hmin. injection Hmin as ->. unfold INT_MIN in Hrange. lia.
Qed.

(** X1: over a key of built-in fields two nodes compare equal exactly
    when their records agree on every field of the key; the fields that
    are not in the key play no part, and the reverse flag does not
    matter. *)
Theorem X1_compare_equal_iff L K a b :
  builtin_only K = true ->
  rwrecCompare L K a b = CRet 0 <-> Forall (same_field a b) (sort_fields K).
Proof. intros Hb. by apply rwrecCompare_from_tie. Qed.

Lemma X1_compare_equal_iff_witness :
  rwrecCompare small_limits (sport_config false false) (node_of 7) (node_of 7)
  = CRet 0.
Proof.
  apply (X1_compare_equal_iff small_limits (sport_config false false)
           (node_of 7) (node_of 7)); [reflexivity|].
  repeat constructor.
Defined.

(** X2: the first field of the key on which two records differ decides
    the comparison.  When the records agree on the built-in fields
    before it and the first record has the smaller value, rwrecCompare
    returns a negative int (a positive one with reverse) for the pair
    and a positive int (a negative one with reverse) for the swapped
    pair; the int is -1 or 1 when RETURN_IF_SORTED makes it, that is
    unless the field is an address handed to skipaddrCompare.  The
    fields after it are not looked at, so that a plug-in field among
    them is not run and cannot end the process. *)
Theorem X2_first_difference_decides L K pre f post a b :
  sort_fields K = pre ++ f :: post ->
  forallb builtin_field pre = true -> builtin_field f = true ->
  Forall (same_field a b) pre ->
  field_value f (n_rec a) < field_value f (n_rec b) ->
  exists v v',
    rwrecCompare L K a b = CRet v /\ rwrecCompare L K b a = CRet v'
    /\ (if reverse K then 0 < v /\ v' < 0 else v < 0 /\ 0 < v')
    /\ (address_field f && SK_ENABLE_IPV6 L = false ->
        v = (if reverse K then 1 else -1)
        /\ v' = (if reverse K then -1 else 1)).
Proof.
  intros Hk Hpre Hf Hsame Hlt. unfold rwrecCompare. rewrite Hk.
  rewrite !rwrecCompare_from_skip; try done.
  2: { eapply Forall_impl; [exact Hsame|]. unfold same_field. by intros ? ->. }
  rewrite !rwrecCompare_from_builtin by done.
  apply Z.ltb_lt in Hlt as Hlt1. rewrite Hlt1.
  replace (field_value f (n_rec b) <? field_value f (n_rec a)) with false
    by (symmetry; apply Z.ltb_ge; lia).
  unfold RETURN_SORT_ORDER.
  exists (if reverse K then 1 else -1), (if reverse K then -1 else 1).
  destruct (reverse K); repeat split; reflexivity || lia.
Qed.

Lemma X2_first_difference_decides_witness :
  exists v v',
    rwrecCompare small_limits (sport_then_failing_config true)
      (node_of 1) (node_of 2) = CRet v
    /\ rwrecCompare small_limits (sport_then_failing_config true)
         (node_of 2) (node_of 1) = CRet v'
    /\ 0 < v /\ v' < 0.
Proof.
  destruct (X2_first_difference_decides small_limits
              (sport_then_failing_config true) [] RWREC_FIELD_SPORT
              [FIELD_OTHER 100] (node_of 1) (node_of 2)
              eq_refl eq_refl eq_refl (Forall_nil_2 _)
              ltac:(simpl; lia)) as (v & v' & Hab & Hba & Hsign & _).
  exists v, v'. split; [exact Hab|]. split; [exact Hba|]. exact Hsign.
Defined.



(** X4: the assertion of the default case, that the cursor into
    key_fields[] is below key_num_fields, holds in every comparison when
    sort_fields[] has no more plug-in entries than key_fields[] has
    elements. *)
Theorem X4_plugin_cursor_in_bounds L K a b :
  (plugin_field_count (sort_fields K) <= length (key_fields K))%nat ->
  rwrecCompare L K a b <> CAssert.
Proof. apply rwrecCompare_from_no_assert. Qed.

Lemma X4_plugin_cursor_in_bounds_witness :
  rwrecCompare small_limits (int_min_config false) (node_of 1) (node_of 2)
  <> CAssert.
Proof.
  apply (X4_plugin_cursor_in_bounds small_limits (int_min_config false)).
  simpl. lia.
Defined.

(** X5: over a key of built-in fields rwrecCompare is a total preorder,
    as skQSort and the heap need it: it always returns, a node compares
    equal to itself, swapping the arguments swaps the sign of the
    result, and less-than-or-equal is transitive. *)
Theorem X5_builtin_total_preorder L K :
  builtin_only K = true ->
  (forall a b, exists v, rwrecCompare L K a b = CRet v)
  /\ (forall a, rwrecCompare L K a a = CRet 0)
  /\ (forall a b,
        (compare_nodes L K a b < 0 <-> 0 < compare_nodes L K b a)
        /\ (compare_nodes L K a b = 0 <-> compare_nodes L K b a = 0))
  /\ (forall a b c, node_le L K a b -> node_le L K b c -> node_le L K a c).
Proof.
  intros Hb. destruct (builtin_comparator_ok L K Hb) as [Hret Hanti Htrans].
  split; [exact Hret|]. split.
  { intros a. apply rwrecCompare_from_tie; [done|].
    apply Forall_forall. by intros f _. }
  split; [|exact Htrans].
  intros a b.
  pose proof (builtin_value_swap L (reverse K) (sort_fields K) (key_fields K)
                a b Hb) as Hswap.
  unfold builtin_value in Hswap. unfold compare_nodes, rwrecCompare.
  lia.
Qed.

Lemma X5_builtin_total_preorder_witness :
  rwrecCompare small_limits (sport_proto_config true) (node_of 3) (node_of 3)
  = CRet 0.
Proof.
  apply (X5_builtin_total_preorder small_limits (sport_proto_config true)).
  reflexivity.
Defined.

(** X6: field ids that share a case of the switch sort alike: stime and
    stime+msec, elapsed and elapsed+msec, etime and etime+msec, and the
    class and the type of the flowtype, both of which compare the
    flowtype id.  Replacing an id by the other id of its case changes no
    comparison, whatever the rest of the key. *)
Theorem X6_case_labels_sort_alike L K K' a b :
  sort_fields K' = map case_label (sort_fields K) ->
  key_fields K' = key_fields K -> reverse K' = reverse K ->
  rwrecCompare L K' a b = rwrecCompare L K a b.
Proof.
  intros Hf Hk Hr. unfold rwrecCompare. rewrite Hf, Hk, Hr.
  apply rwrecCompare_from_case_label.
Qed.

Lemma X6_case_labels_sort_alike_witness :
  rwrecCompare small_limits
    {| sort_fields := [RWREC_FIELD_FTYPE_CLASS]; key_fields := [];
       reverse := false; presorted_input := false;
       sort_buffer_size := 32; node_size := 4 |} (node_of 1) (node_of 2)
  = rwrecCompare small_limits
      {| sort_fields := [RWREC_FIELD_FTYPE_TYPE]; key_fields := [];
         reverse := false; presorted_input := false;
         sort_buffer_size := 32; node_size := 4 |} (node_of 1) (node_of 2).
Proof.
  apply X6_case_labels_sort_alike; reflexivity.
Defined.

(** X29: the ICMP type and code of a record that is not ICMP are 0,
    whatever its port fields hold.  Under a key made of the icmp type
    and the icmp code, all records that are not ICMP compare equal:
    such a key leaves them in the order in which they are met. *)
Theorem X29_non_icmp_compare_equal L K a b :
  Forall (fun f => f = RWREC_FIELD_ICMP_TYPE \/ f = RWREC_FIELD_ICMP_CODE)
    (sort_fields K) ->
  rwRecIsICMP (n_rec a) = false -> rwRecIsICMP (n_rec b) = false ->
  getIcmpType (n_rec a) = 0 /\ getIcmpCode (n_rec a) = 0
  /\ rwrecCompare L K a b = CRet 0.
Proof.
  intros Hkey Ha Hb. unfold getIcmpType, getIcmpCode. rewrite Ha.
  split; [done|]. split; [done|].
  apply rwrecCompare_from_tie.
  - apply forallb_forall. intros f Hf.
    apply list_elem_of_In in Hf.
    by destruct (proj1 (Forall_forall _ _) Hkey f Hf) as [-> | ->].
  - eapply Forall_impl; [exact Hkey|].
    intros f [-> | ->]; unfold same_field; simpl;
      unfold getIcmpType, getIcmpCode; by rewrite Ha, Hb.
Qed.

Lemma X29_non_icmp_compare_equal_witness :
  rwrecCompare small_limits
    {| sort_fields := [RWREC_FIELD_ICMP_TYPE; RWREC_FIELD_ICMP_CODE];
       key_fields := []; reverse := false; presorted_input := false;
       sort_buffer_size := 32; node_size := 4 |} (node_of 1) (node_of 2)
  = CRet 0.
Proof.
  apply (X29_non_icmp_compare_equal small_limits
           {| sort_fields := [RWREC_FIELD_ICMP_TYPE; RWREC_FIELD_ICMP_CODE];
              key_fields := []; reverse := false; presorted_input := false;
              sort_buffer_size := 32; node_size := 4 |}
           (node_of 1) (node_of 2)).
  - constructor; [by left|]. constructor; [by right|]. constructor.
  - reflexivity.
  - reflexivity.
Defined.

(** * Further properties of fillRecordAndKey *)

Section KeyLayout.
Variable L : limits.

Lemma length_poke off bytes buf :
  (length buf <= length (poke off bytes buf))%nat
  /\ (off + length bytes <= length (poke off bytes buf))%nat.
Proof.
  unfold poke. rewrite !length_app, length_resize, length_drop. lia.
Qed.

Lemma take_poke m off bytes buf :
  (m <= off)%nat -> (m <= length buf)%nat ->
  take m (poke off bytes buf) = take m buf.
Proof.
  intros Hm Hlen. unfold poke.
  rewrite take_app_le by (rewrite length_resize; lia).
  rewrite take_resize_le by done. by rewrite resize_le.
Qed.

Lemma drop_poke off bytes buf :
  take (length bytes) (drop off (poke off bytes buf)) = bytes.
Proof.
  unfold poke. rewrite drop_app_length' by (by rewrite length_resize).
  by rewrite take_app_length.
Qed.

(** Filling the keys that start at or after byte [from] leaves the bytes
    below [from] as they were. *)
Lemma fill_keys_below r : forall keys from buf buf',
  sizeof_rwRec L <= from ->
  keys_laid_out r from keys ->
  fill_keys L keys r buf = Done buf' ->
  (Z.to_nat (from - sizeof_rwRec L) <= length buf)%nat ->
  take (Z.to_nat (from - sizeof_rwRec L)) buf'
  = take (Z.to_nat (from - sizeof_rwRec L)) buf
  /\ (length buf <= length buf')%nat.
Proof.
  induction keys as [|k keys IH]; intros from buf buf' Hfrom Hlay Hfill Hlen;
    simpl in Hfill.
  - by injection Hfill as <-.
  - destruct Hlay as [Hoff Hlay]. unfold key_bytes in Hlay.
    destruct (pf_rec_to_bin (kf_field_handle k) r) as [err bytes] eqn:Hk.
    destruct (negb (err =? SKPLUGIN_OK)); [done|]. simpl in Hlay.
    set (off := Z.to_nat (kf_offset k - sizeof_rwRec L)) in *.
    destruct (length_poke off bytes buf) as [Hl1 Hl2].
    assert (Hfrom' : sizeof_rwRec L
                     <= kf_offset k + Z.of_nat (length bytes)) by lia.
    destruct (IH _ _ _ Hfrom' Hlay Hfill) as [Htake Hlen'].
    { replace (Z.to_nat (kf_offset k + Z.of_nat (length bytes)
                         - sizeof_rwRec L))
        with (off + length bytes)%nat by lia. done. }
    split; [|lia].
    assert (Hm : (Z.to_nat (from - sizeof_rwRec L) <= off)%nat) by lia.
    rewrite <- (take_poke _ off bytes buf) by done.
    apply (f_equal (take (Z.to_nat (from - sizeof_rwRec L)))) in Htake.
    rewrite !take_take in Htake.
    by rewrite !Nat.min_l in Htake by lia.
Qed.

Lemma fill_keys_read_back r : forall keys from buf buf',
  sizeof_rwRec L <= from ->
  keys_laid_out r from keys ->
  fill_keys L keys r buf = Done buf' ->
  Forall (fun k =>
            take (length (key_bytes k r))
              (drop (Z.to_nat (kf_offset k - sizeof_rwRec L)) buf')
            = key_bytes k r) keys.
Proof.
  induction keys as [|k keys IH]; intros from buf buf' Hfrom Hlay Hfill;
    [constructor|].
  simpl in Hfill. destruct Hlay as [Hoff Hlay]. unfold key_bytes in Hlay |- *.
  destruct (pf_rec_to_bin (kf_field_handle k) r) as [err bytes] eqn:Hk.
  destruct (negb (err =? SKPLUGIN_OK)); [done|]. simpl in Hlay.
  set (off := Z.to_nat (kf_offset k - sizeof_rwRec L)) in *.
  destruct (length_poke off bytes buf) as [Hl1 Hl2].
  assert (Hfrom' : sizeof_rwRec L
                   <= kf_offset k + Z.of_nat (length bytes)) by lia.
  constructor.
  - rewrite Hk. simpl.
    destruct (fill_keys_below r keys _ _ _ Hfrom' Hlay Hfill)
      as [Htake Hlen].
    { lia. }
    replace (Z.to_nat (kf_offset k + Z.of_nat (length bytes)
                       - sizeof_rwRec L))
      with (off + length bytes)%nat in Htake by lia.
    fold off.
    transitivity (take (length bytes) (drop off (poke off bytes buf)));
      [|apply drop_poke].
    rewrite !take_drop_commute. by rewrite Htake.
  - apply (IH _ _ _ Hfrom' Hlay Hfill).
Qed.

Lemma fill_keys_outcome r : forall keys buf,
  match fill_keys L keys r buf with
  | Done _ =>
      Forall (fun k => fst (pf_rec_to_bin (kf_field_handle k) r)
                       = SKPLUGIN_OK) keys
  | Exit =>
      Exists (fun k => fst (pf_rec_to_bin (kf_field_handle k) r)
                       <> SKPLUGIN_OK) keys
  | _ => False
  end.
Proof.
  induction keys as [|k keys IH]; intros buf; simpl; [constructor|].
  destruct (pf_rec_to_bin (kf_field_handle k) r) as [err bytes] eqn:Hk.
  destruct (err =? SKPLUGIN_OK) eqn:Herr; simpl.
  - apply Z.eqb_eq in Herr. specialize (IH (poke
      (Z.to_nat (kf_offset k - sizeof_rwRec L)) bytes buf)).
    destruct (fill_keys L keys r _); try done.
    + constructor; [by rewrite Hk|done].
    + by apply Exists_cons_tl.
  - apply Z.eqb_neq in Herr. apply Exists_cons_hd. by rewrite Hk.
Qed.
End KeyLayout.

(** X7: the plug-in keys of a node can be read back.  When the key
    fields of a record follow each other behind the rwRec without
    overlap, the bytes found at the offset of each field, in the node
    fillRecordAndKey built, are the bytes the plug-in of this field made
    of the record: a later field does not clobber an earlier one.  These
    are the bytes rwrecCompare hands to the plug-in's comparator. *)
Theorem X7_keys_read_back L K r n :
  keys_laid_out r (sizeof_rwRec L) (key_fields K) ->
  fill_record L K r = Done n ->
  n_rec n = r
  /\ Forall (fun k =>
               take (length (key_bytes k r)) (key_at L n (kf_offset k))
               = key_bytes k r) (key_fields K).
Proof.
  intros Hlay Hfill. unfold fill_record in Hfill. inv_bind Hfill.
  injection Hfill as <-. split; [done|]. unfold key_at. simpl.
  by apply (fill_keys_read_back L r _ (sizeof_rwRec L) _ _ (Z.le_refl _)
              Hlay Hx).
Qed.

Lemma X7_keys_read_back_witness :
  exists n,
    fill_record small_limits two_keys_config (rec_of 258) = Done n
    /\ take 2 (key_at small_limits n 4) = [1; 2]
    /\ take 1 (key_at small_limits n 6) = [0].
Proof.
  eexists. split; [reflexivity|].
  destruct (X7_keys_read_back small_limits two_keys_config (rec_of 258) _
              ltac:(simpl; lia) eq_refl) as [_ Hkeys].
  apply Forall_cons in Hkeys as [H1 Hkeys].
  apply Forall_cons in Hkeys as [H2 _].
  split; [exact H1|exact H2].
Defined.

(** X8: what fillRecordAndKey gives on a stream whose next read is read
    number [k].  It reports that no record was read exactly when
    skStreamReadRecord gives none: at the end of the stream, or when the
    read fails, whether records are left in the stream or not; its
    callers cannot tell the two apart.  Otherwise it takes exactly the
    next record off the stream and either returns a node that holds this
    very record, every plug-in of the key having succeeded on it, or
    exits because some plug-in of the key failed on it. *)
Theorem X8_fillRecordAndKey_outcome L K ok k content :
  match fillRecordAndKey L K (open_reader ok k content) with
  | Done None => content = [] \/ ok k = false
  | Done (Some (n, rest')) =>
      ok k = true
      /\ exists rec rest,
           content = rec :: rest /\ rest' = open_reader ok (S k) rest
           /\ n_rec n = rec
           /\ Forall (fun f => fst (pf_rec_to_bin (kf_field_handle f) rec)
                               = SKPLUGIN_OK) (key_fields K)
  | Exit =>
      ok k = true
      /\ exists rec rest,
           content = rec :: rest
           /\ Exists (fun f => fst (pf_rec_to_bin (kf_field_handle f) rec)
                               <> SKPLUGIN_OK) (key_fields K)
  | _ => False
  end.
Proof.
  destruct content as [|rec rest]; simpl.
  - destruct (ok k) eqn:Hok; simpl; [by left|by right].
  - destruct (ok k) eqn:Hok; simpl; [|by right].
    unfold fill_record.
    pose proof (fill_keys_outcome L rec (key_fields K)
                  (replicate (Z.to_nat (node_size K - sizeof_rwRec L)) 0))
      as Hout.
    destruct (fill_keys L (key_fields K) rec _); simpl; try done.
    + split; [done|]. by exists rec, rest.
    + split; [done|]. by exists rec, rest.
Qed.

(** * Further properties of mergeFiles *)

Section MergeFilesMore.
Variable L : limits.
Variable K : config.
Variable env : environment.

Lemma open_loop_count pass t : forall js o o',
  open_loop env pass t js o = Done o' ->
  (length (op_recs o) <= length (op_recs o')
   <= length (op_recs o) + length js)%nat
  /\ (length (op_heap o') - length (op_heap o)
      = length (op_recs o') - length (op_recs o))%nat
  /\ (length (op_heap o) <= length (op_heap o'))%nat.
Proof.
  induction js as [|j js IH]; intros o o' Hopen; simpl in Hopen.
  - injection Hopen as <-. lia.
  - destruct (skTempFileOpen env pass t j) as [[|[n|] fp]|e]; [| |done|].
    + apply IH in Hopen. simpl. lia.
    + apply IH in Hopen. simpl in Hopen. rewrite !length_app in Hopen.
      simpl in *. lia.
    + destruct ((0 <? open_count o) && no_resource e); [|done].
      injection Hopen as <-. simpl. lia.
Qed.

Lemma length_pass_range a idx :
  1 <= MAX_MERGE_FILES L ->
  Z.of_nat (length (seqZ a (pass_bound L a idx - a + 1)))
  <= MAX_MERGE_FILES L.
Proof.
  intros HM. rewrite length_seqZ. unfold pass_bound.
  destruct (idx - a <? MAX_MERGE_FILES L - 1) eqn:Hc;
    [apply Z.ltb_lt in Hc|apply Z.ltb_ge in Hc]; lia.
Qed.

Lemma open_loop_no_truncation pass t :
  (forall j, env_temp_open env pass j <> OpenNoResource) ->
  forall js o o',
    open_loop env pass t js o = Done o' -> tmp_idx_b o' = tmp_idx_b o.
Proof.
  intros Hres. induction js as [|j js IH]; intros o o' Hopen;
    simpl in Hopen.
  - by injection Hopen as <-.
  - destruct (skTempFileOpen env pass t j) as [[|[n|] fp]|e] eqn:Hj;
      [| |done|].
    + by apply IH in Hopen.
    + by apply IH in Hopen.
    + assert (He : no_resource e = false).
      { unfold skTempFileOpen in Hj. specialize (Hres j).
        destruct (env_temp_open env pass j); try done.
        - destruct (tf_files t !! j); [done|]. by injection Hj as <-.
        - by injection Hj as <-. }
      rewrite He, andb_false_r in Hopen. done.
Qed.

Lemma open_loop_first pass t j js b o :
  tf_files t !! j <> Some [] ->
  open_loop env pass t (j :: js) (opened_none b) = Done o ->
  op_heap o <> [].
Proof.
  intros Hj Hopen. simpl in Hopen.
  destruct (skTempFileOpen env pass t j) as [[|[n|] fp]|e] eqn:Ho;
    [| |done|done].
  - unfold skTempFileOpen in Ho. destruct (env_temp_open env pass j); try done.
    destruct (tf_files t !! j) as [c|]; [|done]. injection Ho as Ho.
    apply open_reader_nil in Ho as ->. done.
  - apply open_loop_count in Hopen as (_ & _ & Hlen). simpl in Hlen.
    intros Hnil. rewrite Hnil in Hlen. simpl in Hlen. lia.
Qed.

(** A pass over a schedule whose first file exists and holds a record,
    or cannot be opened, does not reach the drain with an empty heap. *)
Lemma merge_pass_no_fault pass s :
  tf_next (tmpctx (mf_world s)) = temp_file_idx s + 1 ->
  tmp_idx_a s <= temp_file_idx s ->
  1 <= MAX_MERGE_FILES L ->
  tf_files (tmpctx (mf_world s)) !! tmp_idx_a s <> Some [] ->
  match merge_pass L K env pass s with
  | Done _ | Exit => True
  | _ => False
  end.
Proof.
  intros Hnext Ha HM Hfirst. unfold merge_pass.
  destruct (skTempFileCreate env (tmpctx (mf_world s))) as [[t idx]|] eqn:Hc;
    [|done].
  unfold skTempFileCreate in Hc.
  destruct (env_temp_create env _); [|done]. injection Hc as <- <-.
  set (t := {| tf_files := _; tf_next := _ |}).
  set (b := pass_bound L (tmp_idx_a s) (temp_file_idx s)).
  assert (Hb : tmp_idx_a s <= b).
  { unfold b, pass_bound. destruct (_ <? _); lia. }
  rewrite seqZ_cons by lia.
  match goal with
  | |- context [open_loop env pass t ?js ?o0] =>
      pose proof (open_loop_outcomes env pass t js o0) as Hout;
      destruct (open_loop env pass t js o0) as [o| | |] eqn:Ho; try done
  end.
  simpl.
  assert (Hheap : op_heap o <> []).
  { apply (open_loop_first _ _ _ _ _ _) in Ho; [done|].
    unfold t; simpl. rewrite lookup_insert_ne by lia. done. }
  destruct (open_loop_spec L K env pass t
              {| tmpctx := t; out_rwios := out_rwios (mf_world s) |}
              _ _ _ Ho (opened_none_wf _ _)) as (_ & _ & Hwf & _).
  pose proof (merge_opened_outcomes L K env s t
                (tf_next (tmpctx (mf_world s))) o Hwf) as Hres.
  destruct (merge_opened L K env s t _ o); try done. by destruct Hres.
Qed.
Lemma mergeFiles_loop_no_fault fuel : forall pass s,
  tf_next (tmpctx (mf_world s)) = temp_file_idx s + 1 ->
  tmp_idx_a s <= temp_file_idx s ->
  1 <= MAX_MERGE_FILES L ->
  no_empty_run (tmpctx (mf_world s)) (tmp_idx_a s) (temp_file_idx s) ->
  match mergeFiles_loop L K env fuel pass s with
  | Fault _ => False
  | _ => True
  end.
Proof.
  induction fuel as [|fuel IH]; intros pass s Hnext Ha HM Hruns; [done|].
  simpl.
  pose proof (merge_pass_no_fault pass s Hnext Ha HM
                (Hruns (tmp_idx_a s) ltac:(lia)))
    as Hout.
  destruct (merge_pass L K env pass s) as [[s' no_more]| | |] eqn:Hpass;
    try done.
  simpl. destruct no_more; [done|].
  destruct (merge_pass_spec L K env pass s s' false Hpass Hnext)
    as (b & l & Hab & Hb0 & _ & Hperm & Hne & _ & Ha' & Hnext' & Hfiles
        & Hnm & Hidx & Hout').
  apply IH; try done.
  - rewrite Hidx, Hnext'. lia.
  - rewrite Hidx, Ha'. lia.
  - intros j Hj. rewrite Hidx, Ha' in Hj. rewrite Hfiles.
    rewrite decide_False by lia.
    destruct (decide (j = temp_file_idx s + 1)) as [->|Hne'].
    + intros [= ->]. done.
    + apply Hruns. lia.
Qed.

Lemma mergeFiles_loop_ends fuel : forall pass s,
  (forall p j, env_temp_open env p j <> OpenNoResource) ->
  2 <= MAX_MERGE_FILES L ->
  tf_next (tmpctx (mf_world s)) = temp_file_idx s + 1 ->
  tmp_idx_a s <= temp_file_idx s ->
  (temp_file_idx s - tmp_idx_a s) / (MAX_MERGE_FILES L - 1) < Z.of_nat fuel ->
  match mergeFiles_loop L K env fuel pass s with
  | Timeout => False
  | Fault u => u = DrainEmptyHeap
  | _ => True
  end.
Proof.
  induction fuel as [|fuel IH]; intros pass s Hres HM Hnext Ha Hfuel.
  { assert (0 <= (temp_file_idx s - tmp_idx_a s) / (MAX_MERGE_FILES L - 1))
      by (apply Z.div_pos; lia). lia. }
  simpl. pose proof (merge_pass_outcomes L K env pass s) as Hout.
  destruct (merge_pass L K env pass s) as [[s' no_more]| | |] eqn:Hpass;
    try done.
  simpl. destruct no_more; [done|].
  destruct (merge_pass_spec L K env pass s s' false Hpass Hnext)
    as (b & l & Hab & Hb0 & (t1 & o & _ & Hopen & Hb) & _ & _ & _ & Ha'
        & Hnext' & _ & Hnm & Hidx & _).
  apply (open_loop_no_truncation pass t1 (Hres pass)) in Hopen.
  simpl in Hopen. rewrite Hb in Hopen.
  symmetry in Hnm. apply Z.eqb_neq in Hnm.
  assert (Hfull : b = tmp_idx_a s + MAX_MERGE_FILES L - 1
                  /\ MAX_MERGE_FILES L - 1
                     <= temp_file_idx s - tmp_idx_a s).
  { rewrite Hopen in Hnm |- *. unfold pass_bound in *.
    destruct (_ <? _) eqn:Hc; [done|]. apply Z.ltb_ge in Hc. done. }
  destruct Hfull as [Hbv Hge].
  apply IH; try done.
  - rewrite Hidx, Hnext'. lia.
  - rewrite Hidx, Ha'. lia.
  - rewrite Hidx, Ha'.
    replace (temp_file_idx s + 1 - (b + 1))
      with (temp_file_idx s - tmp_idx_a s
            + (-1) * (MAX_MERGE_FILES L - 1)) by lia.
    rewrite Z.div_add by lia. lia.
Qed.

Lemma mergeFiles_loop_leaves fuel : forall pass s w',
  mergeFiles_loop L K env fuel pass s = Done w' ->
  tf_next (tmpctx (mf_world s)) = temp_file_idx s + 1 ->
  files_within (tmpctx (mf_world s)) (tmp_idx_a s) (temp_file_idx s) ->
  forall j, tf_files (tmpctx w') !! j
            = if decide (j = tf_next (tmpctx w') - 1) then Some [] else None.
Proof.
  induction fuel as [|fuel IH]; intros pass s w' Hrun Hnext Hin; [done|].
  simpl in Hrun. inv_bind Hrun. destruct x as [s' no_more].
  destruct (merge_pass_spec L K env pass s s' no_more Hx Hnext)
    as (b & l & Hab & Hb0 & _ & _ & _ & _ & Ha' & Hnext' & Hfiles
        & Hnm & Hidx & _).
  destruct no_more.
  - injection Hrun as <-. symmetry in Hnm. apply Z.eqb_eq in Hnm.
    intros j. rewrite Hfiles, Hnext'.
    destruct (decide (tmp_idx_a s <= j <= b)).
    + by rewrite decide_False by lia.
    + destruct (decide (j = temp_file_idx s + 1)).
      * by rewrite decide_True by lia.
      * rewrite decide_False by lia. apply Hin. lia.
  - apply (IH _ _ _ Hrun).
    + rewrite Hidx, Hnext'. lia.
    + intros j Hj. rewrite Hidx, Ha' in Hj. rewrite Hfiles.
      destruct (decide (tmp_idx_a s <= j <= b)); [done|].
      rewrite decide_False by lia. apply Hin. lia.
Qed.
End MergeFilesMore.

(** X9: the opening loop of a pass stays within fps[] and recs[].
    Whenever it is about to open a temp file of its schedule, the slot
    open_count it opens it into is below MAX_MERGE_FILES; and when the
    loop is over, open_count is at most MAX_MERGE_FILES and the heap
    holds at most one entry for every slot, so that an insertion does
    not find the heap full. *)
Theorem X9_open_slots_in_bounds L env pass t a idx :
  1 <= MAX_MERGE_FILES L ->
  let b := pass_bound L a idx in
  (forall pre j post o,
     seqZ a (b - a + 1) = pre ++ j :: post ->
     open_loop env pass t pre (opened_none b) = Done o ->
     0 <= open_count o < MAX_MERGE_FILES L)
  /\ (forall o,
        open_loop env pass t (seqZ a (b - a + 1)) (opened_none b) = Done o ->
        open_count o <= MAX_MERGE_FILES L
        /\ Z.of_nat (length (op_heap o)) <= open_count o).
Proof.
  intros HM b.
  pose proof (length_pass_range L a idx HM) as Hlen. fold b in Hlen.
  split.
  - intros pre j post o Hsplit Hopen.
    apply open_loop_count in Hopen as (Hcount & _).
    rewrite Hsplit, length_app in Hlen. simpl in *.
    unfold open_count. lia.
  - intros o Hopen. apply open_loop_count in Hopen as (Hcount & Hheap & _).
    simpl in *. unfold open_count. lia.
Qed.

Lemma X9_open_slots_in_bounds_witness :
  exists o,
    open_loop (calm_env []) 0 (tmpctx two_runs)
      (seqZ 0 (pass_bound small_limits 0 1 - 0 + 1))
      (opened_none (pass_bound small_limits 0 1)) = Done o
    /\ open_count o <= 3.
Proof.
  eexists.
  assert (Hopen : open_loop (calm_env []) 0 (tmpctx two_runs)
                    (seqZ 0 (pass_bound small_limits 0 1 - 0 + 1))
                    (opened_none (pass_bound small_limits 0 1)) = Done _)
    by (vm_compute; reflexivity).
  split; [exact Hopen|].
  destruct (X9_open_slots_in_bounds small_limits (calm_env []) 0
              (tmpctx two_runs) 0 1 ltac:(simpl; lia)) as [_ Hend].
  destruct (Hend _ Hopen) as [Hcount _]. exact Hcount.
Defined.

(** X10: mergeFiles ends when no open of a temp file fails for lack of
    resources.  With room for at least two readers, every pass that does
    not reach the last scheduled file merges MAX_MERGE_FILES files into
    one, so that the passes are at most temp_file_idx / (MAX_MERGE_FILES
    - 1) + 1; the run then completes, exits, or drains an empty heap. *)
Theorem X10_mergeFiles_terminates L K env fuel idx w :
  2 <= MAX_MERGE_FILES L -> 0 <= idx ->
  tf_next (tmpctx w) = idx + 1 ->
  (forall p j, env_temp_open env p j <> OpenNoResource) ->
  idx / (MAX_MERGE_FILES L - 1) < Z.of_nat fuel ->
  match mergeFiles L K env fuel idx w with
  | Timeout => False
  | Fault u => u = DrainEmptyHeap
  | _ => True
  end.
Proof.
  intros HM Hidx Hnext Hres Hfuel. unfold mergeFiles.
  destruct (env_heap_create env false); [|done].
  apply mergeFiles_loop_ends; simpl; try done.
  by rewrite Z.sub_0_r.
Qed.

Lemma X10_mergeFiles_terminates_witness :
  mergeFiles small_limits (sport_config false false) (calm_env []) 1 1
    two_runs <> Timeout.
Proof.
  pose proof (X10_mergeFiles_terminates small_limits
                (sport_config false false) (calm_env []) 1 1 two_runs
                ltac:(simpl; lia) ltac:(lia) eq_refl
                ltac:(intros p j; discriminate)
                ltac:(vm_compute; reflexivity)) as Hend.
  intros Hrun. rewrite Hrun in Hend. exact Hend.
Defined.

(** X11: what mergeFiles leaves behind.  When it returns, every temp
    file it was given and every intermediate file it merged again has
    been removed; the one temp file left is the intermediate file of the
    last pass, the newest index, which is empty: the last pass wrote to
    the output and closed it unused. *)
Theorem X11_mergeFiles_leaves_one_file L K env fuel idx w w' :
  mergeFiles L K env fuel idx w = Done w' ->
  tf_next (tmpctx w) = idx + 1 ->
  files_within (tmpctx w) 0 idx ->
  tf_files (tmpctx w') = {[ tf_next (tmpctx w') - 1 := [] ]}.
Proof.
  intros Hrun Hnext Hin. unfold mergeFiles in Hrun.
  destruct (env_heap_create env false); [|done].
  pose proof (mergeFiles_loop_leaves L K env fuel _ _ _ Hrun Hnext Hin)
    as Hfiles.
  apply map_eq. intros j. rewrite Hfiles.
  destruct (decide (j = tf_next (tmpctx w') - 1)) as [->|Hne].
  - by rewrite lookup_singleton_eq.
  - by rewrite lookup_singleton_ne.
Qed.

Lemma X11_mergeFiles_leaves_one_file_witness :
  exists w',
    mergeFiles small_limits (sport_config false false) (calm_env []) 1 1
      two_runs = Done w'
    /\ tf_files (tmpctx w') = {[ tf_next (tmpctx w') - 1 := [] ]}.
Proof.
  eexists.
  assert (Hrun : mergeFiles small_limits (sport_config false false)
                   (calm_env []) 1 1 two_runs = Done _)
    by (vm_compute; reflexivity).
  split; [exact Hrun|].
  apply (X11_mergeFiles_leaves_one_file _ _ _ _ _ _ _ Hrun); [reflexivity|].
  intros j Hj. simpl.
  rewrite lookup_insert_ne by lia. rewrite lookup_insert_ne by lia. done.
Defined.

(** X12: mergeFiles over temp files that hold records has neither of
    the faults of its loops.  When none of the files 0 .. temp_file_idx
    is empty and RETURN_SORT_ORDER never negates INT_MIN, the first
    reader of every pass gives a record (or the run exits on its open or
    on its first fread), every intermediate file receives a record, and
    so the drain after the heap loop never runs on an empty heap; and
    recs[] and fps[] are read at slots that were filled only. *)
Theorem X12_mergeFiles_no_fault L K env fuel idx w :
  negation_defined L K ->
  1 <= MAX_MERGE_FILES L -> 0 <= idx ->
  tf_next (tmpctx w) = idx + 1 ->
  no_empty_run (tmpctx w) 0 idx ->
  forall u, mergeFiles L K env fuel idx w <> Fault u.
Proof.
  intros _ HM Hidx Hnext Hruns u. unfold mergeFiles.
  destruct (env_heap_create env false); [|done].
  pose proof (mergeFiles_loop_no_fault L K env fuel 0
                {| tmp_idx_a := 0; temp_file_idx := idx; mf_world := w |}
                Hnext Hidx HM Hruns) as Hout.
  by destruct (mergeFiles_loop L K env fuel 0 _).
Qed.

Lemma X12_mergeFiles_no_fault_witness :
  mergeFiles small_limits (sport_config true false) (calm_env []) 1 1
    two_runs <> Fault DrainEmptyHeap.
Proof.
  apply (X12_mergeFiles_no_fault small_limits (sport_config true false)
           (calm_env []) 1 1 two_runs);
    [by apply builtin_negation_defined|simpl; lia|lia|reflexivity|].
  intros j Hj.
  assert (Hcases : j = 0 \/ j = 1) by lia.
  destruct Hcases as [-> | ->]; vm_compute; discriminate.
Defined.

(** ** mergeFiles with room for a single reader *)

Section Starved.
Variable L : limits.
Variable K : config.
Variable env : environment.
Hypothesis Henv : one_reader_env env.
Hypothesis HM : 2 <= MAX_MERGE_FILES L.

Lemma merge_loop_single {item} (decode : item -> result node) fp fuel
    (m : merge_state) :
  (length (heap m) <= 1)%nat ->
  merge_loop L K env decode fp fuel m = Done m.
Proof.
  intros Hlen. apply Nat.leb_le in Hlen. destruct fuel; simpl; by rewrite Hlen.
Qed.

Lemma drain_loop_intermediate T : forall fp n w,
  exists w', drain_loop env Done (Some T) (S (length fp)) n fp w = Done w'.
Proof.
  destruct Henv as (_ & _ & _ & Hfwrite & _).
  induction fp as [|[x|] fp IH]; intros n w.
  - simpl. unfold temp_fwrite. rewrite Hfwrite. simpl. eauto.
  - cbn [length drain_loop]. unfold write_node, temp_fwrite.
    rewrite Hfwrite. cbn [mbind result_bind bind read_next mret result_ret].
    apply IH.
  - simpl. unfold temp_fwrite. rewrite Hfwrite. simpl. eauto.
Qed.

(** A pass opens the first scheduled file alone and copies it into the
    intermediate file, which joins the schedule. *)
Lemma one_reader_pass pass s :
  tmp_idx_a s = Z.of_nat pass ->
  tmp_idx_a s < temp_file_idx s ->
  tf_next (tmpctx (mf_world s)) = temp_file_idx s + 1 ->
  runs_nonempty (tmpctx (mf_world s)) (tmp_idx_a s) (temp_file_idx s) ->
  exists s',
    merge_pass L K env pass s = Done (s', false)
    /\ tmp_idx_a s' = Z.of_nat (S pass)
    /\ temp_file_idx s' = temp_file_idx s + 1
    /\ tf_next (tmpctx (mf_world s')) = temp_file_idx s' + 1
    /\ runs_nonempty (tmpctx (mf_world s')) (tmp_idx_a s') (temp_file_idx s').
Proof.
  intros Ha Hlt Hnext Hruns.
  destruct Henv as (Hok & Hfail & Hcreate & Hfwrite & Hfclose & _ & Hfread).
  destruct (Hruns (tmp_idx_a s) ltac:(lia)) as (n & fp0 & Hfile).
  set (fp := open_reader (env_temp_fread env (tmp_idx_a s)) 1 fp0).
  set (a := tmp_idx_a s) in *. set (T := temp_file_idx s) in *.
  set (t1 := {| tf_files := <[T + 1 := []]> (tf_files (tmpctx (mf_world s)));
                tf_next := T + 1 + 1 |}).
  set (b := pass_bound L a T).
  assert (Hb : a + 1 <= b).
  { unfold b, pass_bound. destruct (_ <? _); lia. }
  assert (Hopen : open_loop env pass t1 (seqZ a (b - a + 1)) (opened_none b)
                  = Done {| tmp_idx_b := a; op_recs := [n]; op_fps := [fp];
                            op_heap := [0%nat] |}).
  { rewrite seqZ_cons by lia. rewrite seqZ_cons by lia.
    cbn [open_loop]. unfold skTempFileOpen at 1.
    rewrite Ha, Hok, <- Ha. unfold t1 at 1. cbn [tf_files].
    rewrite lookup_insert_ne by lia. rewrite Hfile.
    cbn [open_reader]. rewrite Hfread.
    unfold skTempFileOpen. rewrite Ha.
    replace (Z.succ (Z.of_nat pass)) with (Z.of_nat pass + 1) by lia.
    rewrite Hfail. simpl. unfold fp. rewrite Ha. do 2 f_equal. lia. }
  assert (Hpass : exists s', merge_pass L K env pass s = Done (s', false)).
  { unfold merge_pass, skTempFileCreate. fold a T. rewrite Hnext, Hcreate.
    fold t1 b. rewrite Hopen.
    cbn [mbind result_bind bind]. unfold merge_opened.
    cbn [tmp_idx_b op_recs op_fps op_heap]. fold T.
    replace (a =? T) with false by (symmetry; apply Z.eqb_neq; lia).
    rewrite merge_loop_single by (simpl; lia).
    cbn [mbind result_bind bind recs heap skHeapPeekTop lowest_of].
    unfold drain. cbn [recs fps lookup list_lookup wld].
    destruct (drain_loop_intermediate (T + 1) fp n
                {| tmpctx := t1; out_rwios := out_rwios (mf_world s) |})
      as [w' Hw'].
    simpl. simpl in Hw'. rewrite Hw'. simpl. rewrite Hfclose. eauto. }
  destruct Hpass as [s' Hpass]. exists s'. split; [done|].
  destruct (merge_pass_spec L K env pass s s' false Hpass Hnext)
    as (b' & l & Hab & Hb0 & (t1' & o & Hcreate' & Hopen' & Hbo) & Hperm
        & Hne & _ & Ha' & Hnext' & Hfiles & Hnm & Hidx & _).
  fold a T in Hab, Hb0, Hcreate', Hopen', Hperm, Ha', Hnext', Hfiles, Hnm,
    Hidx.
  unfold skTempFileCreate in Hcreate'. rewrite Hnext, Hcreate in Hcreate'.
  injection Hcreate' as <-. fold t1 b in Hopen'. rewrite Hopen in Hopen'.
  injection Hopen' as <-. simpl in Hbo. subst b'.
  split; [rewrite Ha', Ha; lia|]. split; [done|].
  split; [rewrite Hidx, Hnext'; lia|].
  intros j Hj. rewrite Ha', Hidx in Hj. rewrite Hfiles.
  rewrite decide_False by lia.
  destruct (decide (j = T + 1)) as [->|Hj'].
  - destruct l as [|x l]; [done|]. eauto.
  - apply Hruns. lia.
Qed.

Lemma starved_loop fuel : forall pass s,
  tmp_idx_a s = Z.of_nat pass ->
  tmp_idx_a s < temp_file_idx s ->
  tf_next (tmpctx (mf_world s)) = temp_file_idx s + 1 ->
  runs_nonempty (tmpctx (mf_world s)) (tmp_idx_a s) (temp_file_idx s) ->
  mergeFiles_loop L K env fuel pass s = Timeout.
Proof.
  induction fuel as [|fuel IH]; intros pass s Ha Hlt Hnext Hruns; [done|].
  destruct (one_reader_pass pass s Ha Hlt Hnext Hruns)
    as (s' & Hpass & Ha' & Hidx & Hnext' & Hruns').
  simpl. rewrite Hpass. simpl. apply IH; try done.
  rewrite Ha', Hidx. lia.
Qed.
End Starved.

Lemma starved_env_one_reader : one_reader_env starved_env.
Proof.
  repeat split; simpl; intros p.
  - by rewrite Z.eqb_refl.
  - destruct (Z.eqb_spec (Z.of_nat p + 1) (Z.of_nat p)); [lia|done].
Qed.

(** X13: mergeFiles does not end when there is room for one reader
    only.  If in every pass the open of the second scheduled temp file
    fails for lack of file descriptors or memory, each pass copies what
    it reads of the one file it opened into a new intermediate file and
    schedules that file again: the number of files still to merge never
    goes down, and whatever the number of passes allowed, the loop is
    still running (for as long as temp files can be created and written
    and the first fread of a temp file gives a record). *)
Theorem X13_mergeFiles_starved L K env idx w :
  2 <= MAX_MERGE_FILES L ->
  one_reader_env env ->
  1 <= idx ->
  tf_next (tmpctx w) = idx + 1 ->
  runs_nonempty (tmpctx w) 0 idx ->
  forall fuel, mergeFiles L K env fuel idx w = Timeout.
Proof.
  intros HM Henv Hidx Hnext Hruns fuel. unfold mergeFiles.
  pose proof Henv as (_ & _ & _ & _ & _ & Hheap & _). rewrite Hheap.
  apply (starved_loop L K env); try done. simpl. lia.
Qed.

Lemma X13_mergeFiles_starved_witness :
  mergeFiles small_limits (sport_config false false) starved_env 20 1 two_runs
  = Timeout.
Proof.
  apply (X13_mergeFiles_starved small_limits (sport_config false false)
           starved_env 1 two_runs).
  - simpl. lia.
  - exact starved_env_one_reader.
  - lia.
  - reflexivity.
  - intros j Hj.
    assert (Hcases : j = 0 \/ j = 1) by lia.
    destruct Hcases as [-> | ->]; vm_compute; eauto.
Defined.

(** * Further properties of sortPresorted *)

Section PresortedMore.
Variable L : limits.
Variable K : config.
Variable env : environment.

Lemma length_input_readers inputs : forall i,
  length (input_readers env i inputs) = length inputs.
Proof.
  induction inputs as [|s inputs IH]; intros i; simpl; [done|].
  by rewrite IH.
Qed.

Lemma open_inputs_cases pass n : forall i inputs acc rv rwios i' rest,
  open_inputs env pass n i inputs acc = (rv, rwios, i', rest) ->
  exists opened,
    rwios = acc ++ input_readers env i opened /\ inputs = opened ++ rest
    /\ i' = (i + length opened)%nat
    /\ (length opened <= n)%nat
    /\ ((rv = 0 /\ length opened = n)
        \/ (rv = 1 /\ rest = [])
        \/ ((rv = -1 \/ rv = -2) /\ (length opened < n)%nat /\ rest <> [])).
Proof.
  induction n as [|n IH]; intros i inputs acc rv rwios i' rest; simpl.
  - intros [= <- <- <- <-]. exists []. simpl. rewrite app_nil_r, Nat.add_0_r.
    repeat split; auto.
  - unfold appNextInput. destruct inputs as [|s inputs].
    + intros [= <- <- <- <-]. exists []. simpl.
      rewrite app_nil_r, Nat.add_0_r.
      repeat split; simpl; auto with lia.
    + destruct (env_input_open env pass i).
      * intros Hopen. simpl in Hopen.
        destruct (IH _ _ _ _ _ _ _ Hopen)
          as (opened & -> & -> & -> & Hlen & Hrv).
        exists (s :: opened). rewrite <- app_assoc. simpl.
        repeat split; try done; try lia.
        destruct Hrv as [[? ?]|[[? ?]|[? [? ?]]]]; [left|right; left|right; right];
          repeat split; auto with lia.
      * intros [= <- <- <- <-]. exists []. simpl.
        rewrite app_nil_r, Nat.add_0_r.
        repeat split; simpl; try lia. right; right. repeat split; auto with lia.
      * intros [= <- <- <- <-]. exists []. simpl.
        rewrite app_nil_r, Nat.add_0_r.
        repeat split; simpl; try lia. right; right. repeat split; auto with lia.
Qed.

Lemma open_inputs_ok pass n : forall i inputs acc,
  (forall j, env_input_open env pass j = OpenOk) ->
  open_inputs env pass n i inputs acc
  = if (length inputs <? n)%nat
    then (1, acc ++ input_readers env i inputs, (i + length inputs)%nat, [])
    else (0, acc ++ input_readers env i (take n inputs), (i + n)%nat,
          drop n inputs).
Proof.
  induction n as [|n IH]; intros i inputs acc Hok; simpl.
  - by rewrite app_nil_r, Nat.add_0_r.
  - unfold appNextInput. destruct inputs as [|s inputs].
    + simpl. by rewrite app_nil_r, Nat.add_0_r.
    + rewrite Hok. simpl tail. rewrite IH by done.
      change (length (s :: inputs) <? S n)%nat
        with (length inputs <? n)%nat.
      destruct (length inputs <? n)%nat; simpl;
        rewrite <- app_assoc; simpl; do 2 f_equal; lia.
Qed.

(** With every open succeeding, a pass takes the next MAX_MERGE_FILES
    inputs, and it is the last pass exactly when fewer were left. *)
Lemma presorted_pass_ok pass s s' idx' no_more :
  (forall j, env_input_open env pass j = OpenOk) ->
  0 <= MAX_MERGE_FILES L ->
  presorted_pass L K env pass s = Done (s', idx', no_more) ->
  no_more = (length (ps_inputs s) <? Z.to_nat (MAX_MERGE_FILES L))%nat
  /\ ps_inputs s'
     = drop (Z.to_nat (MAX_MERGE_FILES L)) (ps_inputs s).
Proof.
  intros Hok HM Hpass. unfold presorted_pass in Hpass.
  destruct (skTempFileCreate env _) as [[t i0]|]; [|done].
  rewrite open_inputs_ok in Hpass by done.
  destruct (length (ps_inputs s) <? Z.to_nat (MAX_MERGE_FILES L))%nat
    eqn:Hlen.
  - apply Nat.ltb_lt in Hlen. cbn [app] in Hpass. simpl in Hpass.
    destruct (i0 =? 0); simpl in Hpass;
      repeat (inv_bind Hpass);
      try match type of Hpass with
          | context [if ?c then _ else _] => destruct c; [|done]
          end;
      injection Hpass as <- <- <-; simpl;
      (split; [done|]); symmetry; apply drop_ge; lia.
  - apply Nat.ltb_ge in Hlen. cbn [app] in Hpass.
    replace (1 =? 0) with false in Hpass by done.
    cbv beta iota zeta in Hpass.
    replace (0 =? 1) with false in Hpass by done.
    replace (0 =? -1) with false in Hpass by done.
    replace (0 =? -2) with false in Hpass by done.
    replace (0 =? 0) with true in Hpass by done.
    rewrite length_input_readers, length_take, Nat.min_l in Hpass by done.
    rewrite Z2Nat.id, Z.eqb_refl in Hpass by done.
    cbn [mbind result_bind bind] in Hpass.
    repeat (inv_bind Hpass).
    destruct (fclose_intermediate env (Some i0)); [|done].
    by injection Hpass as <- <- <-.
Qed.

Lemma sortPresorted_loop_passes fuel : forall pass s idx w,
  (forall p j, env_input_open env p j = OpenOk) ->
  1 <= MAX_MERGE_FILES L ->
  tf_next (tmpctx (ps_world s)) = Z.of_nat pass ->
  sortPresorted_loop L K env fuel pass s = Done (idx, w) ->
  let N := Z.of_nat (length (ps_inputs s)) in
  tf_next (tmpctx w) = Z.of_nat pass + N / MAX_MERGE_FILES L + 1
  /\ idx = (if (Z.of_nat pass =? 0) && (N <? MAX_MERGE_FILES L) then -1
            else Z.of_nat pass + N / MAX_MERGE_FILES L)
  /\ (0 < Z.of_nat pass \/ MAX_MERGE_FILES L <= N ->
      N mod MAX_MERGE_FILES L = 0 ->
      tf_files (tmpctx w) !! idx = Some []).
Proof.
  induction fuel as [|fuel IH]; intros pass s idx w Hok HM Hnext Hrun;
    [done|].
  simpl in Hrun. inv_bind Hrun. destruct x as [[s' ti] no_more].
  rename Hx into Hpass.
  destruct (presorted_pass_ok pass s s' ti no_more (Hok pass) ltac:(lia)
              Hpass) as [Hnm Hrest].
  destruct (presorted_pass_spec L K env pass s s' ti no_more Hpass)
    as (opened & l & Hsplit & _ & _ & Hperm & _ & Hdest).
  rewrite Hnext in Hdest. intros N.
  destruct no_more.
  - injection Hrun as <- <-. symmetry in Hnm. apply Nat.ltb_lt in Hnm.
    assert (HN : N < MAX_MERGE_FILES L) by (unfold N; lia).
    rewrite Z.div_small by (unfold N; lia).
    rewrite Z.mod_small by (unfold N; lia).
    replace (N <? MAX_MERGE_FILES L) with true
      by (symmetry; apply Z.ltb_lt; lia).
    rewrite andb_true_r. simpl in Hdest.
    destruct (Z.of_nat pass =? 0) eqn:Hp.
    + apply Z.eqb_eq in Hp. destruct Hdest as (-> & -> & _). simpl.
      split; [lia|]. split; [done|]. lia.
    + destruct Hdest as (-> & -> & Hfile & _).
      split; [lia|]. split; [lia|]. intros _ HN0.
      rewrite Hfile, decide_True by done.
      assert (Hin : ps_inputs s = []).
      { unfold N in HN0. by destruct (ps_inputs s). }
      rewrite Hin in Hsplit. symmetry in Hsplit.
      apply app_eq_nil in Hsplit as [-> _].
      apply Permutation_nil_r in Hperm. by rewrite Hperm.
  - symmetry in Hnm. apply Nat.ltb_ge in Hnm. simpl in Hdest.
    destruct Hdest as (-> & Hn' & _).
    assert (HN : MAX_MERGE_FILES L <= N) by (unfold N; lia).
    replace (N <? MAX_MERGE_FILES L) with false
      by (symmetry; apply Z.ltb_ge; lia).
    rewrite andb_false_r.
    destruct (IH (S pass) s' idx w Hok HM ltac:(lia) Hrun)
      as (Hw & Hidx & Hlast).
    rewrite Hrest, length_drop in Hw, Hidx, Hlast.
    replace (Z.of_nat (length (ps_inputs s)
                       - Z.to_nat (MAX_MERGE_FILES L)))
      with (N + (-1) * MAX_MERGE_FILES L) in Hw, Hidx, Hlast
      by (unfold N; lia).
    rewrite Z.div_add in Hw, Hidx by lia.
    rewrite Z.mod_add in Hlast by lia.
    replace (Z.of_nat (S pass) =? 0) with false in Hidx
      by (symmetry; apply Z.eqb_neq; lia).
    simpl in Hidx. split; [lia|]. split; [lia|].
    intros _ HN0. apply Hlast; [lia|done].
Qed.

(** With every open succeeding, the passes come to an end. *)
Lemma sortPresorted_loop_ends fuel : forall pass s,
  (forall p j, env_input_open env p j = OpenOk) ->
  1 <= MAX_MERGE_FILES L ->
  Z.of_nat (length (ps_inputs s)) / MAX_MERGE_FILES L < Z.of_nat fuel ->
  match sortPresorted_loop L K env fuel pass s with
  | Done _ | Exit => True
  | _ => False
  end.
Proof.
  induction fuel as [|fuel IH]; intros pass s Hok HM Hfuel.
  { assert (0 <= Z.of_nat (length (ps_inputs s)) / MAX_MERGE_FILES L)
      by (apply Z.div_pos; lia). lia. }
  simpl. pose proof (presorted_pass_outcomes L K env pass s) as Hout.
  destruct (presorted_pass L K env pass s) as [[[s' ti] no_more]| | |]
    eqn:Hpass; try done.
  simpl. destruct no_more; [done|].
  destruct (presorted_pass_ok pass s s' ti false (Hok pass) ltac:(lia)
              Hpass) as [Hnm Hrest].
  symmetry in Hnm. apply Nat.ltb_ge in Hnm.
  apply IH; try done. rewrite Hrest, length_drop.
  replace (Z.of_nat (length (ps_inputs s) - Z.to_nat (MAX_MERGE_FILES L)))
    with (Z.of_nat (length (ps_inputs s)) + (-1) * MAX_MERGE_FILES L) by lia.
  rewrite Z.div_add by lia. lia.
Qed.

Lemma blocked_loop fuel : forall pass w,
  no_input_handle_env env ->
  1 <= MAX_MERGE_FILES L ->
  sortPresorted_loop L K env fuel pass
    {| ps_next := 0; ps_inputs := env_inputs env; ps_world := w |}
  = Timeout.
Proof.
  induction fuel as [|fuel IH]; intros pass w Henv HM; [done|].
  pose proof Henv as (Hopen & Hcreate & Hfclose & _ & Hin).
  simpl. unfold presorted_pass, skTempFileCreate. cbn [ps_world ps_inputs
    ps_next]. rewrite Hcreate.
  destruct (Z.to_nat (MAX_MERGE_FILES L)) as [|n] eqn:Hn; [lia|].
  cbn [open_inputs]. unfold appNextInput.
  destruct (env_inputs env) as [|s rest] eqn:Hinputs; [done|].
  rewrite Hopen. simpl. rewrite Hfclose. simpl.
  by apply IH.
Qed.
End PresortedMore.

(** X14: how the opening loop of sortPresorted ends.  It opens at most
    MAX_MERGE_FILES inputs, in order, each as the stream appNextInput
    makes of it; it ends with rv = 0 only when it opened MAX_MERGE_FILES
    of them, with rv = 1 only when no input is left, and with rv = -1 or
    -2 only on an input that is still to be opened.  The two branches of
    the switch that call skAbort (rv = 0 with fewer readers, and the
    default case) are never taken. *)
Theorem X14_open_inputs_cases L env pass i inputs rv rwios i' rest :
  open_inputs env pass (Z.to_nat (MAX_MERGE_FILES L)) i inputs []
  = (rv, rwios, i', rest) ->
  exists opened,
    inputs = opened ++ rest
    /\ rwios = input_readers env i opened
    /\ i' = (i + length opened)%nat
    /\ (length opened <= Z.to_nat (MAX_MERGE_FILES L))%nat
    /\ ((rv = 0 /\ length opened = Z.to_nat (MAX_MERGE_FILES L))
        \/ (rv = 1 /\ rest = [])
        \/ ((rv = -1 \/ rv = -2)
            /\ (length opened < Z.to_nat (MAX_MERGE_FILES L))%nat
            /\ rest <> [])).
Proof.
  intros Hopen.
  destruct (open_inputs_cases env pass _ _ _ _ _ _ _ _ Hopen)
    as (opened & -> & -> & -> & Hlen & Hrv).
  by exists opened.
Qed.

Lemma X14_open_inputs_cases_witness :
  exists opened,
    [[rec_of 1]; [rec_of 2]; [rec_of 3]; [rec_of 4]] = opened ++ [[rec_of 4]]
    /\ length opened = 3%nat.
Proof.
  destruct (X14_open_inputs_cases small_limits
              (calm_env [[1]; [2]; [3]; [4]])
              0 0 [[rec_of 1]; [rec_of 2]; [rec_of 3]; [rec_of 4]]
              0 [[Got (rec_of 1)]; [Got (rec_of 2)]; [Got (rec_of 3)]]
              3%nat [[rec_of 4]] eq_refl)
    as (opened & Hin & Hrw & _).
  exists opened. split; [exact Hin|].
  apply (f_equal length) in Hrw. rewrite length_input_readers in Hrw.
  by rewrite <- Hrw.
Defined.

(** X15: the passes of sortPresorted.  When every input can be opened,
    N inputs take N / MAX_MERGE_FILES + 1 passes: given that many, the
    run returns, unless it exits on a fatal error.  Each pass creates
    one temp file: with fewer than MAX_MERGE_FILES inputs the single
    pass writes to the output and -1 is returned; otherwise the index of
    the last temp file, N / MAX_MERGE_FILES, is returned for mergeFiles,
    and when N is a multiple of MAX_MERGE_FILES the last pass has no
    input left to open and its temp file stays empty. *)
Theorem X15_presorted_passes L K env fuel :
  1 <= MAX_MERGE_FILES L ->
  (forall p j, env_input_open env p j = OpenOk) ->
  let N := Z.of_nat (length (env_inputs env)) in
  N / MAX_MERGE_FILES L < Z.of_nat fuel ->
  match sortPresorted L K env fuel world_init with
  | Done (idx, w) =>
      idx = (if N <? MAX_MERGE_FILES L then -1 else N / MAX_MERGE_FILES L)
      /\ tf_next (tmpctx w) = N / MAX_MERGE_FILES L + 1
      /\ (MAX_MERGE_FILES L <= N -> N mod MAX_MERGE_FILES L = 0 ->
          tf_files (tmpctx w) !! idx = Some [])
  | Exit => True
  | _ => False
  end.
Proof.
  intros HM Hok N Hfuel. unfold sortPresorted.
  destruct (env_heap_create env true); [|done].
  set (s0 := {| ps_next := 0; ps_inputs := env_inputs env;
                ps_world := world_init |}).
  pose proof (sortPresorted_loop_ends L K env fuel 0 s0 Hok HM Hfuel)
    as Hends.
  destruct (sortPresorted_loop L K env fuel 0 s0) as [[idx w]| | |] eqn:Hrun;
    try done.
  destruct (sortPresorted_loop_passes L K env fuel 0 s0 idx w Hok HM eq_refl
              Hrun) as (Hw & Hidx & Hlast).
  simpl in Hw, Hidx, Hlast. fold N in Hw, Hidx, Hlast.
  split; [done|]. split; [done|]. intros HN. apply Hlast. by right.
Qed.

Lemma X15_presorted_passes_witness :
  exists w,
    sortPresorted small_limits (sport_config false true)
      (calm_env [[1; 4; 7]; [2; 5; 8]; [3; 6; 9]]) 10 world_init
    = Done (1, w)
    /\ tf_next (tmpctx w) = 2
    /\ tf_files (tmpctx w) !! 1 = Some [].
Proof.
  eexists.
  assert (Hrun : sortPresorted small_limits (sport_config false true)
                   (calm_env [[1; 4; 7]; [2; 5; 8]; [3; 6; 9]]) 10
                   world_init = Done (1, _))
    by (vm_compute; reflexivity).
  split; [exact Hrun|].
  pose proof (X15_presorted_passes small_limits (sport_config false true)
                (calm_env [[1; 4; 7]; [2; 5; 8]; [3; 6; 9]]) 10
                ltac:(simpl; lia) ltac:(reflexivity)
                ltac:(vm_compute; reflexivity)) as Hspec.
  rewrite Hrun in Hspec. destruct Hspec as (_ & Hnext & Hlast).
  split; [exact Hnext|]. apply Hlast; [simpl; lia|reflexivity].
Defined.

(** X16: sortPresorted does not end when no input can be opened for
    lack of resources.  When appNextInput reports -2 on the first input
    of a pass, the pass has no reader: it closes the empty temp file it
    created and starts the next pass, without looking at open_count as
    mergeFiles does.  If the shortage lasts, every pass is such a pass:
    whatever the number of passes allowed, the loop is still running,
    one more empty temp file created each time. *)
Theorem X16_presorted_blocked L K env w :
  1 <= MAX_MERGE_FILES L ->
  no_input_handle_env env ->
  forall fuel, sortPresorted L K env fuel w = Timeout.
Proof.
  intros HM Henv fuel. unfold sortPresorted.
  pose proof Henv as (_ & _ & _ & Hheap & _). rewrite Hheap.
  by apply blocked_loop.
Qed.

Lemma X16_presorted_blocked_witness :
  sortPresorted small_limits (sport_config false true) blocked_env 20
    world_init = Timeout.
Proof.
  apply (X16_presorted_blocked small_limits (sport_config false true)
           blocked_env world_init).
  - simpl. lia.
  - repeat split; discriminate.
Defined.

(** * Further properties of sortRandom *)

Section RandomMore.
Variable L : limits.
Variable K : config.
Variable env : environment.

Lemma record_count_snoc s n s' :
  record_buffer s' = record_buffer s ++ [n] ->
  record_count s' = record_count s + 1.
Proof. unfold record_count. intros ->. rewrite length_app. simpl. lia. Qed.

Lemma alloc_chunk_ok fuel : forall max_recs g,
  0 < MIN_IN_CORE_RECORDS L ->
  (forall g', env_calloc env g' 0 = false) ->
  0 <= max_recs -> max_recs + 1 < 2 ^ 32 -> 1 <= g ->
  match alloc_chunk L env fuel max_recs g with
  | Done (chunk, g') => 1 <= chunk /\ 1 <= g' /\ chunk = max_recs / g'
  | Fault _ => False
  | _ => True
  end.
Proof.
  induction fuel as [|fuel IH]; intros max_recs g Hmin Hzero Hmax Hwrap Hg;
    [done|].
  simpl. replace (g =? 0) with false by (symmetry; apply Z.eqb_neq; lia).
  assert (Hchunk : 0 <= max_recs / g) by (apply Z.div_pos; lia).
  destruct (env_calloc env g (max_recs / g)) eqn:Hc.
  - split; [|done].
    destruct (decide (max_recs / g = 0)) as [Hz|Hz]; [|lia].
    rewrite Hz, Hzero in Hc. done.
  - destruct (max_recs / g <? MIN_IN_CORE_RECORDS L) eqn:Hlt; [done|].
    apply Z.ltb_ge in Hlt.
    assert (Hgm : g <= max_recs).
    { destruct (Z_lt_le_dec max_recs g) as [Hlt'|]; [|done].
      rewrite Z.div_small in Hlt by lia. lia. }
    rewrite wrap_u32_id by (unfold UINT32_MAX; lia).
    apply IH; try done. lia.
Qed.

(** Storing a record keeps the buffer in order, and stays inside it. *)
Lemma store_record_ok chunk n s :
  buffer_ok K chunk s ->
  match store_record L K env chunk n s with
  | Done s' => buffer_ok K chunk s'
  | Exit => True
  | _ => False
  end.
Proof.
  intros (Hns & Hchunk & Hcount & Hle & Hroom & Hcur & Hbytes & Hfit & Hdbl).
  unfold store_record.
  replace (cur_node s =? record_count s * node_size K) with true
    by (symmetry; apply Z.eqb_eq; done).
  replace (cur_node s + node_size K <=? buffer_bytes s) with true
    by (symmetry; apply Z.leb_le; nia).
  cbn [andb negb].
  match goal with
  | |- context [record_count ?x =? buffer_recs ?x] => set (s1 := x)
  end.
  assert (Hc1 : record_count s1 = record_count s + 1)
    by (by apply (record_count_snoc s n)).
  change (buffer_recs s1) with (buffer_recs s).
  change (buffer_max_recs s1) with (buffer_max_recs s).
  rewrite Hc1.
  destruct (record_count s + 1 =? buffer_recs s) eqn:Hfull;
    [apply Z.eqb_eq in Hfull|apply Z.eqb_neq in Hfull].
  2: { unfold buffer_ok. rewrite Hc1. cbn [buffer_recs buffer_max_recs
         cur_node buffer_bytes s1]. repeat split; try done; lia. }
  destruct (buffer_recs s <? buffer_max_recs s) eqn:Hgrow;
    [apply Z.ltb_lt in Hgrow|apply Z.ltb_ge in Hgrow].
  - (* the buffer may grow *)
    unfold grow_buffer.
    change (buffer_recs s1) with (buffer_recs s).
    change (buffer_max_recs s1) with (buffer_max_recs s).
    set (target := grow_target chunk (buffer_recs s) (buffer_max_recs s)).
    assert (Htarget : buffer_recs s < target <= buffer_max_recs s
                      /\ (target + chunk <= buffer_max_recs s
                          \/ target = buffer_max_recs s)).
    { unfold target, grow_target.
      destruct Hroom as [Hroom|Hroom]; [|lia].
      rewrite (wrap_u32_id (buffer_recs s + chunk))
        by (unfold UINT32_MAX; lia).
      rewrite wrap_u32_id by (unfold UINT32_MAX; lia).
      destruct (buffer_max_recs s <? buffer_recs s + chunk + chunk) eqn:Hn;
        [apply Z.ltb_lt in Hn|apply Z.ltb_ge in Hn]; lia. }
    destruct Htarget as [Htr Htroom].
    rewrite (wrap_u32_id (node_size K * target))
      by (unfold UINT32_MAX; nia).
    destruct (env_realloc env (node_size K * target)).
    + match goal with
      | |- context [record_count ?x =? _] =>
          change (record_count x) with (record_count s1)
      end.
      cbn [buffer_max_recs]. rewrite Hc1.
      replace (record_count s + 1 =? buffer_max_recs s) with false
        by (symmetry; apply Z.eqb_neq; lia).
      unfold buffer_ok.
      match goal with
      | |- context [record_count ?x] =>
          change (record_count x) with (record_count s1)
      end.
      cbn [buffer_recs buffer_max_recs cur_node buffer_bytes]. rewrite Hc1.
      rewrite wrap_u32_id by (unfold UINT32_MAX; nia).
      repeat split; try done; lia.
    + match goal with
      | |- context [record_count ?x =? _] =>
          change (record_count x) with (record_count s1)
      end.
      cbn [buffer_max_recs]. rewrite Z.eqb_refl.
      unfold spill_buffer. cbn [rnd_tmpctx record_buffer].
      destruct (skTempFileWriteBuffer env (rnd_tmpctx s1) _) as [[t idx]|];
        [|done].
      unfold buffer_ok, record_count.
      cbn [buffer_recs buffer_max_recs cur_node buffer_bytes record_buffer
           length s1].
      change (Z.of_nat (length (record_buffer s ++ [n])))
        with (record_count s1).
      rewrite !Hc1. repeat split; try done; try lia; try nia.
  - (* the buffer is at its maximum *)
    change (buffer_max_recs s1) with (buffer_max_recs s). rewrite Hc1.
    replace (record_count s + 1 =? buffer_max_recs s) with true
      by (symmetry; apply Z.eqb_eq; lia).
    unfold spill_buffer.
    destruct (skTempFileWriteBuffer env (rnd_tmpctx s1) _) as [[t idx]|];
      [|done].
    unfold buffer_ok, record_count.
    cbn [buffer_recs buffer_max_recs cur_node buffer_bytes record_buffer
         length s1].
    repeat split; try done; try lia; try nia.
Qed.

Lemma read_stream_ok chunk rwios : forall s,
  buffer_ok K chunk s ->
  match read_stream L K env chunk rwios s with
  | Done s' => buffer_ok K chunk s'
  | Exit => True
  | _ => False
  end.
Proof.
  induction rwios as [|[r|] rwios IH]; intros s Hok; simpl; [done| |done].
  destruct (fill_record_total L K r) as [->|[n ->]]; simpl; [done|].
  pose proof (store_record_ok chunk n s Hok) as Hst.
  destruct (store_record L K env chunk n s); simpl; try done. by apply IH.
Qed.

Lemma read_inputs_ok chunk inputs : forall i s,
  buffer_ok K chunk s ->
  match read_inputs L K env chunk i inputs s with
  | Done s' => buffer_ok K chunk s'
  | Exit => True
  | _ => False
  end.
Proof.
  induction inputs as [|rwios inputs IH]; intros i s Hok; simpl; [done|].
  destruct (env_input_open env 0 i); try done.
  pose proof (read_stream_ok chunk
                (open_reader (env_input_read env i) 0 rwios) s Hok) as Hrd.
  destruct (read_stream L K env chunk _ s); simpl; try done.
  by apply IH.
Qed.

Lemma write_batch_outcomes l : forall o,
  match write_batch env l o with
  | Done _ | Exit => True
  | _ => False
  end.
Proof.
  induction l as [|n l IH]; intros o; simpl; [done|].
  unfold write_out. destruct (env_write env (out_calls o) (n_rec n));
    simpl; try done; apply IH.
Qed.

(** The state sortRandom starts to read with. *)
Lemma initial_buffer_ok chunk g w :
  2 <= node_size K -> 0 <= sort_buffer_size K < 2 ^ 32 ->
  1 <= chunk -> 1 <= g ->
  chunk = wrap_u32 (sort_buffer_size K / node_size K) / g ->
  buffer_ok K chunk
    {| record_buffer := []; cur_node := 0;
       buffer_bytes := chunk * node_size K; buffer_recs := chunk;
       buffer_max_recs := wrap_u32 (sort_buffer_size K / node_size K);
       rnd_temp_file_idx := -1; rnd_tmpctx := tmpctx w |}.
Proof.
  intros Hns Hsbs Hchunk Hg Hdef.
  assert (Hq : 0 <= sort_buffer_size K / node_size K)
    by (apply Z.div_pos; lia).
  assert (Hq2 : sort_buffer_size K / node_size K * node_size K
                <= sort_buffer_size K)
    by (rewrite Z.mul_comm; apply Z.mul_div_le; lia).
  rewrite wrap_u32_id in * by (unfold UINT32_MAX; nia).
  set (max_recs := sort_buffer_size K / node_size K) in *.
  assert (Hcg : chunk * g <= max_recs)
    by (subst chunk; rewrite Z.mul_comm; apply Z.mul_div_le; lia).
  unfold buffer_ok, record_count.
  cbn [record_buffer length cur_node buffer_bytes buffer_recs
       buffer_max_recs].
  repeat split; try lia; try nia.
  destruct (decide (g = 1)) as [->|Hg1].
  - right. rewrite Z.div_1_r in Hdef. done.
  - left. nia.
Qed.

Lemma sortRandom_no_fault fuel w :
  budget_ok L K env ->
  match sortRandom L K env fuel w with
  | Fault _ => False
  | _ => True
  end.
Proof.
  intros (Hns & Hsbs & Hmin & Hzero). unfold sortRandom.
  assert (Hq : 0 <= sort_buffer_size K / node_size K)
    by (apply Z.div_pos; lia).
  assert (Hq2 : sort_buffer_size K / node_size K * node_size K
                <= sort_buffer_size K)
    by (rewrite Z.mul_comm; apply Z.mul_div_le; lia).
  set (max_recs := wrap_u32 (sort_buffer_size K / node_size K)).
  assert (Hmax : max_recs = sort_buffer_size K / node_size K)
    by (unfold max_recs; apply wrap_u32_id; unfold UINT32_MAX; nia).
  set (g := if wrap_u32 (SORT_NUM_CHUNKS L) <=? 0 then 1
            else wrap_u32 (SORT_NUM_CHUNKS L)).
  assert (Hg : 1 <= g).
  { unfold g. destruct (_ <=? _) eqn:Hc; [lia|]. apply Z.leb_gt in Hc. lia. }
  pose proof (alloc_chunk_ok fuel max_recs g Hmin Hzero ltac:(lia)
                ltac:(nia) Hg) as Halloc.
  destruct (alloc_chunk L env fuel max_recs g) as [[chunk g']| | |];
    try done.
  destruct Halloc as (Hchunk & Hg' & Hdef). simpl.
  pose proof (read_inputs_ok chunk (env_inputs env) 0 _
                (initial_buffer_ok chunk g' w Hns Hsbs Hchunk Hg' Hdef))
    as Hread.
  destruct (read_inputs L K env chunk 0 (env_inputs env) _) as [s| | |];
    try done.
  simpl. destruct (0 <? record_count s); [|done].
  destruct (0 <=? rnd_temp_file_idx s).
  - unfold spill_buffer. by destruct (skTempFileWriteBuffer _ _ _) as [[??]|].
  - pose proof (write_batch_outcomes (skQSort L K (record_buffer s))
                  (out_rwios w)) as Hw.
    by destruct (write_batch env _ _).
Qed.

(** The retries of the initial allocation come to an end: every retry
    has one more chunk, and a chunk of no record is below the floor. *)
Lemma alloc_chunk_ends fuel : forall max_recs g,
  0 < MIN_IN_CORE_RECORDS L ->
  0 <= max_recs -> max_recs + 1 < 2 ^ 32 -> 1 <= g ->
  max_recs + 2 - g <= Z.of_nat fuel -> (1 <= fuel)%nat ->
  alloc_chunk L env fuel max_recs g <> Timeout.
Proof.
  induction fuel as [|fuel IH]; intros max_recs g Hmin Hmax Hwrap Hg Hf H1;
    [lia|].
  simpl. replace (g =? 0) with false by (symmetry; apply Z.eqb_neq; lia).
  destruct (env_calloc env g (max_recs / g)); [done|].
  destruct (max_recs / g <? MIN_IN_CORE_RECORDS L) eqn:Hlt; [done|].
  apply Z.ltb_ge in Hlt.
  assert (Hgm : g <= max_recs).
  { destruct (Z_lt_le_dec max_recs g) as [Hlt'|]; [|done].
    rewrite Z.div_small in Hlt by lia. lia. }
  rewrite wrap_u32_id by (unfold UINT32_MAX; lia).
  apply IH; try done; lia.
Qed.

(** Given the retries the initial allocation may need, sortRandom
    returns or exits. *)
Lemma sortRandom_ends fuel w :
  budget_ok L K env ->
  sort_buffer_size K / node_size K + 2 <= Z.of_nat fuel ->
  match sortRandom L K env fuel w with
  | Done _ | Exit => True
  | _ => False
  end.
Proof.
  intros Hok Hfuel.
  pose proof (sortRandom_no_fault fuel w Hok) as Hout.
  destruct (sortRandom L K env fuel w) as [[idx w']| | |] eqn:Hsort;
    try done.
  destruct Hok as (Hns & Hsbs & Hmin & Hzero). unfold sortRandom in Hsort.
  assert (Hq : 0 <= sort_buffer_size K / node_size K)
    by (apply Z.div_pos; lia).
  assert (Hq2 : sort_buffer_size K / node_size K * node_size K
                <= sort_buffer_size K)
    by (rewrite Z.mul_comm; apply Z.mul_div_le; lia).
  rewrite (wrap_u32_id (sort_buffer_size K / node_size K)) in Hsort
    by (unfold UINT32_MAX; nia).
  set (g := if wrap_u32 (SORT_NUM_CHUNKS L) <=? 0 then 1
            else wrap_u32 (SORT_NUM_CHUNKS L)) in *.
  assert (Hg : 1 <= g).
  { unfold g. destruct (_ <=? _) eqn:Hc; [lia|]. apply Z.leb_gt in Hc. lia. }
  pose proof (alloc_chunk_ends fuel (sort_buffer_size K / node_size K) g
                Hmin Hq ltac:(nia) Hg ltac:(lia) ltac:(lia)) as Hends.
  pose proof (alloc_chunk_ok fuel (sort_buffer_size K / node_size K) g
                Hmin Hzero ltac:(lia) ltac:(nia) Hg) as Halloc.
  destruct (alloc_chunk L env fuel _ g) as [[chunk g']| | |]; try done.
  destruct Halloc as (Hchunk & Hg' & Hdef). simpl in Hsort.
  assert (Hinit := initial_buffer_ok chunk g' w Hns Hsbs Hchunk Hg').
  rewrite (wrap_u32_id (sort_buffer_size K / node_size K)) in Hinit
    by (unfold UINT32_MAX; nia).
  pose proof (read_inputs_ok chunk (env_inputs env) 0 _ (Hinit Hdef))
    as Hread.
  destruct (read_inputs L K env chunk 0 (env_inputs env) _) as [s| | |];
    try done.
  simpl in Hsort. destruct (0 <? record_count s); [|done].
  destruct (0 <=? rnd_temp_file_idx s).
  - unfold spill_buffer in Hsort.
    by destruct (skTempFileWriteBuffer _ _ _) as [[??]|].
  - pose proof (write_batch_outcomes (skQSort L K (record_buffer s))
                  (out_rwios w)) as Hw.
    by destruct (write_batch env _ _).
Qed.

(** While the records read are fewer than the buffer can hold, and
    realloc works, no record leaves the buffer. *)
Lemma store_record_in_core chunk n s :
  buffer_ok K chunk s ->
  (forall b, env_realloc env b = true) ->
  record_count s + 1 < buffer_max_recs s ->
  exists s',
    store_record L K env chunk n s = Done s'
    /\ record_buffer s' = record_buffer s ++ [n]
    /\ rnd_tmpctx s' = rnd_tmpctx s
    /\ rnd_temp_file_idx s' = rnd_temp_file_idx s
    /\ buffer_max_recs s' = buffer_max_recs s.
Proof.
  intros (Hns & Hchunk & Hcount & Hle & Hroom & Hcur & Hbytes & Hfit & Hdbl)
    Hrealloc Hfew.
  unfold store_record.
  replace (cur_node s =? record_count s * node_size K) with true
    by (symmetry; apply Z.eqb_eq; done).
  replace (cur_node s + node_size K <=? buffer_bytes s) with true
    by (symmetry; apply Z.leb_le; nia).
  cbn [andb negb].
  match goal with
  | |- context [record_count ?x =? buffer_recs ?x] => set (s1 := x)
  end.
  assert (Hc1 : record_count s1 = record_count s + 1)
    by (by apply (record_count_snoc s n)).
  change (buffer_recs s1) with (buffer_recs s).
  change (buffer_max_recs s1) with (buffer_max_recs s).
  rewrite Hc1.
  destruct (record_count s + 1 =? buffer_recs s) eqn:Hfull;
    [apply Z.eqb_eq in Hfull|by eexists].
  replace (buffer_recs s <? buffer_max_recs s) with true
    by (symmetry; apply Z.ltb_lt; lia).
  unfold grow_buffer. rewrite Hrealloc.
  match goal with
  | |- context [record_count ?x =? _] =>
      change (record_count x) with (record_count s1)
  end.
  cbn [buffer_max_recs]. rewrite Hc1.
  change (buffer_max_recs s1) with (buffer_max_recs s).
  replace (record_count s + 1 =? buffer_max_recs s) with false
    by (symmetry; apply Z.eqb_neq; lia).
  by eexists.
Qed.

Lemma read_stream_in_core chunk rwios : forall s,
  buffer_ok K chunk s ->
  (forall b, env_realloc env b = true) ->
  record_count s + Z.of_nat (length (delivered rwios)) < buffer_max_recs s ->
  match read_stream L K env chunk rwios s with
  | Done s' =>
      record_buffer s'
      = record_buffer s ++ stream_nodes L K (delivered rwios)
      /\ rnd_tmpctx s' = rnd_tmpctx s
      /\ rnd_temp_file_idx s' = rnd_temp_file_idx s
      /\ buffer_max_recs s' = buffer_max_recs s
      /\ buffer_ok K chunk s'
  | Exit => True
  | _ => False
  end.
Proof.
  induction rwios as [|[r|] rwios IH]; intros s Hok Hrealloc Hfew; simpl;
    [by rewrite app_nil_r| |by rewrite app_nil_r].
  simpl in Hfew.
  destruct (fill_record_total L K r) as [Hr|[n Hr]]; rewrite Hr; simpl;
    [done|].
  destruct (store_record_in_core chunk n s Hok Hrealloc ltac:(lia))
    as (s1 & Hstore & Hbuf & Ht & Hidx & Hmax).
  pose proof (store_record_ok chunk n s Hok) as Hok1.
  rewrite Hstore in Hok1 |- *. simpl.
  assert (Hc1 : record_count s1 = record_count s + 1)
    by (by apply (record_count_snoc s n)).
  specialize (IH s1 Hok1 Hrealloc ltac:(lia)).
  destruct (read_stream L K env chunk rwios s1); try done.
  destruct IH as (Hbuf' & Ht' & Hidx' & Hmax' & Hok').
  rewrite Hbuf', Hbuf, Ht', Ht, Hidx', Hidx, Hmax', Hmax.
  apply fill_record_force in Hr. rewrite Hr, <- app_assoc. done.
Qed.

Lemma read_inputs_in_core chunk inputs : forall i s,
  buffer_ok K chunk s ->
  (forall b, env_realloc env b = true) ->
  record_count s + Z.of_nat (length (inputs_read env i inputs))
  < buffer_max_recs s ->
  match read_inputs L K env chunk i inputs s with
  | Done s' =>
      record_buffer s'
      = record_buffer s ++ stream_nodes L K (inputs_read env i inputs)
      /\ rnd_tmpctx s' = rnd_tmpctx s
      /\ rnd_temp_file_idx s' = rnd_temp_file_idx s
  | Exit => True
  | _ => False
  end.
Proof.
  induction inputs as [|rwios inputs IH]; intros i s Hok Hrealloc Hfew; simpl.
  { by rewrite app_nil_r. }
  simpl in Hfew. rewrite length_app in Hfew. unfold input_read in Hfew.
  destruct (env_input_open env 0 i); try done.
  pose proof (read_stream_in_core chunk
                (open_reader (env_input_read env i) 0 rwios) s Hok Hrealloc
                ltac:(lia)) as Hrd.
  destruct (read_stream L K env chunk _ s) as [s1| | |]; try done.
  destruct Hrd as (Hbuf & Ht & Hidx & Hmax & Hok1). simpl.
  assert (Hc1 : record_count s1
                = record_count s
                  + Z.of_nat (length (delivered
                      (open_reader (env_input_read env i) 0 rwios)))).
  { unfold record_count. rewrite Hbuf, length_app. unfold stream_nodes.
    rewrite length_map. lia. }
  specialize (IH (S i) s1 Hok1 Hrealloc ltac:(lia)).
  destruct (read_inputs L K env chunk (S i) inputs s1); try done.
  destruct IH as (Hbuf' & Ht' & Hidx').
  rewrite Hbuf', Hbuf, Ht', Ht, Hidx', Hidx.
  unfold stream_nodes, input_read. by rewrite map_app, <- app_assoc.
Qed.

(** sortRandom writes no empty temp file. *)
Lemma spill_buffer_files s s' :
  spill_buffer L K env s = Done s' ->
  record_buffer s <> [] ->
  (forall j, tf_files (rnd_tmpctx s) !! j <> Some []) ->
  forall j, tf_files (rnd_tmpctx s') !! j <> Some [].
Proof.
  unfold spill_buffer, skTempFileWriteBuffer. intros Hspill Hne Hfiles j.
  destruct (env_temp_create env _); [|done]. injection Hspill as <-. simpl.
  destruct (decide (j = tf_next (rnd_tmpctx s))) as [->|Hj].
  - rewrite lookup_insert_eq. intros [= Hnil].
    pose proof (skQSort_perm L K (record_buffer s)) as Hperm.
    rewrite Hnil in Hperm. by apply Permutation_nil in Hperm.
  - rewrite lookup_insert_ne by done. apply Hfiles.
Qed.

Lemma store_record_files chunk n s s' :
  store_record L K env chunk n s = Done s' ->
  (forall j, tf_files (rnd_tmpctx s) !! j <> Some []) ->
  forall j, tf_files (rnd_tmpctx s') !! j <> Some [].
Proof.
  unfold store_record, grow_buffer. intros Hstore Hfiles.
  repeat match type of Hstore with
         | context [if ?c then _ else _] => destruct c
         end;
    try done;
    try (by injection Hstore as <-);
    (apply (spill_buffer_files _ _ Hstore); simpl;
     [by destruct (record_buffer s)|done]).
Qed.

Lemma read_stream_files chunk rwios : forall s s',
  read_stream L K env chunk rwios s = Done s' ->
  (forall j, tf_files (rnd_tmpctx s) !! j <> Some []) ->
  forall j, tf_files (rnd_tmpctx s') !! j <> Some [].
Proof.
  induction rwios as [|[r|] rwios IH]; intros s s' Hread Hfiles;
    simpl in Hread.
  - by injection Hread as <-.
  - inv_bind Hread. inv_bind Hread.
    apply (IH _ _ Hread). by apply (store_record_files _ _ _ _ Hx0).
  - by injection Hread as <-.
Qed.

Lemma read_inputs_files chunk inputs : forall i s s',
  read_inputs L K env chunk i inputs s = Done s' ->
  (forall j, tf_files (rnd_tmpctx s) !! j <> Some []) ->
  forall j, tf_files (rnd_tmpctx s') !! j <> Some [].
Proof.
  induction inputs as [|rwios inputs IH]; intros i s s' Hread Hfiles;
    simpl in Hread.
  - by injection Hread as <-.
  - destruct (env_input_open env 0 i); try done.
    inv_bind Hread.
    apply (IH _ _ _ Hread). by apply (read_stream_files _ _ _ _ Hx).
Qed.

Lemma sortRandom_files fuel w idx w' :
  sortRandom L K env fuel w = Done (idx, w') ->
  (forall j, tf_files (tmpctx w) !! j <> Some []) ->
  forall j, tf_files (tmpctx w') !! j <> Some [].
Proof.
  unfold sortRandom. intros Hsort Hfiles.
  inv_bind Hsort. destruct x as [chunk g]. clear Hx.
  inv_bind Hsort. rename x into s, Hx into Hread.
  pose proof (read_inputs_files _ _ _ _ _ Hread Hfiles) as Hfiles1.
  destruct (0 <? record_count s) eqn:Hcount.
  - destruct (0 <=? rnd_temp_file_idx s).
    + inv_bind Hsort. injection Hsort as <- <-. simpl.
      apply (spill_buffer_files _ _ Hx); [|done].
      apply Z.ltb_lt in Hcount. unfold record_count in Hcount.
      by destruct (record_buffer s).
    + inv_bind Hsort. by injection Hsort as <- <-.
  - by injection Hsort as <- <-.
Qed.

Lemma sortPresorted_loop_outcomes fuel : forall pass s,
  match sortPresorted_loop L K env fuel pass s with
  | Fault _ => False
  | _ => True
  end.
Proof.
  induction fuel as [|fuel IH]; intros pass s; [done|]. simpl.
  pose proof (presorted_pass_outcomes L K env pass s) as Hout.
  destruct (presorted_pass L K env pass s) as [[[s' idx] no_more]| | |];
    try done.
  simpl. destruct no_more; [done|]. apply IH.
Qed.

Lemma mergeFiles_loop_faults fuel : forall pass s,
  match mergeFiles_loop L K env fuel pass s with
  | Fault u => u = DrainEmptyHeap
  | _ => True
  end.
Proof.
  induction fuel as [|fuel IH]; intros pass s; [done|]. simpl.
  pose proof (merge_pass_outcomes L K env pass s) as Hout.
  destruct (merge_pass L K env pass s) as [[s' no_more]| | |]; try done.
  simpl. destruct no_more; [done|]. apply IH.
Qed.
End RandomMore.

(** X17: sortRandom stays inside its buffer.  With nodes of at least two
    bytes, a buffer budget below 2^32 bytes, a positive floor of records
    in core and a calloc that refuses a chunk of no record, every record
    is stored at cur_node = record_buffer + record_count * node_size
    with room for a whole node, whatever the reallocs that succeed or
    fail, and the division by num_chunks is never one by zero: the
    function completes, exits on an error, or is still running. *)
Theorem X17_sortRandom_within_buffer L K env fuel w :
  budget_ok L K env ->
  forall u, sortRandom L K env fuel w <> Fault u.
Proof.
  intros Hok u Hrun.
  pose proof (sortRandom_no_fault L K env fuel w Hok) as Hout.
  by rewrite Hrun in Hout.
Qed.

Lemma plain_env_budget_ok inputs :
  budget_ok small_limits (sport_config false false) (plain_env inputs).
Proof. repeat split; simpl; lia. Qed.

Lemma X17_sortRandom_within_buffer_witness :
  sortRandom small_limits (sport_config false false)
    (plain_env [[3; 1; 2]; [5; 4]; [9; 8; 7; 6]]) 10 world_init
  <> Fault BufferOverrun.
Proof.
  apply (X17_sortRandom_within_buffer small_limits (sport_config false false)
           (plain_env [[3; 1; 2]; [5; 4]; [9; 8; 7; 6]]) 10 world_init).
  apply plain_env_budget_ok.
Defined.

(** X18: a budget too small for one record per chunk overruns the
    buffer.  When sort_buffer_size / node_size is below the number of
    chunks, the initial chunk is of no record; if calloc gives a block
    for it all the same, buffer_recs is 0, the test record_count ==
    buffer_recs never holds, and the first record read is stored past
    the end of the block. *)
Theorem X18_zero_chunk_overrun L K env fuel w r rs rest n :
  0 < node_size K ->
  wrap_u32 (sort_buffer_size K / node_size K) / initial_chunks L = 0 ->
  env_calloc env (initial_chunks L) 0 = true ->
  env_inputs env = (r :: rs) :: rest ->
  env_input_open env 0 0 = OpenOk ->
  env_input_read env 0 0 = true ->
  fill_record L K r = Done n ->
  sortRandom L K env (S fuel) w = Fault BufferOverrun.
Proof.
  intros Hns Hzero Hcalloc Hin Hopen Hrd Hfill. unfold sortRandom.
  fold (initial_chunks L).
  assert (Hg : 1 <= initial_chunks L).
  { unfold initial_chunks. destruct (_ <=? _) eqn:Hc; [lia|].
    apply Z.leb_gt in Hc. lia. }
  cbn [alloc_chunk].
  replace (initial_chunks L =? 0) with false
    by (symmetry; apply Z.eqb_neq; lia).
  rewrite Hzero, Hcalloc. cbn [mbind result_bind bind].
  rewrite Hin. cbn [read_inputs appNextInput]. rewrite Hopen.
  cbn [open_reader]. rewrite Hrd.
  cbn [read_stream]. rewrite Hfill. cbn [mbind result_bind bind].
  unfold store_record, record_count. cbn [cur_node record_buffer length
    buffer_bytes].
  replace (0 + node_size K <=? 0 * node_size K) with false
    by (symmetry; apply Z.leb_gt; lia).
  rewrite andb_false_r. reflexivity.
Qed.

Lemma X18_zero_chunk_overrun_witness :
  sortRandom small_limits tiny_budget_config (calm_env [[1]]) 1 world_init
  = Fault BufferOverrun.
Proof.
  apply (X18_zero_chunk_overrun small_limits tiny_budget_config
           (calm_env [[1]]) 0 world_init (rec_of 1) [] [] (node_of 1));
    reflexivity.
Defined.

(** X19: input that fits the buffer is sorted in core.  Under the
    conditions of X17 (nodes of at least two bytes, a budget below 2^32
    bytes, a positive floor, a calloc that refuses a chunk of no
    record), when the records read of all inputs are fewer than
    sort_buffer_size / node_size and every realloc succeeds, sortRandom
    creates no temp file: given the retries its initial allocation may
    need, it returns -1, unless it exits on a fatal error; it leaves the
    temp file context untouched and hands the records, sorted by skQSort
    in one batch, to the output writer.  With no record at all it writes
    nothing. *)
Theorem X19_sortRandom_in_core L K env fuel w :
  budget_ok L K env ->
  (forall b, env_realloc env b = true) ->
  Z.of_nat (length (records_read env))
  < sort_buffer_size K / node_size K ->
  sort_buffer_size K / node_size K + 2 <= Z.of_nat fuel ->
  match sortRandom L K env fuel w with
  | Done (idx, w') =>
      idx = -1 /\ tmpctx w' = tmpctx w
      /\ write_batch env
           (skQSort L K (stream_nodes L K (records_read env)))
           (out_rwios w) = Done (out_rwios w')
  | Exit => True
  | _ => False
  end.
Proof.
  intros Hok Hrealloc Hfew Hfuel.
  pose proof (sortRandom_ends L K env fuel w Hok Hfuel) as Hout.
  destruct (sortRandom L K env fuel w) as [[idx w']| | |] eqn:Hsort;
    try done.
  destruct Hok as (Hns & Hsbs & Hmin & Hzero).
  unfold sortRandom in Hsort.
  assert (Hq : 0 <= sort_buffer_size K / node_size K)
    by (apply Z.div_pos; lia).
  assert (Hq2 : sort_buffer_size K / node_size K * node_size K
                <= sort_buffer_size K)
    by (rewrite Z.mul_comm; apply Z.mul_div_le; lia).
  rewrite (wrap_u32_id (sort_buffer_size K / node_size K)) in Hsort
    by (unfold UINT32_MAX; nia).
  set (g := if wrap_u32 (SORT_NUM_CHUNKS L) <=? 0 then 1
            else wrap_u32 (SORT_NUM_CHUNKS L)) in *.
  assert (Hg : 1 <= g).
  { unfold g. destruct (_ <=? _) eqn:Hc; [lia|]. apply Z.leb_gt in Hc. lia. }
  pose proof (alloc_chunk_ok L env fuel (sort_buffer_size K / node_size K) g
                Hmin Hzero ltac:(lia) ltac:(nia) Hg) as Halloc.
  inv_bind Hsort. destruct x as [chunk g']. rewrite Hx in Halloc.
  destruct Halloc as (Hchunk & Hg' & Hdef).
  inv_bind Hsort. rename x into s, Hx0 into Hread.
  assert (Hinit := initial_buffer_ok K chunk g' w Hns Hsbs Hchunk Hg').
  rewrite (wrap_u32_id (sort_buffer_size K / node_size K)) in Hinit
    by (unfold UINT32_MAX; nia).
  specialize (Hinit Hdef).
  pose proof (read_inputs_in_core L K env chunk (env_inputs env) 0 _ Hinit
                Hrealloc) as Hcore.
  rewrite Hread in Hcore.
  destruct Hcore as (Hbuf & Ht & Hidx).
  { unfold record_count. simpl. unfold records_read in Hfew. lia. }
  simpl in Hbuf, Ht, Hidx. fold (records_read env) in Hbuf.
  rewrite Hidx in Hsort. simpl in Hsort.
  destruct (0 <? record_count s) eqn:Hcount.
  - inv_bind Hsort. injection Hsort as <- <-. simpl.
    rewrite <- Hbuf. done.
  - injection Hsort as <- <-. simpl. split; [done|]. split; [done|].
    apply Z.ltb_ge in Hcount. unfold record_count in Hcount.
    rewrite <- Hbuf. by destruct (record_buffer s).
Qed.

Lemma X19_sortRandom_in_core_witness :
  match sortRandom small_limits (sport_config false false)
          (plain_env [[3; 1]; [2]]) 10 world_init with
  | Done (idx, w') =>
      idx = -1 /\ tmpctx w' = tmpctx world_init
      /\ write_batch (plain_env [[3; 1]; [2]])
           (skQSort small_limits (sport_config false false)
              (stream_nodes small_limits (sport_config false false)
                 (records_read (plain_env [[3; 1]; [2]]))))
           (out_rwios world_init) = Done (out_rwios w')
  | Exit => True
  | _ => False
  end.
Proof.
  apply (X19_sortRandom_in_core small_limits (sport_config false false)
           (plain_env [[3; 1]; [2]]) 10 world_init).
  - apply plain_env_budget_ok.
  - reflexivity.
  - vm_compute. reflexivity.
  - vm_compute. discriminate.
Defined.

(** X20: the faults of a run.  The sorter can run into four faults: a
    record stored outside the buffer, a division by zero, a slot of
    recs[] or fps[] read that was never filled, and the drain of
    mergeFiles on an empty heap.  A run of rwsort in which
    RETURN_SORT_ORDER never negates INT_MIN meets none of them on the
    random path, under the conditions of X17: the temp files sortRandom
    writes all hold records, and so do the intermediate files merged
    from them.  On the presorted path it can meet the last one only. *)
Theorem X20_faults_of_a_run L K env fuel :
  negation_defined L K ->
  1 <= MAX_MERGE_FILES L ->
  (presorted_input K = false -> budget_ok L K env) ->
  match rwsort_main L K env fuel with
  | Fault u => presorted_input K = true /\ u = DrainEmptyHeap
  | _ => True
  end.
Proof.
  intros _ HM Hok. unfold rwsort_main.
  destruct (presorted_input K) eqn:Hpre.
  - unfold sortPresorted. destruct (env_heap_create env true); [|done].
    pose proof (sortPresorted_loop_outcomes L K env fuel 0
                  {| ps_next := 0; ps_inputs := env_inputs env;
                     ps_world := world_init |}) as Hout.
    destruct (sortPresorted_loop L K env fuel 0 _) as [[idx w]| | |];
      try done.
    simpl. destruct (0 <=? idx); [|done].
    unfold mergeFiles. destruct (env_heap_create env false); [|done].
    pose proof (mergeFiles_loop_faults L K env fuel 0
                  {| tmp_idx_a := 0; temp_file_idx := idx; mf_world := w |})
      as Hf.
    by destruct (mergeFiles_loop L K env fuel 0 _).
  - pose proof (sortRandom_no_fault L K env fuel world_init (Hok eq_refl))
      as Hout.
    destruct (sortRandom L K env fuel world_init) as [[idx w]| | |] eqn:Hsort;
      try done.
    simpl. destruct (0 <=? idx) eqn:Hidx; [|done]. apply Z.leb_le in Hidx.
    destruct (sortRandom_spec L K env fuel world_init idx w Hsort eq_refl)
      as (l & _ & [(Hneg & _)|(_ & Hnext & _)]); [lia|].
    pose proof (sortRandom_files L K env fuel world_init idx w Hsort) as Hfiles.
    unfold mergeFiles. destruct (env_heap_create env false); [|done].
    pose proof (mergeFiles_loop_no_fault L K env fuel 0
                  {| tmp_idx_a := 0; temp_file_idx := idx; mf_world := w |}
                  Hnext Hidx HM) as Hf.
    destruct (mergeFiles_loop L K env fuel 0 _); try done.
    exfalso. apply Hf. intros j _. apply Hfiles. intros j'. simpl.
    by rewrite lookup_empty.
Qed.

Lemma X20_faults_of_a_run_witness :
  match rwsort_main small_limits (sport_config true false)
          (plain_env [[3; 1; 2]; [5; 4]; [9; 8; 7; 6]]) 10 with
  | Fault u =>
      presorted_input (sport_config true false) = true
      /\ u = DrainEmptyHeap
  | _ => True
  end.
Proof.
  apply (X20_faults_of_a_run small_limits
           (sport_config true false)
           (plain_env [[3; 1; 2]; [5; 4]; [9; 8; 7; 6]]) 10).
  - by apply builtin_negation_defined.
  - simpl. lia.
  - intros _. repeat split; simpl; lia.
Defined.

(** * Properties of uniq-distproto *)

Section BitmapFacts.

Lemma in_seqZ_256 b : 0 <= b < 256 -> In b (seqZ 0 256).
Proof. intros Hb. apply list_elem_of_In, elem_of_seqZ. lia. Qed.

Lemma bits_set_range b : 0 <= bits_set b <= 8.
Proof.
  destruct (decide (0 <= b < 256)) as [Hb|Hb].
  - assert (Hall : forallb (fun b => (0 <=? bits_set b)
                                     && (bits_set b <=? 8)) (seqZ 0 256)
                   = true) by (vm_compute; reflexivity).
    rewrite forallb_forall in Hall.
    specialize (Hall b (in_seqZ_256 b Hb)).
    apply andb_true_iff in Hall as [H1 H2].
    apply Z.leb_le in H1, H2. lia.
  - unfold bits_set. destruct (Z_lt_le_dec b 0) as [Hneg|Hpos].
    + rewrite Z2Nat.nonpos by lia. simpl. lia.
    + rewrite lookup_ge_None_2; [simpl; lia|].
      change (length BitsSetTable256) with 256%nat. lia.
Qed.

Lemma bits_set_or_bit byte s :
  0 <= byte < 256 -> 0 <= s < 8 ->
  bits_set ((Z.lor byte (Z.shiftl 1 s)) mod 256)
  = bits_set byte + (if Z.testbit byte s then 0 else 1).
Proof.
  intros Hb Hs.
  assert (Hall : forallb (fun byte =>
                   forallb (fun s =>
                     bits_set ((Z.lor byte (Z.shiftl 1 s)) mod 256)
                     =? bits_set byte + (if Z.testbit byte s then 0 else 1))
                     (seqZ 0 8)) (seqZ 0 256) = true)
    by (vm_compute; reflexivity).
  rewrite forallb_forall in Hall.
  specialize (Hall byte (in_seqZ_256 byte Hb)).
  rewrite forallb_forall in Hall. apply Z.eqb_eq, Hall.
  apply list_elem_of_In, elem_of_seqZ. lia.
Qed.

Lemma format_3d_width c :
  0 <= c <= 256 -> String.length (format_3d c) = FIELD_WIDTH.
Proof.
  intros Hc.
  assert (Hall : forallb (fun c => Nat.eqb (String.length (format_3d c))
                                     FIELD_WIDTH) (seqZ 0 257) = true)
    by (vm_compute; reflexivity).
  rewrite forallb_forall in Hall. apply Nat.eqb_eq, Hall.
  apply list_elem_of_In, elem_of_seqZ. lia.
Qed.

(** ** Sums over the bytes of a bitmap *)

Lemma foldl_wrap_sum (f : nat -> Z) l : forall c,
  (forall i, -8 <= f i <= 8) ->
  Z.abs c + 8 * Z.of_nat (length l) <= 2 ^ 30 ->
  foldl (fun c i => wrap_int (c + f i)) c l = c + sum_over f l
  /\ Z.abs (sum_over f l) <= 8 * Z.of_nat (length l).
Proof.
  induction l as [|i l IH]; intros c Hf Hc; simpl.
  - split; lia.
  - specialize (Hf i) as Hi. simpl in Hc.
    rewrite wrap_int_id by (unfold in_int, INT_MIN, INT_MAX; lia).
    destruct (IH (c + f i) Hf ltac:(lia)) as [-> Hb]. split; lia.
Qed.

Lemma sum_over_ext f g l :
  (forall i, i ∈ l -> f i = g i) -> sum_over f l = sum_over g l.
Proof.
  induction l as [|i l IH]; intros Hfg; simpl; [done|].
  rewrite Hfg by set_solver. rewrite IH; [done|].
  intros j Hj. apply Hfg. set_solver.
Qed.

Lemma sum_over_sub f g l :
  sum_over (fun i => f i - g i) l = sum_over f l - sum_over g l.
Proof. induction l as [|i l IH]; simpl; lia. Qed.

Lemma sum_over_change f g l i :
  NoDup l -> i ∈ l -> (forall j, j <> i -> g j = f j) ->
  sum_over g l = sum_over f l - f i + g i.
Proof.
  induction l as [|j l IH]; intros Hnd Hi Hfg; [by apply elem_of_nil in Hi|].
  apply NoDup_cons in Hnd as [Hj Hnd]. simpl.
  destruct (decide (j = i)) as [->|Hne].
  - rewrite (sum_over_ext g f l); [lia|].
    intros k Hk. apply Hfg. intros ->. done.
  - rewrite Hfg by done. rewrite IH; [lia|done| |done]. set_solver.
Qed.

Lemma count_bits_sum bin :
  count_bits bin = sum_over (fun i => bits_set (byte_at bin i))
                     (seq 0 BITMAP_SIZE)
  /\ 0 <= count_bits bin <= 256.
Proof.
  unfold count_bits.
  destruct (foldl_wrap_sum (fun i => bits_set (byte_at bin i))
              (seq 0 BITMAP_SIZE) 0) as [Heq Hb].
  { intros i. pose proof (bits_set_range (byte_at bin i)). lia. }
  { rewrite length_seq. vm_compute. discriminate. }
  rewrite Heq. rewrite length_seq in Hb. split; [lia|].
  assert (Hpos : forall l, 0 <= sum_over (fun i => bits_set (byte_at bin i)) l).
  { induction l as [|i l IH]; simpl; [lia|].
    pose proof (bits_set_range (byte_at bin i)). lia. }
  specialize (Hpos (seq 0 BITMAP_SIZE)).
  change (Z.of_nat BITMAP_SIZE) with 32 in Hb. lia.
Qed.

(** ** The bits of a bitmap *)

Lemma testbit_mod_256 x k :
  0 <= k < 8 -> Z.testbit (x mod 256) k = Z.testbit x k.
Proof.
  intros Hk. change (x mod 256) with (x mod 2 ^ 8).
  apply Z.mod_pow2_bits_low. lia.
Qed.

Lemma byte_at_insert (bin : list Z) i v j :
  (i < length bin)%nat ->
  byte_at (<[i := v]> bin) j = if decide (j = i) then v else byte_at bin j.
Proof.
  intros Hi. unfold byte_at. destruct (decide (j = i)) as [->|Hne].
  - by rewrite list_lookup_insert_eq.
  - by rewrite list_lookup_insert_ne.
Qed.

Lemma byte_at_range bin i :
  Forall (fun b => 0 <= b < 256) bin -> 0 <= byte_at bin i < 256.
Proof.
  intros Hall. unfold byte_at. destruct (bin !! i) as [b|] eqn:Hb; simpl.
  - by apply (Forall_lookup_1 _ _ _ _ Hall Hb).
  - lia.
Qed.

Lemma proto_split p q :
  0 <= p -> 0 <= q ->
  p = q <-> Z.to_nat (p / 8) = Z.to_nat (q / 8) /\ p mod 8 = q mod 8.
Proof.
  intros Hp Hq. split; [by intros ->|]. intros [Hd Hm].
  assert (p / 8 = q / 8).
  { apply Z2Nat.inj; [apply Z.div_pos; lia|apply Z.div_pos; lia|done]. }
  rewrite (Z.div_mod p 8), (Z.div_mod q 8) by lia. congruence.
Qed.

Lemma recAddToMap_spec r m :
  bitmap_wf m ->
  bitmap_wf (snd (recAddToMap r m))
  /\ (forall p, 0 <= p < 256 ->
        has_proto (snd (recAddToMap r m)) p
        = (p =? proto_of r) || has_proto m p)
  /\ count_bits (snd (recAddToMap r m))
     = count_bits m + (if has_proto m (proto_of r) then 0 else 1).
Proof.
  intros [Hlen Hrange]. unfold recAddToMap. cbn [snd]. fold (proto_of r).
  set (q := proto_of r).
  assert (Hq : 0 <= q < 256) by (unfold q, proto_of; apply Z.mod_pos_bound; lia).
  rewrite Z.shiftr_div_pow2 by lia. change (2 ^ 3) with 8.
  change 7 with (Z.ones 3). rewrite Z.land_ones by lia. change (2 ^ 3) with 8.
  set (i := Z.to_nat (q / 8)).
  assert (Hi : (i < length m)%nat).
  { rewrite Hlen. unfold i, BITMAP_SIZE.
    assert (q / 8 < 32) by (apply Z.div_lt_upper_bound; lia).
    assert (0 <= q / 8) by (apply Z.div_pos; lia). lia. }
  assert (Hs : 0 <= q mod 8 < 8) by (apply Z.mod_pos_bound; lia).
  pose proof (byte_at_range m i Hrange) as Hbyte.
  set (v := Z.lor (byte_at m i) (Z.shiftl 1 (q mod 8)) mod 256).
  assert (Hv : 0 <= v < 256) by (apply Z.mod_pos_bound; lia).
  split; [|split].
  - split; [by rewrite length_insert|by apply Forall_insert].
  - intros p Hp. unfold has_proto. rewrite byte_at_insert by done.
    destruct (decide (Z.to_nat (p / 8) = i)) as [Hpi|Hpi].
    + unfold v.
      assert (Hk : 0 <= p mod 8 < 8) by (apply Z.mod_pos_bound; lia).
      rewrite testbit_mod_256 by lia.
      rewrite Z.lor_spec, Z.shiftl_1_l, Z.pow2_bits_eqb by lia.
      rewrite Hpi. rewrite orb_comm. f_equal.
      destruct (Z.eqb_spec (q mod 8) (p mod 8)) as [He|He];
        destruct (Z.eqb_spec p q) as [Hpq|Hpq]; try done.
      * exfalso. apply Hpq. apply proto_split; [lia|lia|]. by split.
      * subst p. done.
    + replace (p =? q) with false; [done|].
      symmetry. apply Z.eqb_neq. intros ->. done.
  - destruct (count_bits_sum (<[i := v]> m)) as [-> _].
    destruct (count_bits_sum m) as [-> _].
    rewrite (sum_over_change (fun j => bits_set (byte_at m j))
               (fun j => bits_set (byte_at (<[i := v]> m) j)) _ i).
    + rewrite byte_at_insert, decide_True by done.
      unfold v. rewrite bits_set_or_bit by done.
      unfold has_proto. fold i. lia.
    + apply NoDup_seq.
    + apply elem_of_seq. rewrite Hlen in Hi. lia.
    + intros j Hj. by rewrite byte_at_insert, decide_False.
Qed.

Lemma init_value_wf : bitmap_wf init_value.
Proof.
  split; [apply length_replicate|]. apply Forall_replicate. lia.
Qed.

Lemma bitmap_of_snoc recs r :
  bitmap_of (recs ++ [r]) = snd (recAddToMap r (bitmap_of recs)).
Proof. unfold bitmap_of. by rewrite foldl_snoc. Qed.

Lemma bitmap_of_spec recs :
  bitmap_wf (bitmap_of recs)
  /\ (forall p, 0 <= p < 256 ->
        has_proto (bitmap_of recs) p = bool_decide (p ∈ map proto_of recs))
  /\ count_bits (bitmap_of recs)
     = Z.of_nat (size (list_to_set (map proto_of recs) : gset Z)).
Proof.
  induction recs as [|r recs IH] using rev_ind.
  - split; [apply init_value_wf|]. split.
    + intros p Hp. unfold has_proto, bitmap_of, byte_at. simpl.
      destruct (init_value !! Z.to_nat (p / 8)) as [b|] eqn:Hb; simpl.
      * apply lookup_replicate in Hb as [-> _]. apply Z.bits_0.
      * apply Z.bits_0.
    + vm_compute. reflexivity.
  - destruct IH as (Hwf & Hbits & Hcount).
    rewrite bitmap_of_snoc.
    destruct (recAddToMap_spec r (bitmap_of recs) Hwf) as (Hwf' & Hb' & Hc').
    assert (Hq : 0 <= proto_of r < 256)
      by (unfold proto_of; apply Z.mod_pos_bound; lia).
    split; [done|]. split.
    + intros p Hp. rewrite Hb', Hbits by done. rewrite map_app. simpl.
      destruct (Z.eqb_spec p (proto_of r)) as [->|Hne]; simpl.
      * symmetry. apply bool_decide_eq_true. set_solver.
      * apply bool_decide_ext. set_solver.
    + rewrite Hc', Hcount, Hbits by done.
      rewrite map_app. simpl. rewrite list_to_set_snoc_L.
      destruct (bool_decide_reflect
                  (proto_of r ∈ map proto_of recs)) as [Hin|Hin].
      * replace (list_to_set (map proto_of recs) ∪ {[proto_of r]})
          with (list_to_set (map proto_of recs) : gset Z)
          by set_solver. lia.
      * rewrite size_union by set_solver. rewrite size_singleton. lia.
Qed.

Lemma byte_ext a b :
  0 <= a < 256 -> 0 <= b < 256 ->
  (forall k, 0 <= k < 8 -> Z.testbit a k = Z.testbit b k) -> a = b.
Proof.
  intros Ha Hb Hbits. apply Z.bits_inj'. intros k Hk.
  destruct (Z_lt_le_dec k 8) as [Hlt|Hge]; [apply Hbits; lia|].
  rewrite <- (Z.mod_small a (2 ^ 8)), <- (Z.mod_small b (2 ^ 8)) by lia.
  by rewrite !Z.mod_pow2_bits_high by lia.
Qed.

Lemma bitmap_ext m1 m2 :
  bitmap_wf m1 -> bitmap_wf m2 ->
  (forall p, 0 <= p < 256 -> has_proto m1 p = has_proto m2 p) ->
  m1 = m2.
Proof.
  intros [Hl1 Hr1] [Hl2 Hr2] Hbits. apply list_eq. intros i.
  destruct (decide (i < BITMAP_SIZE)%nat) as [Hi|Hi].
  2: { rewrite !lookup_ge_None_2; [done|lia|lia]. }
  destruct (lookup_lt_is_Some_2 m1 i ltac:(lia)) as [a Ha].
  destruct (lookup_lt_is_Some_2 m2 i ltac:(lia)) as [b Hb].
  rewrite Ha, Hb. f_equal.
  apply byte_ext.
  - by apply (Forall_lookup_1 _ _ _ _ Hr1 Ha).
  - by apply (Forall_lookup_1 _ _ _ _ Hr2 Hb).
  - intros k Hk. specialize (Hbits (8 * Z.of_nat i + k)).
    unfold has_proto, byte_at in Hbits.
    replace ((8 * Z.of_nat i + k) / 8) with (Z.of_nat i) in Hbits
      by (symmetry; rewrite Z.mul_comm, Z.div_add_l by lia;
          rewrite Z.div_small by lia; lia).
    replace ((8 * Z.of_nat i + k) mod 8) with k in Hbits
      by (symmetry; rewrite Z.add_comm, Z.mul_comm, Z.mod_add by lia;
          apply Z.mod_small; lia).
    rewrite Nat2Z.id, Ha, Hb in Hbits. simpl in Hbits. apply Hbits.
    unfold BITMAP_SIZE in Hi. lia.
Qed.

Lemma merge_bytes src : forall n dst,
  (n <= length dst)%nat ->
  let r := foldl (fun d i =>
                    <[i := (Z.lor (byte_at d i) (byte_at src i)) mod 256]> d)
             dst (seq 0 n) in
  length r = length dst
  /\ forall j, byte_at r j
               = if decide (j < n)%nat
                 then (Z.lor (byte_at dst j) (byte_at src j)) mod 256
                 else byte_at dst j.
Proof.
  induction n as [|n IH]; intros dst Hn; cbv zeta.
  - simpl. split; [done|]. intros j. done.
  - rewrite seq_S, foldl_snoc. cbn [Nat.add].
    destruct (IH dst ltac:(lia)) as [Hlen Hbytes].
    set (r := foldl _ dst (seq 0 n)) in *.
    split; [by rewrite length_insert|].
    intros j. rewrite byte_at_insert by lia.
    destruct (decide (j = n)) as [->|Hne].
    + rewrite decide_True by lia. rewrite Hbytes.
      by rewrite decide_False by lia.
    + rewrite Hbytes. destruct (decide (j < n)%nat).
      * by rewrite decide_True by lia.
      * by rewrite decide_False by lia.
Qed.

Lemma or_bytes_spec a b :
  length a = BITMAP_SIZE ->
  length (or_bytes a b) = length a
  /\ forall j, byte_at (or_bytes a b) j
               = if decide (j < BITMAP_SIZE)%nat
                 then (Z.lor (byte_at a j) (byte_at b j)) mod 256
                 else byte_at a j.
Proof.
  intros Hla. unfold or_bytes.
  apply (merge_bytes b BITMAP_SIZE a). by rewrite Hla.
Qed.

Lemma mergeMaps_eq a b : mergeMaps a b = (SKPLUGIN_OK, or_bytes a b).
Proof. reflexivity. Qed.

Lemma compareMaps_eq a b : compareMaps a b = (SKPLUGIN_OK, diff_bits a b).
Proof. reflexivity. Qed.

Lemma or_bytes_union a b :
  bitmap_wf a -> bitmap_wf b ->
  bitmap_wf (or_bytes a b)
  /\ forall p, 0 <= p < 256 ->
       has_proto (or_bytes a b) p = has_proto a p || has_proto b p.
Proof.
  intros [Hla Hra] [Hlb Hrb].
  destruct (or_bytes_spec a b Hla) as [Hlen Hbytes].
  generalize dependent (or_bytes a b). intros r Hlen Hbytes.
  split.
  - split; [lia|]. apply Forall_lookup. intros i x Hx.
    assert (Hi : (i < BITMAP_SIZE)%nat).
    { apply lookup_lt_Some in Hx. lia. }
    specialize (Hbytes i). unfold byte_at at 1 in Hbytes.
    rewrite Hx, decide_True in Hbytes by done. simpl in Hbytes.
    rewrite Hbytes. apply Z.mod_pos_bound. lia.
  - intros p Hp. unfold has_proto. rewrite Hbytes.
    assert (Hi : (Z.to_nat (p / 8) < BITMAP_SIZE)%nat).
    { unfold BITMAP_SIZE.
      assert (p / 8 < 32) by (apply Z.div_lt_upper_bound; lia).
      assert (0 <= p / 8) by (apply Z.div_pos; lia). lia. }
    rewrite decide_True by done.
    assert (Hk : 0 <= p mod 8 < 8) by (apply Z.mod_pos_bound; lia).
    rewrite testbit_mod_256 by lia. apply Z.lor_spec.
Qed.

Lemma diff_bits_spec a b : diff_bits a b = count_bits a - count_bits b.
Proof.
  unfold diff_bits.
  destruct (foldl_wrap_sum
              (fun i => bits_set (byte_at a i) - bits_set (byte_at b i))
              (seq 0 BITMAP_SIZE) 0) as [Heq _].
  { intros i. pose proof (bits_set_range (byte_at a i)).
    pose proof (bits_set_range (byte_at b i)). lia. }
  { rewrite length_seq. vm_compute. discriminate. }
  rewrite Heq, sum_over_sub.
  destruct (count_bits_sum a) as [-> _].
  destruct (count_bits_sum b) as [-> _]. lia.
Qed.
End BitmapFacts.

Lemma string_take_all s : forall n,
  (String.length s <= n)%nat -> string_take n s = s.
Proof.
  induction s as [|a s IH]; intros [|n] Hn; simpl in *; try done; try lia.
  f_equal. apply IH. lia.
Qed.

(** X21: BitsSetTable256 is a table of bit counts: for every byte b,
    BitsSetTable256[b] is the number of bits set in b. *)
Theorem X21_bits_set_table b : 0 <= b < 256 -> bits_set b = popcount8 b.
Proof.
  intros Hb.
  assert (Hall : forallb (fun b => bits_set b =? popcount8 b) (seqZ 0 256)
                 = true) by (vm_compute; reflexivity).
  rewrite forallb_forall in Hall. by apply Z.eqb_eq, Hall, in_seqZ_256.
Qed.

Lemma X21_bits_set_table_witness : bits_set 173 = popcount8 173.
Proof. apply (X21_bits_set_table 173). lia. Defined.

(** X22: recAddToMap adds the protocol of the record to the bitmap and
    nothing else.  On a bitmap of 32 bytes it returns SKPLUGIN_OK and a
    bitmap of 32 bytes in which the bit of the record's protocol is set
    and every other bit is as before; adding a protocol that is there
    already changes nothing. *)
Theorem X22_recAddToMap_sets_bit r m :
  bitmap_wf m ->
  fst (recAddToMap r m) = SKPLUGIN_OK
  /\ bitmap_wf (snd (recAddToMap r m))
  /\ (forall p, 0 <= p < 256 ->
        has_proto (snd (recAddToMap r m)) p
        = (p =? proto_of r) || has_proto m p)
  /\ (has_proto m (proto_of r) = true -> snd (recAddToMap r m) = m).
Proof.
  intros Hwf. destruct (recAddToMap_spec r m Hwf) as (Hwf' & Hbits & _).
  split; [done|]. split; [done|]. split; [done|].
  intros Hin. apply bitmap_ext; try done.
  intros p Hp. rewrite Hbits by done.
  destruct (Z.eqb_spec p (proto_of r)) as [->|Hne]; [by rewrite Hin|done].
Qed.

Lemma X22_recAddToMap_sets_bit_witness :
  has_proto (snd (recAddToMap (rec_of_proto 17) init_value)) 17 = true
  /\ has_proto (snd (recAddToMap (rec_of_proto 17) init_value)) 6 = false.
Proof.
  destruct (X22_recAddToMap_sets_bit (rec_of_proto 17) init_value
              init_value_wf) as (_ & _ & Hbits & _).
  split.
  - rewrite (Hbits 17) by lia. reflexivity.
  - rewrite (Hbits 6) by lia. reflexivity.
Defined.

(** X23: the field counts distinct protocols.  For the bitmap of a
    group of records, built by recAddToMap from the initial value, the
    number mapToText prints is the number of different protocols among
    the records, however often each occurs; printed with "%3d" it is
    exactly FIELD_WIDTH characters wide, and it is stored whole as soon
    as text_size leaves room for these and the final NUL. *)
Theorem X23_mapToText_counts_distinct recs text_size :
  let n := Z.of_nat (size (list_to_set (map proto_of recs) : gset Z)) in
  count_bits (bitmap_of recs) = n
  /\ String.length (format_3d n) = FIELD_WIDTH
  /\ mapToText (bitmap_of recs) text_size
     = (SKPLUGIN_OK, snprintf text_size (format_3d n))
  /\ (FIELD_WIDTH < text_size ->
      mapToText (bitmap_of recs) text_size
      = (SKPLUGIN_OK, Some (format_3d n)))%nat.
Proof.
  intros n. destruct (bitmap_of_spec recs) as (_ & _ & Hcount).
  fold n in Hcount.
  assert (Hwidth : String.length (format_3d n) = FIELD_WIDTH).
  { apply format_3d_width. rewrite <- Hcount. apply count_bits_sum. }
  split; [done|]. split; [done|].
  unfold mapToText. rewrite Hcount. split; [done|].
  intros Hsize. destruct text_size as [|k]; [lia|]. simpl.
  rewrite string_take_all; [done|]. rewrite Hwidth. lia.
Qed.

(** X24: mergeMaps is the union of two bitmaps: a protocol is in the
    merged value exactly when it is in one of the two values, and the
    result is again a bitmap of 32 bytes. *)
Theorem X24_mergeMaps_union a b :
  bitmap_wf a -> bitmap_wf b ->
  exists merged,
    mergeMaps a b = (SKPLUGIN_OK, merged)
    /\ bitmap_wf merged
    /\ forall p, 0 <= p < 256 ->
         has_proto merged p = has_proto a p || has_proto b p.
Proof.
  intros Ha Hb. destruct (or_bytes_union a b Ha Hb) as [Hwf Hbits].
  exists (or_bytes a b). rewrite mergeMaps_eq. done.
Qed.

Lemma X24_mergeMaps_union_witness :
  exists merged,
    mergeMaps (bitmap_of [rec_of_proto 6]) (bitmap_of [rec_of_proto 17])
    = (SKPLUGIN_OK, merged)
    /\ has_proto merged 17 = true.
Proof.
  destruct (X24_mergeMaps_union (bitmap_of [rec_of_proto 6])
              (bitmap_of [rec_of_proto 17])
              (proj1 (bitmap_of_spec _)) (proj1 (bitmap_of_spec _)))
    as (merged & Hm & _ & Hbits).
  exists merged. split; [exact Hm|].
  rewrite (Hbits 17) by lia. reflexivity.
Defined.

(** X25: merging the values of two groups gives the value of the two
    groups taken together: the bitmap mergeMaps makes of the bitmaps of
    two lists of records is, byte for byte, the bitmap recAddToMap
    builds from the concatenated list. *)
Theorem X25_mergeMaps_of_groups recs1 recs2 :
  mergeMaps (bitmap_of recs1) (bitmap_of recs2)
  = (SKPLUGIN_OK, bitmap_of (recs1 ++ recs2)).
Proof.
  destruct (bitmap_of_spec recs1) as (Hwf1 & Hb1 & _).
  destruct (bitmap_of_spec recs2) as (Hwf2 & Hb2 & _).
  destruct (bitmap_of_spec (recs1 ++ recs2)) as (Hwf & Hb & _).
  destruct (or_bytes_union _ _ Hwf1 Hwf2) as [Hwfm Hbm].
  rewrite mergeMaps_eq.
  generalize dependent (or_bytes (bitmap_of recs1) (bitmap_of recs2)).
  intros merged Hwfm Hbm. f_equal.
  apply bitmap_ext; [exact Hwfm|exact Hwf|].
  intros p Hp. rewrite Hbm, Hb1, Hb2, Hb by exact Hp. rewrite map_app.
  destruct (bool_decide_reflect (p ∈ map proto_of recs1)) as [H1|H1];
    destruct (bool_decide_reflect (p ∈ map proto_of recs2)) as [H2|H2];
    simpl; symmetry;
    (apply bool_decide_eq_true || apply bool_decide_eq_false); set_solver.
Qed.

(** X26: compareMaps orders bitmaps by their number of bits, that is
    the values of two keys by their numbers of distinct protocols: *cmp
    is the count of the first minus the count of the second, a number
    between -256 and 256 (the int sum never wraps), and swapping the
    arguments negates it.  Two groups with different protocols but as
    many of them compare equal. *)
Theorem X26_compareMaps_orders_by_count a b :
  compareMaps a b = (SKPLUGIN_OK, count_bits a - count_bits b)
  /\ -256 <= count_bits a - count_bits b <= 256
  /\ compareMaps b a = (SKPLUGIN_OK, - (count_bits a - count_bits b))
  /\ forall recs1 recs2,
       compareMaps (bitmap_of recs1) (bitmap_of recs2)
       = (SKPLUGIN_OK,
          Z.of_nat (size (list_to_set (map proto_of recs1) : gset Z))
          - Z.of_nat (size (list_to_set (map proto_of recs2) : gset Z))).
Proof.
  pose proof (count_bits_sum a) as [_ Ha].
  pose proof (count_bits_sum b) as [_ Hb].
  rewrite !compareMaps_eq, !diff_bits_spec.
  split; [done|]. split; [lia|]. split; [f_equal; lia|].
  intros recs1 recs2. rewrite compareMaps_eq, diff_bits_spec.
  destruct (bitmap_of_spec recs1) as (_ & _ & ->).
  destruct (bitmap_of_spec recs2) as (_ & _ & ->). done.
Qed.

(** * Properties of the options test program *)

Section OptionsFacts.
Variable REQUIRED_ARG : Z.
Variable NO_ARG : Z.

Lemma filterHandler_cases i arg :
  (i < 0 \/ 16 < i) /\ (exists err, filterHandler REQUIRED_ARG i arg
                                    = HInvalid err)
  \/ 0 <= i <= 16
     /\ filterHandler REQUIRED_ARG i arg
        = report "filterHandler" (filter_options REQUIRED_ARG !! Z.to_nat i)
            arg.
Proof.
  unfold filterHandler. change (Z.of_nat (length _) - 1) with 16.
  destruct (i <? 0) eqn:Hneg; [apply Z.ltb_lt in Hneg|apply Z.ltb_ge in Hneg].
  { left. split; [lia|]. simpl. eauto. }
  destruct (16 <? i) eqn:Hbig; [apply Z.ltb_lt in Hbig|apply Z.ltb_ge in Hbig].
  { left. split; [lia|]. simpl. eauto. }
  right. split; [lia|]. cbn [orb].
  replace (i =? 18) with false by (symmetry; apply Z.eqb_neq; lia).
  unfold entry_at.
  by replace (i <? 0) with false by (symmetry; apply Z.ltb_ge; lia).
Qed.

Lemma fglobHandler_cases i arg :
  (i < 0 \/ 4 < i) /\ (exists err, fglobHandler REQUIRED_ARG NO_ARG i arg
                                   = HInvalid err)
  \/ 0 <= i <= 4
     /\ fglobHandler REQUIRED_ARG NO_ARG i arg
        = report "fglobHandler"
            (entry_at (fglob_options REQUIRED_ARG NO_ARG) (i - 1)) arg.
Proof.
  unfold fglobHandler. change (Z.of_nat (length _) - 1) with 4.
  destruct (i <? 0) eqn:Hneg; [apply Z.ltb_lt in Hneg|apply Z.ltb_ge in Hneg].
  { left. split; [lia|]. simpl. eauto. }
  destruct (4 <? i) eqn:Hbig; [apply Z.ltb_lt in Hbig|apply Z.ltb_ge in Hbig].
  { left. split; [lia|]. simpl. eauto. }
  right. split; [lia|]. cbn [orb].
  by replace (i =? 5) with false by (symmetry; apply Z.eqb_neq; lia).
Qed.

Lemma report_not_usage who e arg out : report who e arg <> HUsage out.
Proof. unfold report. by destruct e as [[[name|] ? ? ?]|]. Qed.

Lemma report_not_invalid who e arg err : report who e arg <> HInvalid err.
Proof. unfold report. by destruct e as [[[name|] ? ? ?]|]. Qed.
End OptionsFacts.

(** X27: the indices of filterHandler.  It rejects the indices below 0
    and above 16; index 16, the terminating entry of filter_options,
    passes the check and its NULL name is printed.  The branch for
    index 18, which would print the usage, is never taken.  An option
    whose val is its position in the table is reported under its own
    name; the options after daddress have a val that is not their
    position, and the entry read for them is another one
    (bytes_per_flow for bytes_per_packet), the terminating entry
    (not-saddress) or none, the val 17 of not-daddress being rejected. *)
Theorem X27_filterHandler_indices REQUIRED_ARG i arg :
  (forall out, filterHandler REQUIRED_ARG i arg <> HUsage out)
  /\ ((exists err, filterHandler REQUIRED_ARG i arg = HInvalid err)
      <-> i < 0 \/ 16 < i)
  /\ filterHandler REQUIRED_ARG 16 arg = HBadRead
  /\ forall p o,
       filter_options REQUIRED_ARG !! p = Some o -> is_Some (opt_name o) ->
       names_option (filterHandler REQUIRED_ARG (opt_val o) arg)
         "filterHandler" o arg
       <-> opt_val o = Z.of_nat p.
Proof.
  split; [|split; [|split]].
  - intros out.
    destruct (filterHandler_cases REQUIRED_ARG i arg)
      as [[_ [err ->]]|[_ ->]]; [done|apply report_not_usage].
  - destruct (filterHandler_cases REQUIRED_ARG i arg)
      as [[Hi [err Herr]]|[Hi Hrep]].
    + split; [done|eauto].
    + rewrite Hrep. split; [|lia].
      intros [err Herr]. by apply report_not_invalid in Herr.
  - reflexivity.
  - intros p o Hp Hname. unfold names_option.
    do 17 (destruct p as [|p];
      [injection Hp as <-; cbn [opt_val opt_name] in *; split;
         [intros [Hr _];
          first [reflexivity | exfalso; vm_compute in Hr; discriminate Hr]
         |intros Hv;
          first [exfalso; vm_compute in Hv; discriminate Hv
                |split; [reflexivity|exact Hname]]]
      |]).
    done.
Qed.

(** X28: the indices of fglobHandler.  It rejects the indices below 0
    and above 4, so that its branch for index 5, which would print the
    usage, is never taken; index 0 passes the check and makes it read
    fglob_options[-1], before the table.  Every option of fglob_options,
    called with its own val, is reported under its own name. *)
Theorem X28_fglobHandler_indices REQUIRED_ARG NO_ARG i arg :
  (forall out, fglobHandler REQUIRED_ARG NO_ARG i arg <> HUsage out)
  /\ ((exists err, fglobHandler REQUIRED_ARG NO_ARG i arg = HInvalid err)
      <-> i < 0 \/ 4 < i)
  /\ fglobHandler REQUIRED_ARG NO_ARG 0 arg = HBadRead
  /\ forall p o,
       fglob_options REQUIRED_ARG NO_ARG !! p = Some o ->
       is_Some (opt_name o) ->
       names_option (fglobHandler REQUIRED_ARG NO_ARG (opt_val o) arg)
         "fglobHandler" o arg.
Proof.
  split; [|split; [|split]].
  - intros out.
    destruct (fglobHandler_cases REQUIRED_ARG NO_ARG i arg)
      as [[_ [err ->]]|[_ ->]]; [done|apply report_not_usage].
  - destruct (fglobHandler_cases REQUIRED_ARG NO_ARG i arg)
      as [[Hi [err Herr]]|[Hi Hrep]].
    + split; [done|eauto].
    + rewrite Hrep. split; [|lia].
      intros [err Herr]. by apply report_not_invalid in Herr.
  - reflexivity.
  - intros p o Hp Hname. unfold names_option.
    do 5 (destruct p as [|p];
          [injection Hp as <-; cbn [opt_val opt_name] in *;
           first [by destruct Hname as [? [=]] | split; [reflexivity|done]]
          |]).
    done.
Qed.
